(** * knut: booking, accrual expansion, journal bounds and position order

    A shallow embedding of the parts of the knut accounting engine that
    the specification makes claims about:

    - [lib/ledger/ledger.go]: [Ledger.MinDate], [Ledger.MaxDate],
      [Ledger.Dates], [NewPosting], [Accrual.Expand], [isAL], [isIE];
    - the [balance] package: [Balance.Minus], [Balance.BookAmount],
      [Balance.Amount], [Balance.Book], [Diffs], [CommodityAccount.Less];
    - [lib/journal2/journal.go]: [New], [Journal.Day], the [Add*] methods,
      [Journal.Period] and the directive loop of [Create].

    Monetary quantities are values of the arbitrary-precision decimal type
    the program imports; they are modelled by their representation
    (an integer coefficient and a decimal exponent) and compared through
    their exact rational value. *)

From Stdlib Require Import ZArith QArith Qcanon Lia OrderedTypeEx.
From stdpp Require Import gmap strings pretty list fin_maps sorting.

Local Open Scope Z_scope.

(* ===================================================================== *)
(** * Exact decimals *)
(* ===================================================================== *)

Module decimal.

(** A decimal is [value * 10 ^ exp].  The coefficient is a big integer, so
    it is an unbounded [Z]; the exponent is kept as a [Z] too (the 32-bit
    range of the exponent is not modelled). *)
Record Decimal : Type := mkDecimal { value : Z; exp : Z }.

(** The zero value of the type, which is what a Go map returns for a key
    it does not hold. *)
Definition Zero : Decimal := mkDecimal 0 0.

Definition NewFromInt (n : Z) : Decimal := mkDecimal n 0.

(** [rescale] moves a decimal to another exponent: towards a smaller
    exponent the coefficient is multiplied (exact), towards a larger one
    it is divided with truncation. *)
Definition rescale (d : Decimal) (e : Z) : Decimal :=
  if exp d =? e then d
  else
    let diff := Z.abs (e - exp d) in
    let expScale := 10 ^ diff in
    if exp d <? e then mkDecimal (Z.quot (value d) expScale) e
    else mkDecimal (value d * expScale) e.

(** [RescalePair] brings two decimals to their smaller exponent. *)
Definition RescalePair (d1 d2 : Decimal) : Decimal * Decimal :=
  if exp d1 =? exp d2 then (d1, d2)
  else
    let baseScale := Z.min (exp d1) (exp d2) in
    if negb (baseScale =? exp d1) then (rescale d1 baseScale, d2)
    else (d1, rescale d2 baseScale).

Definition Add (d d2 : Decimal) : Decimal :=
  let '(rd, rd2) := RescalePair d d2 in
  mkDecimal (value rd + value rd2) (exp rd).

Definition Sub (d d2 : Decimal) : Decimal :=
  let '(rd, rd2) := RescalePair d d2 in
  mkDecimal (value rd - value rd2) (exp rd).

Definition Neg (d : Decimal) : Decimal := mkDecimal (- value d) (exp d).

Definition Sign (d : Decimal) : Z := Z.sgn (value d).

Definition IsNegative (d : Decimal) : bool := Sign d =? -1.

Definition IsZero (d : Decimal) : bool := Sign d =? 0.

(** [QuoRem d d2 precision]: division with remainder, the quotient being an
    integer multiple of [10 ^ (- precision)].  The integer division is the
    truncating one of big integers.  A zero divisor makes the program
    panic, which is [None] here. *)
Definition QuoRem (d d2 : Decimal) (precision : Z) : option (Decimal * Decimal) :=
  if value d2 =? 0 then None
  else
    let scale := - precision in
    let e := exp d - exp d2 - scale in
    let '(aa, bb, scalerest) :=
      if e <? 0
      then (value d, value d2 * 10 ^ (- e), exp d)
      else (value d * 10 ^ e, value d2, scale + exp d2) in
    let q := Z.quot aa bb in
    let r := Z.rem aa bb in
    Some (mkDecimal q scale, mkDecimal r scalerest).

(** ** The rational value of a decimal *)

Definition pow10 (e : Z) : Qc :=
  if 0 <=? e then Qc_of_Z (10 ^ e) else (/ Qc_of_Z (10 ^ (- e)))%Qc.

Definition toQc (d : Decimal) : Qc := (Qc_of_Z (value d) * pow10 (exp d))%Qc.

#[global] Instance Decimal_eq_dec : EqDecision Decimal.
Proof. solve_decision. Defined.

#[global] Instance Decimal_inhabited : Inhabited Decimal := populate Zero.

End decimal.

(* ===================================================================== *)
(** * The ledger model: accounts, directives, accruals *)
(* ===================================================================== *)

Module ledger.
Import decimal.

(** An instant ([time.Time]), as a number of days; [Before] and [After]
    are the strict order on instants. *)
Abbreviation Time := Z (only parsing).

Definition Before (t u : Time) : bool := t <? u.
Definition After (t u : Time) : bool := u <? t.

(** Modelled from the spec: the account types
    [{Assets, Liabilities, Equity, Income, Expenses}].  The declaration of
    [AccountType] (an integer enumeration) is not among the sources; the
    constants are numbered in the order the specification lists them. *)
Inductive AccountType : Type :=
  | ASSETS | LIABILITIES | EQUITY | INCOME | EXPENSES.

Definition AccountType_rank (t : AccountType) : Z :=
  match t with
  | ASSETS => 0 | LIABILITIES => 1 | EQUITY => 2 | INCOME => 3 | EXPENSES => 4
  end.

(** An interned account: what the code reads from an [*Account] is its
    [Type()] and its name ([String()]); two pointers are equal exactly when
    they denote the same interned account. *)
Record Account : Type := mkAccount
  { Account_Type : AccountType; Account_String : string }.

(** An interned commodity, read through [String()]. *)
Record Commodity : Type := mkCommodity { Commodity_String : string }.

(** Modelled from the spec: the period kinds
    [{Days, Weeks, Months, Quarters, Years, Once}] of package [date]. *)
Inductive Period : Type :=
  | Once | Daily | Weekly | Monthly | Quarterly | Yearly.

(** Modelled from the spec: a source location [(line, col)]. *)
Record Location : Type := mkLocation { Line : Z; Col : Z }.

Record Range : Type := mkRange
  { Path : string; Start : Location; End : Location }.

(** A lot; [Lot_Price] stands for the bits of the [float64] price. *)
Record Lot : Type := mkLot
  { Lot_Date : Time; Lot_Label : string; Lot_Price : Z;
    Lot_Commodity : Commodity }.

Record Posting : Type := mkPosting
  { Amount : Decimal; Value : Decimal;
    Credit : Account; Debit : Account;
    Posting_Commodity : Commodity;
    Posting_Lot : option Lot }.

Abbreviation Tag := string (only parsing).

Record Transaction : Type := mkTransaction
  { Transaction_Range : Range;
    Transaction_Date : Time;
    Description : string;
    Tags : list Tag;
    Postings : list Posting }.

Record Open : Type := mkOpen
  { Open_Range : Range; Open_Date : Time; Open_Account : Account }.

Record Close : Type := mkClose
  { Close_Range : Range; Close_Date : Time; Close_Account : Account }.

Record Price : Type := mkPrice
  { Price_Range : Range; Price_Date : Time;
    Price_Commodity : Commodity; Price_Target : Commodity;
    Price_Price : Decimal }.

Record Assertion : Type := mkAssertion
  { Assertion_Range : Range; Assertion_Date : Time;
    Assertion_Account : Account; Assertion_Amount : Decimal;
    Assertion_Commodity : Commodity }.

Record ValueDirective : Type := mkValue
  { Value_Range : Range; Value_Date : Time;
    Value_Account : Account; Value_Amount : Decimal;
    Value_Commodity : Commodity }.

Record Accrual : Type := mkAccrual
  { Accrual_Range : Range;
    Accrual_Period : Period;
    T0 : Time; T1 : Time;
    Accrual_Account : Account;
    Accrual_Transaction : Transaction }.

(** [Day] groups all commands for a given date. *)
Record Day : Type := mkDay
  { Day_Date : Time;
    Day_Prices : list Price;
    Day_Assertions : list Assertion;
    Day_Values : list ValueDirective;
    Day_Openings : list Open;
    Day_Transactions : list Transaction;
    Day_Closings : list Close }.

(** The ledger: its days, in slice order.  (The [Context] field is the
    registry of names; none of the functions below reads it.) *)
Record Ledger : Type := mkLedger { Days : list Day }.

#[global] Instance AccountType_eq_dec : EqDecision AccountType.
Proof. solve_decision. Defined.
#[global] Instance Account_eq_dec : EqDecision Account.
Proof. solve_decision. Defined.
#[global] Instance Commodity_eq_dec : EqDecision Commodity.
Proof. solve_decision. Defined.

(** ** [MinDate], [MaxDate], [Dates] *)

(** [MinDate] returns the date of the first day that has an opening;
    [None] is the [false] of the Go pair. *)
Fixpoint MinDate_loop (days : list Day) : option Time :=
  match days with
  | [] => None
  | s :: rest =>
      if (0 <? length (Day_Openings s))%nat then Some (Day_Date s)
      else MinDate_loop rest
  end.

Definition MinDate (l : Ledger) : option Time := MinDate_loop (Days l).

Definition MaxDate (l : Ledger) : option Time :=
  if (length (Days l) =? 0)%nat then None
  else Day_Date <$> last (Days l).

Section Series.

(** [date.Series] is not among the sources: it is a parameter. *)
Variable Series : Time -> Time -> Period -> list Time.

(** [Dates]: [from] and [to] are optional ([nil] is [None]); the [nil]
    slice returned on the early exits is the empty list. *)
Definition Dates (l : Ledger) (from to : option Time) (period : Period)
  : list Time :=
  match (match from with
         | Some f => Some f
         | None => MinDate l
         end) with
  | None => []
  | Some t0 =>
      match (match to with
             | Some t => Some t
             | None => MaxDate l
             end) with
      | None => []
      | Some t1 => Series t0 t1 period
      end
  end.

(** ** [NewPosting] *)

Definition NewPosting (crAccount drAccount : Account) (commodity : Commodity)
    (amt : Decimal) : Posting :=
  let '(crAccount, drAccount, amt) :=
    if IsNegative amt then (drAccount, crAccount, Neg amt)
    else (crAccount, drAccount, amt) in
  {| Credit := crAccount;
     Debit := drAccount;
     Amount := amt;
     Posting_Commodity := commodity;
     Value := Zero;
     Posting_Lot := None |}.

(** ** [Accrual.Expand] *)

Definition isAL (a : Account) : bool :=
  bool_decide (Account_Type a = ASSETS)
  || bool_decide (Account_Type a = LIABILITIES).

Definition isIE (a : Account) : bool :=
  bool_decide (Account_Type a = INCOME)
  || bool_decide (Account_Type a = EXPENSES).

(** The accounts of the two legs, as the [switch] of [Expand] assigns
    them: [(crAccountSingle, drAccountSingle, crAccountMulti,
    drAccountMulti)], all four starting as the accrual's account. *)
Definition legAccounts (account : Account) (posting : Posting)
  : Account * Account * Account * Account :=
  if isAL (Credit posting) && isIE (Debit posting) then
    (Credit posting, account, account, Debit posting)
  else if isIE (Credit posting) && isAL (Debit posting) then
    (account, Debit posting, Credit posting, account)
  else if isIE (Credit posting) && isIE (Debit posting) then
    (account, account, Credit posting, Debit posting)
  else
    (Credit posting, Debit posting, account, account).

(** The description of the [i]-th multi-period transaction,
    ["%s (accrual %d/%d)"]. *)
Definition accrualDescription (description : string) (i n : nat) : string :=
  description +:+ " (accrual " +:+ pretty (i + 1)%nat +:+ "/" +:+ pretty n
  +:+ ")".

(** The body of the loop over [dates]. *)
Definition multiTransaction (t : Transaction) (posting : Posting)
    (crAccountMulti drAccountMulti : Account) (amount rem : Decimal)
    (n : nat) (i : nat) (date : Time) : Transaction :=
  let a := if (i =? 0)%nat then Add amount rem else amount in
  {| Transaction_Range := Transaction_Range t;
     Transaction_Date := date;
     Tags := Tags t;
     Description := accrualDescription (Description t) i n;
     Postings :=
       [NewPosting crAccountMulti drAccountMulti (Posting_Commodity posting) a] |}.

Definition singleTransaction (t : Transaction) (posting : Posting)
    (crAccountSingle drAccountSingle : Account) : Transaction :=
  {| Transaction_Range := Transaction_Range t;
     Transaction_Date := Transaction_Date t;
     Tags := Tags t;
     Description := Description t;
     Postings :=
       [NewPosting crAccountSingle drAccountSingle (Posting_Commodity posting)
          (Amount posting)] |}.

(** [Expand] panics ([None]) when the template has no posting, when the
    series is empty (the slice [[1:]] is out of range) and when no date is
    left after the first (division by zero in [QuoRem]). *)
Definition Expand (a : Accrual) : option (list Transaction) :=
  let t := Accrual_Transaction a in
  match Postings t with
  | [] => None
  | posting :: _ =>
      let '(crAccountSingle, drAccountSingle, crAccountMulti, drAccountMulti) :=
        legAccounts (Accrual_Account a) posting in
      match Series (T0 a) (T1 a) (Accrual_Period a) with
      | [] => None
      | _ :: dates =>
          match QuoRem (Amount posting)
                  (NewFromInt (Z.of_nat (length dates))) 1 with
          | None => None
          | Some (amount, rem) =>
              let result :=
                if decide (crAccountMulti <> drAccountMulti) then
                  imap (multiTransaction t posting crAccountMulti
                          drAccountMulti amount rem (length dates)) dates
                else [] in
              let result :=
                if decide (crAccountSingle <> drAccountSingle) then
                  result ++ [singleTransaction t posting crAccountSingle
                               drAccountSingle]
                else result in
              Some result
          end
      end
  end.

End Series.

(** ** Reading a list of transactions

    The amounts and the (credit, debit) pairs of the postings of a
    transaction, and the exact sum of a list of decimals. *)
Definition postingAmounts (t : Transaction) : list Decimal :=
  Amount <$> Postings t.

Definition postingAccounts (t : Transaction) : list (Account * Account) :=
  (fun p => (Credit p, Debit p)) <$> Postings t.

Definition sumQc (l : list Decimal) : Qc :=
  foldr (fun d acc => (toQc d + acc)%Qc) 0%Qc l.

End ledger.

(* ===================================================================== *)
(** * The balance: positions, booking, differences *)
(* ===================================================================== *)

Module balance.
Import decimal ledger.

(** [CommodityAccount] represents a position. *)
Record CommodityAccount : Type := mkCommodityAccount
  { CA_Account : Account; CA_Commodity : Commodity }.

#[global] Instance CommodityAccount_eq_dec : EqDecision CommodityAccount.
Proof. solve_decision. Defined.

Definition AccountType_to_nat (t : AccountType) : nat :=
  match t with
  | ASSETS => 0 | LIABILITIES => 1 | EQUITY => 2 | INCOME => 3 | EXPENSES => 4
  end%nat.

Definition AccountType_of_nat (n : nat) : AccountType :=
  match n with
  | 0 => ASSETS | 1 => LIABILITIES | 2 => EQUITY | 3 => INCOME | _ => EXPENSES
  end%nat.

#[global] Instance AccountType_countable : Countable AccountType :=
  inj_countable' AccountType_to_nat AccountType_of_nat
    (fun t => match t with
              | ASSETS | LIABILITIES | EQUITY | INCOME | EXPENSES => eq_refl
              end).

#[global] Instance Account_countable : Countable Account :=
  inj_countable' (fun a => (Account_Type a, Account_String a))
    (fun p => mkAccount p.1 p.2)
    (fun a => match a with mkAccount _ _ => eq_refl end).

#[global] Instance Commodity_countable : Countable Commodity :=
  inj_countable' Commodity_String mkCommodity
    (fun c => match c with mkCommodity _ => eq_refl end).

#[global] Instance CommodityAccount_countable : Countable CommodityAccount :=
  inj_countable' (fun p => (CA_Account p, CA_Commodity p))
    (fun p => mkCommodityAccount p.1 p.2)
    (fun p => match p with mkCommodityAccount _ _ => eq_refl end).

(** [Less]: the comparisons are those of Go on the integer account type
    and, bytewise, on strings. *)
Definition Less (p p1 : CommodityAccount) : bool :=
  if negb (AccountType_rank (Account_Type (CA_Account p))
           =? AccountType_rank (Account_Type (CA_Account p1))) then
    AccountType_rank (Account_Type (CA_Account p))
    <? AccountType_rank (Account_Type (CA_Account p1))
  else if negb (String.eqb (Account_String (CA_Account p))
                  (Account_String (CA_Account p1))) then
    String.ltb (Account_String (CA_Account p))
      (Account_String (CA_Account p1))
  else
    String.ltb (Commodity_String (CA_Commodity p))
      (Commodity_String (CA_Commodity p1)).

(** An amounts map; reading a key it does not hold gives [Zero]
    (the total lookup [m !!! pos]). *)
Abbreviation Positions := (gmap CommodityAccount Decimal) (only parsing).

Section Accounts.

(** The set of open accounts ([Accounts]) and its query [IsOpen] are not
    among the sources: they are parameters. *)
Context {Accounts : Type}.
Variable IsOpen : Accounts -> Account -> bool.

(** [Balance] represents a balance for accounts at the given date.  (The
    fields [Context] and [NormalizedPrices] are left out: their types are
    not among the sources and no function below reads or writes them.) *)
Record Balance : Type := mkBalance
  { Balance_Date : Time;
    Amounts : Positions;
    Values : Positions;
    Balance_Accounts : Accounts;
    Valuation : option Commodity }.

Definition setAmounts (b : Balance) (m : Positions) : Balance :=
  {| Balance_Date := Balance_Date b; Amounts := m; Values := Values b;
     Balance_Accounts := Balance_Accounts b; Valuation := Valuation b |}.

Definition setValues (b : Balance) (m : Positions) : Balance :=
  {| Balance_Date := Balance_Date b; Amounts := Amounts b; Values := m;
     Balance_Accounts := Balance_Accounts b; Valuation := Valuation b |}.

(** One loop of [Minus]: [for pos, va := range mo { m[pos] = m[pos].Sub(va) }]. *)
Definition minusPositions (m mo : Positions) : Positions :=
  map_fold (fun pos va (acc : Positions) => <[pos := Sub (acc !!! pos) va]> acc)
    m mo.

(** [Minus] mutably subtracts the given balance from the receiver; here
    the new value of the receiver is returned. *)
Definition Minus (b bo : Balance) : Balance :=
  let b := setAmounts b (minusPositions (Amounts b) (Amounts bo)) in
  setValues b (minusPositions (Values b) (Values bo)).

(** [Amount] returns the amount for the given account and commodity. *)
Definition Amount (b : Balance) (a : Account) (c : Commodity) : Decimal :=
  Amounts b !!! mkCommodityAccount a c.

(** [Book] books the given amount: two assignments, the second reading
    the map the first one wrote. *)
Definition Book (b : Balance) (cr dr : Account) (a : Decimal) (c : Commodity)
  : Balance :=
  let crPos := mkCommodityAccount cr c in
  let drPos := mkCommodityAccount dr c in
  let amounts := <[crPos := Sub (Amounts b !!! crPos) a]> (Amounts b) in
  let amounts := <[drPos := Add (amounts !!! drPos) a]> amounts in
  setAmounts b amounts.

(** [Error] is an error: the directive it names and a message. *)
Record Error : Type := mkError { directive : Transaction; msg : string }.

(** [BookAmount]: the loop over the postings.  The balance is mutated in
    place, so the state reached is returned together with the error
    ([None] is [nil]). *)
Fixpoint BookAmount_loop (t : Transaction) (postings : list Posting)
    (b : Balance) : Balance * option Error :=
  match postings with
  | [] => (b, None)
  | posting :: rest =>
      if negb (IsOpen (Balance_Accounts b) (Credit posting)) then
        (b, Some (mkError t ("credit account "
                             +:+ Account_String (Credit posting)
                             +:+ " is not open")))
      else if negb (IsOpen (Balance_Accounts b) (Debit posting)) then
        (b, Some (mkError t ("debit account "
                             +:+ Account_String (Debit posting)
                             +:+ " is not open")))
      else
        BookAmount_loop t rest
          (Book b (Credit posting) (Debit posting) (ledger.Amount posting)
             (Posting_Commodity posting))
  end.

Definition BookAmount (b : Balance) (t : Transaction)
  : Balance * option Error :=
  BookAmount_loop t (Postings t) b.

(** The step of the loop of [BookAmount] on a posting whose accounts are
    open, and the condition that both are. *)
Definition bookPosting (b : Balance) (p : Posting) : Balance :=
  Book b (Credit p) (Debit p) (ledger.Amount p) (Posting_Commodity p).

Definition bothOpen (b : Balance) (p : Posting) : bool :=
  IsOpen (Balance_Accounts b) (Credit p)
  && IsOpen (Balance_Accounts b) (Debit p).

(** Modelled from the spec: the booking step of a day, whose code is not
    among the sources.  The transactions of the day are handed to
    [BookAmount] one after the other; the first error ends the day. *)
Fixpoint BookTransactions (b : Balance) (ts : list Transaction)
  : Balance * option Error :=
  match ts with
  | [] => (b, None)
  | t :: rest =>
      match BookAmount b t with
      | (b', Some err) => (b', Some err)
      | (b', None) => BookTransactions b' rest
      end
  end.

(** ** [Minus] and [Diffs] on the heap

    [Diffs] takes a slice of pointers, and the fields [Amounts] and
    [Values] of a balance hold references to maps: two pointers can point
    to one balance, two balances can share a map, and a pointer or a map
    can be nil.  The heap holds the balance objects and the maps at
    addresses; a reference is an address or nil ([None]). *)
Abbreviation Ref := (option nat) (only parsing).

(** A balance object as it lies in memory: [Balance] with references in
    the place of the two maps. *)
Record Object : Type := mkObject
  { Object_Date : Time;
    Object_Amounts : Ref;
    Object_Values : Ref;
    Object_Accounts : Accounts;
    Object_Valuation : option Commodity }.

Record Heap : Type := mkHeap
  { objects : gmap nat Object;
    maps : gmap nat Positions }.

(** Following a pointer; [None] for the nil pointer (and for an address
    that holds nothing, which no Go pointer is). *)
Definition deref (h : Heap) (p : Ref) : option Object :=
  l ← p; objects h !! l.

(** The entries read through a map reference: a nil map reads as the
    empty map. *)
Definition contents (h : Heap) (r : Ref) : Positions :=
  default ∅ (l ← r; maps h !! l).

(** The balance a pointer points to, with the entries of its maps. *)
Definition load (h : Heap) (p : Ref) : option Balance :=
  o ← deref h p;
  Some {| Balance_Date := Object_Date o;
          Amounts := contents h (Object_Amounts o);
          Values := contents h (Object_Values o);
          Balance_Accounts := Object_Accounts o;
          Valuation := Object_Valuation o |}.

(** One loop of [Minus] on the heap, over the entries [src] of the map
    that is ranged over:
    [for pos, va := range src { b.field[pos] = b.field[pos].Sub(va) }].
    Without an entry the body does not run and nothing is dereferenced.
    With an entry the receiver [b] is dereferenced and its map is written:
    a nil receiver and a nil map panic ([None]).  When the map written is
    the map ranged over, every entry is read and written at its own turn
    only, so the entries at the start of the loop decide the result. *)
Definition subtract (h : Heap) (b : Ref) (field : Object -> Ref)
    (src : Positions) : option Heap :=
  if decide (src = ∅) then Some h
  else
    o ← deref h b;
    m ← field o;
    tgt ← maps h !! m;
    Some {| objects := objects h;
            maps := <[m := minusPositions tgt src]> (maps h) |}.

(** [b.Minus(bo)] on the heap: [bo] is dereferenced for the range
    expression of each loop, the second loop reading the heap the first
    one left. *)
Definition Minus_at (h : Heap) (b bo : Ref) : option Heap :=
  o ← deref h bo;
  h ← subtract h b Object_Amounts (contents h (Object_Amounts o));
  subtract h b Object_Values (contents h (Object_Values o)).

(** The loop [for i := len(bals) - 1; i > 0; i--], entered at [i]. *)
Fixpoint Diffs_loop (i : nat) (bals : list Ref) (h : Heap) : option Heap :=
  match i with
  | O => Some h
  | S j =>
      b ← bals !! S j;
      bo ← bals !! j;
      h' ← Minus_at h b bo;
      Diffs_loop j bals h'
  end.

(** [Diffs]: the returned slice [bals[1:]] and the heap after the loop;
    [None] when the slice is empty (the slice expression panics). *)
Definition Diffs (bals : list Ref) (h : Heap) : option (list Ref * Heap) :=
  h' ← Diffs_loop (length bals - 1) bals h;
  match bals with
  | [] => None
  | _ :: rest => Some (rest, h')
  end.

(** Reading the result of [Diffs]: the amount that entry [i] of the
    returned slice holds for an account and a commodity. *)
Definition returnedAmount (result : option (list Ref * Heap)) (i : nat)
    (a : Account) (c : Commodity) : option Decimal :=
  '(returned, h') ← result;
  p ← returned !! i;
  d ← load h' p;
  Some (Amount d a c).

(** The references to the maps of the balance at [p]. *)
Definition mapRefs (h : Heap) (p : Ref) : list Ref :=
  match deref h p with
  | Some o => [Object_Amounts o; Object_Values o]
  | None => []
  end.

(** The pointer [p] points to a balance that has both its maps, as every
    balance made by [New] has. *)
Definition owned (h : Heap) (p : Ref) : Prop :=
  exists o,
    deref h p = Some o
    /\ is_Some (m ← Object_Amounts o; maps h !! m)
    /\ is_Some (m ← Object_Values o; maps h !! m).

(** The balances of the slice lie apart: each has both its maps and no
    map is referred to twice, neither by two balances nor by the two
    fields of one. *)
Definition separate (h : Heap) (bals : list Ref) : Prop :=
  Forall (owned h) bals /\ NoDup (bals ≫= mapRefs h).

(** The heap holds the list [orig] of balances at the pointers [bals],
    each balance apart from the others. *)
Definition stores (h : Heap) (bals : list Ref) (orig : list Balance) : Prop :=
  Forall2 (fun p b => load h p = Some b) bals orig /\ separate h bals.

End Accounts.

Section Snapshots.

(** The empty set of open accounts ([make(Accounts)]) and [Accounts.Copy]
    are not among the sources: they are parameters. *)
Context {Accounts : Type}.
Variable emptyAccounts : Accounts.
Variable Copy : Accounts -> Accounts.

(** [New] creates a new balance: empty maps, no open account, the zero
    date.  (The [Context] argument only fills the field that is left
    out.) *)
Definition New (valuation : option Commodity) : @Balance Accounts :=
  {| Balance_Date := 0; Amounts := ∅; Values := ∅;
     Balance_Accounts := emptyAccounts; Valuation := valuation |}.

(** One copying loop of [Snapshot]:
    [for pos, amt := range m { target[pos] = amt }]. *)
Definition copyPositions (target m : Positions) : Positions :=
  map_fold (fun pos amt (acc : Positions) => <[pos := amt]> acc) target m.

(** [Snapshot] deeply copies the balance. *)
Definition Snapshot (b : @Balance Accounts) : @Balance Accounts :=
  let nb := New (Valuation b) in
  {| Balance_Date := Balance_Date b;
     Amounts := copyPositions (Amounts nb) (Amounts b);
     Values := copyPositions (Values nb) (Values b);
     Balance_Accounts := Copy (Balance_Accounts b);
     Valuation := Valuation nb |}.

(** [Snapshot] on the heap: [New] allocates the object and its two maps
    at addresses not in use, the loops copy the entries, and the pointer
    to the new object is returned.  A nil receiver panics ([None]). *)
Definition Snapshot_at (h : @Heap Accounts) (b : option nat)
  : option (option nat * @Heap Accounts) :=
  o ← deref h b;
  let amounts := fresh (dom (maps h)) in
  let values := fresh ({[amounts]} ∪ dom (maps h)) in
  let nb := fresh (dom (objects h)) in
  Some (Some nb,
        {| objects :=
             <[nb := {| Object_Date := Object_Date o;
                        Object_Amounts := Some amounts;
                        Object_Values := Some values;
                        Object_Accounts := Copy (Object_Accounts o);
                        Object_Valuation := Object_Valuation o |}]>
               (objects h);
           maps :=
             <[values := copyPositions ∅ (contents h (Object_Values o))]>
               (<[amounts := copyPositions ∅ (contents h (Object_Amounts o))]>
                  (maps h)) |}).

(** The body of the loop of [bookValue]. *)
Definition bookValuePosting (b : @Balance Accounts) (posting : Posting)
  : @Balance Accounts :=
  let crPos := mkCommodityAccount (Credit posting) (Posting_Commodity posting) in
  let drPos := mkCommodityAccount (Debit posting) (Posting_Commodity posting) in
  let values := <[crPos := Sub (Values b !!! crPos) (Value posting)]> (Values b) in
  let values := <[drPos := Add (values !!! drPos) (Value posting)]> values in
  setValues b values.

(** [bookValue] books the value of every posting; it always returns
    [nil]. *)
Definition bookValue (b : @Balance Accounts) (t : Transaction)
  : @Balance Accounts * option Error :=
  (foldl bookValuePosting b (Postings t), None).

End Snapshots.

(** What an entry [v] at position [pos] contributes to the sum of
    commodity [c]. *)
Definition contribution (pos : CommodityAccount) (v : Decimal) (c : Commodity)
  : Qc :=
  if decide (CA_Commodity pos = c) then toQc v else 0%Qc.

(** The sum over all accounts of the entries of commodity [c], as a
    rational number. *)
Definition commoditySum (m : Positions) (c : Commodity) : Qc :=
  map_fold (fun pos v (acc : Qc) => (contribution pos v c + acc)%Qc) 0%Qc m.

(** The sum, at one position, of a list of position maps. *)
Definition sumAt (ms : list Positions) (pos : CommodityAccount) : Qc :=
  foldr (fun (m : Positions) acc => (toQc (m !!! pos) + acc)%Qc) 0%Qc ms.

(** What booking the amount [x] from [cr] to [dr] in commodity [c] adds to
    the entry [pos]. *)
Definition effect (cr dr : Account) (c : Commodity) (x : Qc)
    (pos : CommodityAccount) : Qc :=
  ((if decide (pos = mkCommodityAccount dr c) then x else 0)
   - (if decide (pos = mkCommodityAccount cr c) then x else 0))%Qc.

(** The net change a list of postings makes to the entry [pos]. *)
Definition netEffect (ps : list Posting) (pos : CommodityAccount) : Qc :=
  foldr (fun p acc =>
           (effect (Credit p) (Debit p) (Posting_Commodity p)
              (toQc (ledger.Amount p)) pos + acc)%Qc) 0%Qc ps.

(** The two positions a posting names: that of its credit and that of
    its debit account. *)
Definition postingPositions (p : Posting) : list CommodityAccount :=
  [mkCommodityAccount (Credit p) (Posting_Commodity p);
   mkCommodityAccount (Debit p) (Posting_Commodity p)].

Section Built.

Context {Accounts : Type}.
Variable IsOpen : Accounts -> Account -> bool.
Variable emptyAccounts : Accounts.
Variable Copy : Accounts -> Accounts.

(** The balances a run can hold: a new balance, changed by booking
    amounts and values, by copying, by subtracting, and by any change of
    the date and of the set of open accounts. *)
Inductive Built : @Balance Accounts -> Prop :=
  | Built_New valuation : Built (New emptyAccounts valuation)
  | Built_BookAmount b t : Built b -> Built (BookAmount IsOpen b t).1
  | Built_bookValue b t : Built b -> Built (bookValue b t).1
  | Built_Snapshot b : Built b -> Built (Snapshot emptyAccounts Copy b)
  | Built_Minus b bo : Built b -> Built bo -> Built (Minus b bo)
  | Built_update b date accounts :
      Built b ->
      Built {| Balance_Date := date; Amounts := Amounts b; Values := Values b;
               Balance_Accounts := accounts; Valuation := Valuation b |}.

End Built.

End balance.

(* ===================================================================== *)
(** * The journal builder *)
(* ===================================================================== *)

Module journal.
Import decimal ledger.

(** The directives the builder receives.  The directive types of package
    [model] are not among the sources; the builder reads only their
    [Date], and the records of the ledger model above stand for them.
    [DirOther] is a value of any other dynamic type. *)
Inductive Directive : Type :=
  | DirPrice (p : Price)
  | DirOpen (o : Open)
  | DirTransaction (t : Transaction)
  | DirAssertion (a : Assertion)
  | DirClose (c : Close)
  | DirOther.

(** [Day] groups all commands for a given date.  (The fields
    [Normalized] and [Performance] are left out: the builder never sets
    them.) *)
Record Day : Type := mkDay
  { Date : Time;
    Prices : list Price;
    Assertions : list Assertion;
    Openings : list Open;
    Transactions : list Transaction;
    Closings : list Close }.

(** A closed interval of dates ([date.Period]). *)
Record Period : Type := mkPeriod { Start : Time; End : Time }.

(** The date [9999-12-31], in days since [0001-01-01], the zero instant. *)
Definition Date_9999_12_31 : Time := 3652058.
Definition zeroTime : Time := 0.

Section Registry.

(** The registry is carried along and never inspected. *)
Context {Registry : Type}.

(** [Journal]: the day records are shared through pointers held in the
    map, so that changing a day is changing the entry of its date. *)
Record Journal : Type := mkJournal
  { Journal_Registry : Registry;
    Days : gmap Z Day;
    min : Time;
    max : Time }.

Definition New (reg : Registry) : Journal :=
  {| Journal_Registry := reg;
     Days := ∅;
     min := Date_9999_12_31;
     max := zeroTime |}.

Definition setDays (j : Journal) (days : gmap Z Day) : Journal :=
  {| Journal_Registry := Journal_Registry j; Days := days;
     min := min j; max := max j |}.

Definition setMin (j : Journal) (t : Time) : Journal :=
  {| Journal_Registry := Journal_Registry j; Days := Days j;
     min := t; max := max j |}.

Definition setMax (j : Journal) (t : Time) : Journal :=
  {| Journal_Registry := Journal_Registry j; Days := Days j;
     min := min j; max := t |}.

(** Modelled from the spec: [dict.GetDefault], which is not among the
    sources.  It returns the value stored under the key; when the map has
    none it stores the value the constructor makes and returns it (the
    builder "extends the matching day record"). *)
Definition GetDefault (m : gmap Z Day) (k : Time) (c : unit -> Day)
  : Day * gmap Z Day :=
  match m !! k with
  | Some v => (v, m)
  | None => let v := c tt in (v, <[k := v]> m)
  end.

(** [Journal.Day] returns the day for the given date, together with the
    journal whose map holds it. *)
Definition Journal_Day (j : Journal) (d : Time) : Day * Journal :=
  let '(day, days) :=
    GetDefault (Days j) d
      (fun _ => {| Date := d; Prices := []; Assertions := [];
                   Openings := []; Transactions := []; Closings := [] |}) in
  (day, setDays j days).

(** Writing back the day held under date [key]. *)
Definition putDay (j : Journal) (key : Time) (day : Day) : Journal :=
  setDays j (<[key := day]> (Days j)).

Definition AddOpen (j : Journal) (o : Open) : Journal :=
  let '(d, j) := Journal_Day j (Open_Date o) in
  putDay j (Open_Date o)
    {| Date := Date d; Prices := Prices d; Assertions := Assertions d;
       Openings := Openings d ++ [o]; Transactions := Transactions d;
       Closings := Closings d |}.

Definition AddPrice (j : Journal) (p : Price) : Journal :=
  let '(d, j) := Journal_Day j (Price_Date p) in
  let j := if Before (max j) (Date d) then setMax j (Date d) else j in
  putDay j (Price_Date p)
    {| Date := Date d; Prices := Prices d ++ [p]; Assertions := Assertions d;
       Openings := Openings d; Transactions := Transactions d;
       Closings := Closings d |}.

Definition AddTransaction (j : Journal) (t : Transaction) : Journal :=
  let '(d, j) := Journal_Day j (Transaction_Date t) in
  let j := if Before (max j) (Date d) then setMax j (Date d) else j in
  let j := if After (min j) (Transaction_Date t) then setMin j (Date d)
           else j in
  putDay j (Transaction_Date t)
    {| Date := Date d; Prices := Prices d; Assertions := Assertions d;
       Openings := Openings d; Transactions := Transactions d ++ [t];
       Closings := Closings d |}.

Definition AddAssertion (j : Journal) (a : Assertion) : Journal :=
  let '(d, j) := Journal_Day j (Assertion_Date a) in
  putDay j (Assertion_Date a)
    {| Date := Date d; Prices := Prices d; Assertions := Assertions d ++ [a];
       Openings := Openings d; Transactions := Transactions d;
       Closings := Closings d |}.

Definition AddClose (j : Journal) (c : Close) : Journal :=
  let '(d, j) := Journal_Day j (Close_Date c) in
  putDay j (Close_Date c)
    {| Date := Date d; Prices := Prices d; Assertions := Assertions d;
       Openings := Openings d; Transactions := Transactions d;
       Closings := Closings d ++ [c] |}.

Definition Journal_Period (j : Journal) : Period :=
  {| Start := min j; End := max j |}.

(** The type switch of [Create] on one directive; [None] is the error
    returned for an unknown directive. *)
Definition addDirective (j : Journal) (d : Directive) : option Journal :=
  match d with
  | DirPrice t => Some (AddPrice j t)
  | DirOpen t => Some (AddOpen j t)
  | DirTransaction t => Some (AddTransaction j t)
  | DirAssertion t => Some (AddAssertion j t)
  | DirClose t => Some (AddClose j t)
  | DirOther => None
  end.

(** The loop over one batch of directives. *)
Fixpoint consumeBatch (j : Journal) (input : list Directive) : option Journal :=
  match input with
  | [] => Some j
  | d :: rest => j' ← addDirective j d; consumeBatch j' rest
  end.

(** The batches of the channel, consumed in order. *)
Fixpoint consumeAll (j : Journal) (batches : list (list Directive))
  : option Journal :=
  match batches with
  | [] => Some j
  | input :: rest => j' ← consumeBatch j input; consumeAll j' rest
  end.

(** [Create]: a new journal fed with every batch; [None] when the
    consumer fails and no journal is delivered.  The context of the run
    is taken not to be cancelled: a cancelled run delivers no journal
    either. *)
Definition Create (reg : Registry) (batches : list (list Directive))
  : option Journal :=
  consumeAll (New reg) batches.

(** ** Properties of a journal under construction *)

(** Every day record is stored under its own date. *)
Definition keyed (j : Journal) : Prop :=
  forall k day, Days j !! k = Some day -> Date day = k.

(** What the bounds of [j] cover of a directive: a transaction on both
    sides, a price from above. *)
Definition covered (j : Journal) (d : Directive) : Prop :=
  match d with
  | DirTransaction t => min j <= Transaction_Date t <= max j
  | DirPrice p => Price_Date p <= max j
  | _ => True
  end.

End Registry.

(** ** Reading a list of directives *)

(** The date of a directive the builder knows. *)
Definition directiveDate (d : Directive) : option Time :=
  match d with
  | DirPrice p => Some (Price_Date p)
  | DirOpen o => Some (Open_Date o)
  | DirTransaction t => Some (Transaction_Date t)
  | DirAssertion a => Some (Assertion_Date a)
  | DirClose c => Some (Close_Date c)
  | DirOther => None
  end.

(** The directives of one kind dated [k], in the order of the list. *)
Definition pricesOn (k : Time) (ds : list Directive) : list Price :=
  omap (fun d => match d with
                 | DirPrice p => if decide (Price_Date p = k) then Some p else None
                 | _ => None
                 end) ds.

Definition openingsOn (k : Time) (ds : list Directive) : list Open :=
  omap (fun d => match d with
                 | DirOpen o => if decide (Open_Date o = k) then Some o else None
                 | _ => None
                 end) ds.

Definition transactionsOn (k : Time) (ds : list Directive) : list Transaction :=
  omap (fun d => match d with
                 | DirTransaction t =>
                     if decide (Transaction_Date t = k) then Some t else None
                 | _ => None
                 end) ds.

Definition assertionsOn (k : Time) (ds : list Directive) : list Assertion :=
  omap (fun d => match d with
                 | DirAssertion a =>
                     if decide (Assertion_Date a = k) then Some a else None
                 | _ => None
                 end) ds.

Definition closingsOn (k : Time) (ds : list Directive) : list Close :=
  omap (fun d => match d with
                 | DirClose c => if decide (Close_Date c = k) then Some c else None
                 | _ => None
                 end) ds.

(** The directives dated [k], kind by kind, as a day record; and the
    record a list of directives calls for under date [k]: none when no
    directive is dated [k]. *)
Definition recordOn (k : Time) (ds : list Directive) : Day :=
  {| Date := k;
     Prices := pricesOn k ds;
     Assertions := assertionsOn k ds;
     Openings := openingsOn k ds;
     Transactions := transactionsOn k ds;
     Closings := closingsOn k ds |}.

Definition dayOn (k : Time) (ds : list Directive) : option Day :=
  if bool_decide (Some k ∈ directiveDate <$> ds) then Some (recordOn k ds)
  else None.

(** The day record of date [k] without any directive, and the record the
    map of days holds for [k] or would be given. *)
Definition emptyDay (k : Time) : Day :=
  {| Date := k; Prices := []; Assertions := []; Openings := [];
     Transactions := []; Closings := [] |}.

Definition dayOrEmpty (days : gmap Z Day) (k : Time) : Day :=
  default (emptyDay k) (days !! k).

(** The dates that move the lower bound (transactions) and the upper
    bound (transactions and prices). *)
Definition lowerDates (ds : list Directive) : list Time :=
  omap (fun d => match d with
                 | DirTransaction t => Some (Transaction_Date t)
                 | _ => None
                 end) ds.

Definition upperDates (ds : list Directive) : list Time :=
  omap (fun d => match d with
                 | DirTransaction t => Some (Transaction_Date t)
                 | DirPrice p => Some (Price_Date p)
                 | _ => None
                 end) ds.

(** The state of the builder after the directives [ds]: the map holds
    for every date the record of the directives of that date, and the
    bounds are the extreme dates of the directives that move them. *)
Definition built {Registry : Type} (j : @Journal Registry)
    (ds : list Directive) : Prop :=
  (forall k, Days j !! k = dayOn k ds)
  /\ min j = foldr Z.min Date_9999_12_31 (lowerDates ds)
  /\ max j = foldr Z.max zeroTime (upperDates ds).

End journal.

(* ===================================================================== *)
(** * The report: shortening accounts *)
(* ===================================================================== *)

Module report.
Import decimal ledger balance.

Section Shorten.

(** Compiled regular expressions with [MatchString], and [Account.Split]
    (the path segments of an account), are not among the sources: they
    are parameters. *)
Context {Regexp : Type}.
Variable MatchString : Regexp -> string -> bool.
Variable Split : Account -> list string.

(** [Collapse] is a rule for collapsing (shortening) accounts; the level
    is a Go [int] and the regex a pointer, which is nil ([None]) for a
    rule given without a regex. *)
Record Collapse : Type := mkCollapse { Level : Z; Regex : option Regexp }.

(** The loop of [shorten] over the rules.  [c.Regex.MatchString] panics
    ([None]) on a nil regex, and the slice expression [s[:c.Level]] for a
    negative level; the guard [len(s) > c.Level] keeps the level below the
    length. *)
Fixpoint shorten_loop (c : list Collapse) (a : Account) (s : list string)
  : option (list string) :=
  match c with
  | [] => Some s
  | rule :: rest =>
      match Regex rule with
      | None => None
      | Some regex =>
          let matched := MatchString regex (Account_String a) in
          if matched && (Level rule <? Z.of_nat (length s)) then
            if Level rule <? 0 then None
            else shorten_loop rest a (take (Z.to_nat (Level rule)) s)
          else shorten_loop rest a s
      end
  end.

(** [shorten] shortens the given account according to the given rules. *)
Definition shorten (c : list Collapse) (a : Account) : option (list string) :=
  shorten_loop c a (Split a).

(** A rule with a regex that matches the account. *)
Definition matches (a : Account) (rule : Collapse) : bool :=
  match Regex rule with
  | Some regex => MatchString regex (Account_String a)
  | None => false
  end.

(** The number of segments the rules leave of [n]: every matching rule
    caps it at its level. *)
Definition limitFrom (n : nat) (c : list Collapse) (a : Account) : nat :=
  foldl (fun acc rule =>
           if matches a rule then Nat.min (Z.to_nat (Level rule)) acc
           else acc) n c.

(** A rule that makes [shorten] panic: it has no regex, or it matches and
    its level is negative. *)
Definition panics (a : Account) (rule : Collapse) : bool :=
  match Regex rule with
  | Some regex => MatchString regex (Account_String a) && (Level rule <? 0)
  | None => true
  end.

End Shorten.

(** ** [mergePositions] *)

Section Merge.

(** [model.CommodityAccount] and its method [Less] are not among the
    sources: the key type and its order are parameters. *)
Context {K : Type} `{Countable K}.
Variable Less : K -> K -> bool.

(** Modelled from the spec: a row of the report, a position key with one
    amount per balance.  The declarations of [model.Position] and of the
    vector [amount.Vec] are not among the sources; [amount.NewVec n] is
    taken to be [n] zero amounts, and [Position.Less] to compare the keys
    with [Less]. *)
Record Position : Type := mkPosition
  { Position_CommodityAccount : K;
    Position_Amounts : list Decimal }.

(** The order [sort.Slice] is asked to establish: no row is [Less] than a
    row before it. *)
Definition notAfter (x y : Position) : Prop :=
  Less (Position_CommodityAccount y) (Position_CommodityAccount x) = false.

#[global] Instance notAfter_dec (x y : Position) : Decision (notAfter x y).
Proof. unfold notAfter. apply _. Defined.

(** The set of keys collected by the first loop. *)
Definition commodityAccounts (positions : list (gmap K Decimal)) : gset K :=
  ⋃ (dom <$> positions).

(** The row built for one key: entry [i] is the value the [i]-th map
    holds for the key, and stays zero when the map has none. *)
Definition positionOf (positions : list (gmap K Decimal)) (ca : K)
  : Position :=
  {| Position_CommodityAccount := ca;
     Position_Amounts := (fun p : gmap K Decimal => p !!! ca) <$> positions |}.

(** The rows before sorting, in the order the keys are visited. *)
Definition unsorted (positions : list (gmap K Decimal)) : list Position :=
  positionOf positions <$> elements (commodityAccounts positions).

(** [mergePositions]: one row per key, sorted.  The keys are visited in
    the unspecified order of a Go map and the rows are then sorted by
    [sort.Slice], which is computed here by a merge sort. *)
Definition mergePositions (positions : list (gmap K Decimal))
  : list Position :=
  merge_sort notAfter (unsorted positions).

End Merge.

End report.

(* ===================================================================== *)
(** * The register report *)
(* ===================================================================== *)

Module register.
Import decimal ledger balance.

Section Register.

(** The filters of package [journal] and the postings, transactions and
    days of package [ast] are not among the sources: the filters with
    their two predicates, and the postings with the fields [Add] reads,
    are parameters. *)
Context {Filter Posting Transaction : Type}.
Variable MatchAccount : Filter -> Account -> bool.
Variable MatchCommodity : Filter -> Commodity -> bool.
Variables Credit Debit : Posting -> Account.
Variable Commodity : Posting -> ledger.Commodity.
Variables Amount Value : Posting -> Decimal.
Variable Postings : Transaction -> list Posting.

(** The two fields of [ast.Day] that [Add] reads. *)
Record Day : Type := mkDay
  { Date : Time; Transactions : list Transaction }.

(** Modelled from the spec: [amounts.Key] is built from an account and a
    commodity, as [CommodityAccount] is, and [amounts.Amounts] is a Go map
    from such keys to decimals. *)
#[local] Abbreviation Key := CommodityAccount.
#[local] Abbreviation Amounts := (gmap CommodityAccount Decimal).

(** [Section] is one day of the register report. *)
Record RegisterSection : Type := mkSection
  { date : Time; amounts : Amounts; values : Amounts }.

(** [Register] represents a register report. *)
Record Register : Type := mkRegister
  { InFilter : Filter; OutFilter : Filter; sections : list RegisterSection }.

(** The body of the loop of [Add] over the postings, on the pair
    [(amts, vals)]. *)
Definition addPosting (r : Register) (acc : Amounts * Amounts) (b : Posting)
  : Amounts * Amounts :=
  if negb (MatchCommodity (InFilter r) (Commodity b))
     || negb (MatchCommodity (OutFilter r) (Commodity b)) then acc
  else
    let inCr := MatchAccount (InFilter r) (Credit b) in
    let inDr := MatchAccount (InFilter r) (Debit b) in
    if inCr && inDr then acc
    else
      let acc :=
        if inCr && MatchAccount (OutFilter r) (Debit b) then
          let ca := mkCommodityAccount (Debit b) (Commodity b) in
          (<[ca := Sub (acc.1 !!! ca) (Amount b)]> acc.1,
           <[ca := Sub (acc.2 !!! ca) (Value b)]> acc.2)
        else acc in
      if inDr && MatchAccount (OutFilter r) (Credit b) then
        let ca := mkCommodityAccount (Credit b) (Commodity b) in
        (<[ca := Add (acc.1 !!! ca) (Amount b)]> acc.1,
         <[ca := Add (acc.2 !!! ca) (Value b)]> acc.2)
      else acc.

(** The two maps after the loops of [Add] over the day. *)
Definition dayPositions (r : Register) (d : Day) : Amounts * Amounts :=
  foldl (fun acc t => foldl (addPosting r) acc (Postings t)) (∅, ∅)
    (Transactions d).

(** [Add] adds another day: one more section, computed from the postings
    of the transactions of the day. *)
Definition Add (r : Register) (d : Day) : Register :=
  {| InFilter := InFilter r; OutFilter := OutFilter r;
     sections := sections r
                 ++ [{| date := Date d;
                        values := (dayPositions r d).2;
                        amounts := (dayPositions r d).1 |}] |}.

(** What [Add] admits as the key of an entry: an account the out-filter
    matches and the in-filter does not, in a commodity both match. *)
Definition counterPosition (r : Register) (ca : Key) : Prop :=
  MatchAccount (OutFilter r) (CA_Account ca) = true
  /\ MatchAccount (InFilter r) (CA_Account ca) = false
  /\ MatchCommodity (InFilter r) (CA_Commodity ca) = true
  /\ MatchCommodity (OutFilter r) (CA_Commodity ca) = true.

(** What the loops of [Add] maintain: both maps have the same keys, and
    every key is a counter position. *)
Definition admissible (r : Register) (acc : Amounts * Amounts) : Prop :=
  dom acc.1 = dom acc.2
  /\ forall ca, (ca ∈ dom acc.1) -> counterPosition r ca.

End Register.

End register.

(* ===================================================================== *)
(** * Sample data *)
(* ===================================================================== *)

Module examples.
Import decimal ledger.

Definition bank : Account := mkAccount ASSETS "Assets:Bank".
Definition prepaid : Account := mkAccount ASSETS "Assets:Prepaid".
Definition rent : Account := mkAccount EXPENSES "Expenses:Rent".
Definition salary : Account := mkAccount INCOME "Income:Salary".
Definition USD : Commodity := mkCommodity "USD".
Definition CHF : Commodity := mkCommodity "CHF".

Definition here : Range :=
  mkRange "journal.knut" (mkLocation 1 1) (mkLocation 2 1).

(** A series over one quarter: the day before the start, then three
    month ends. *)
Definition quarter (t0 t1 : Z) (p : Period) : list Z :=
  [t0 - 1; t0 + 30; t0 + 58; t1].

Definition posting100 (cr dr : Account) : Posting :=
  mkPosting (mkDecimal 100 0) Zero cr dr USD None.

Definition template (cr dr : Account) : Transaction :=
  mkTransaction here 738886 "rent" [] [posting100 cr dr].

(** Rent paid from the bank, accrued over the quarter through the
    prepaid account. *)
Definition rentAccrual : Accrual :=
  mkAccrual here Monthly 738886 738975 prepaid (template bank rent).

(** An accrual whose template moves income to expenses. *)
Definition reclassAccrual : Accrual :=
  mkAccrual here Monthly 738886 738975 prepaid (template salary rent).

(** A ledger whose days hold no opening. *)
Definition noOpenings : Ledger :=
  mkLedger
    [mkDay 738886 [] [] [] [] [template bank rent] [];
     mkDay 738900 [mkPrice here 738900 CHF USD (mkDecimal 11 (-1))] [] [] []
       [] [mkClose here 738900 bank]].

(** A set of open accounts kept as a list, with membership as [IsOpen]. *)
Definition isOpenIn (accounts : list Account) (a : Account) : bool :=
  bool_decide (a ∈ accounts).

(** An empty balance on which the bank and the rent account are open. *)
Definition emptyBalance : @balance.Balance (list Account) :=
  balance.mkBalance 738886 ∅ ∅ [bank; rent] None.

(** Rent paid from the bank, then a salary from an account that is not
    open. *)
Definition rentThenSalary : Transaction :=
  mkTransaction here 738886 "rent and salary" []
    [posting100 bank rent; posting100 salary bank].

(** A transaction whose first posting names the salary account. *)
Definition salaryFirst : Transaction :=
  mkTransaction here 738886 "salary" [] [posting100 salary bank].

(** The rent paid and paid back, then a posting from the salary account. *)
Definition thereAndBack : Transaction :=
  mkTransaction here 738886 "rent, back, salary" []
    [posting100 bank rent; posting100 rent bank; posting100 salary bank].

(** The balance after the rent has been paid once. *)
Definition paidRent : @balance.Balance (list Account) :=
  balance.bookPosting emptyBalance (posting100 bank rent).

(** A cumulative balance of [n] USD on the bank account. *)
Definition holding (n : Z) : @balance.Balance unit :=
  balance.mkBalance 738886
    {[ balance.mkCommodityAccount bank USD := mkDecimal n 0 ]}
    {[ balance.mkCommodityAccount bank USD := mkDecimal n 0 ]} tt None.

(** A map that holds [n] USD for the bank account. *)
Definition holdingMap (n : Z) : gmap balance.CommodityAccount Decimal :=
  {[ balance.mkCommodityAccount bank USD := mkDecimal n 0 ]}.

(** A balance object whose maps lie at the two given addresses. *)
Definition object (amounts values : nat) : @balance.Object unit :=
  balance.mkObject 738886 (Some amounts) (Some values) tt None.

(** The three cumulative balances held by three objects, each with maps
    of its own. *)
Definition distinctHeap : @balance.Heap unit :=
  balance.mkHeap
    {[ 0%nat := object 0 1; 1%nat := object 2 3; 2%nat := object 4 5 ]}
    {[ 0%nat := holdingMap 10; 1%nat := holdingMap 10;
       2%nat := holdingMap 30; 3%nat := holdingMap 30;
       4%nat := holdingMap 10; 5%nat := holdingMap 10 ]}.

Definition distinctSlice : list (option nat) :=
  [Some 0%nat; Some 1%nat; Some 2%nat].

(** The same three cumulative balances held by three objects of which the
    last is a copy of the first ([c := *b0]): two objects, one pair of
    maps. *)
Definition sharedHeap : @balance.Heap unit :=
  balance.mkHeap
    {[ 0%nat := object 0 1; 1%nat := object 2 3; 2%nat := object 0 1 ]}
    {[ 0%nat := holdingMap 10; 1%nat := holdingMap 10;
       2%nat := holdingMap 30; 3%nat := holdingMap 30 ]}.

Definition sharedSlice : list (option nat) :=
  [Some 0%nat; Some 1%nat; Some 2%nat].

(** A new balance, without entries, and the nil pointer after it. *)
Definition freshHeap : @balance.Heap unit :=
  balance.mkHeap {[ 0%nat := object 0 1 ]} {[ 0%nat := ∅; 1%nat := ∅ ]}.

Definition freshThenNil : list (option nat) := [Some 0%nat; None].

(** Two accounts opened on one day and a payment booked later. *)
Definition openThenPay : list (list journal.Directive) :=
  [[journal.DirOpen (mkOpen here 738800 bank);
    journal.DirOpen (mkOpen here 738800 rent)];
   [journal.DirTransaction (template bank rent)]].

(** A ledger with the two accounts opened on one day and the rent paid on
    a later one. *)
Definition openedLedger : Ledger :=
  mkLedger
    [mkDay 738800 [] [] []
       [mkOpen here 738800 bank; mkOpen here 738800 rent] [] [];
     mkDay 738886 [] [] [] [] [template bank rent] []].

(** Rules given by a level and a prefix of the account name. *)
Definition checking : Account := mkAccount ASSETS "Assets:Bank:Checking".

Definition segments (a : Account) : list string :=
  if decide (a = checking) then ["Assets"; "Bank"; "Checking"]
  else [Account_String a].

Definition startsWith (prefix name : string) : bool :=
  String.prefix prefix name.

Definition rules : list (@report.Collapse string) :=
  [report.mkCollapse 2 (Some "Assets"); report.mkCollapse 1 (Some "Income");
   report.mkCollapse 5 (Some "Assets:Bank")].

(** A rule without a regex, as a flag without a comma gives. *)
Definition bareRule : @report.Collapse string := report.mkCollapse 1 None.

(** The positions of two balances: the bank account alone, then the bank
    account and the rent. *)
Definition twoBalances : list (gmap balance.CommodityAccount Decimal) :=
  [ {[ balance.mkCommodityAccount bank USD := mkDecimal 100 0 ]};
    {[ balance.mkCommodityAccount rent USD := mkDecimal 5 0;
       balance.mkCommodityAccount bank USD := mkDecimal 95 0 ]} ].

End examples.

(* ===================================================================== *)
(** * Facts about decimals *)
(* ===================================================================== *)

Module decimal_facts.
Import decimal.

Lemma pow10_Z_pos k : 0 <= k -> 0 < 10 ^ k.
Proof. intros. apply Z.pow_pos_nonneg; lia. Qed.

Lemma Qc_of_Z_pow10_nonzero k : 0 <= k -> Qc_of_Z (10 ^ k) <> 0%Qc.
Proof.
  intros Hk H. rewrite <- Z2Qc_inj_0 in H. apply Z2Qc_inj in H.
  pose proof (pow10_Z_pos k Hk). lia.
Qed.

Lemma pow10_nonneg e : 0 <= e -> pow10 e = Qc_of_Z (10 ^ e).
Proof. intros H. unfold pow10. destruct (Z.leb_spec 0 e); [done | lia]. Qed.

Lemma pow10_neg e : e < 0 -> pow10 e = (/ Qc_of_Z (10 ^ (- e)))%Qc.
Proof. intros H. unfold pow10. destruct (Z.leb_spec 0 e); [lia | done]. Qed.

Lemma pow10_shift e k :
  0 <= k -> pow10 (e + k) = (Qc_of_Z (10 ^ k) * pow10 e)%Qc.
Proof.
  intros Hk.
  destruct (Z.le_gt_cases 0 e) as [He|He].
  - rewrite !pow10_nonneg by lia.
    rewrite Z.pow_add_r by lia. rewrite Z2Qc_inj_mul. ring.
  - rewrite (pow10_neg e) by lia.
    pose proof (Qc_of_Z_pow10_nonzero (- e) ltac:(lia)) as Hnz.
    destruct (Z.le_gt_cases 0 (e + k)) as [Hs|Hs].
    + rewrite pow10_nonneg by lia.
      replace (10 ^ k) with (10 ^ (e + k) * 10 ^ (- e))
        by (rewrite <- Z.pow_add_r by lia; f_equal; lia). rewrite Z2Qc_inj_mul. field. done.
    + rewrite pow10_neg by lia.
      pose proof (Qc_of_Z_pow10_nonzero (- (e + k)) ltac:(lia)) as Hnz'.
      pose proof (Qc_of_Z_pow10_nonzero k Hk) as Hnzk.
      replace (10 ^ (- e)) with (10 ^ k * 10 ^ (- (e + k)))
        by (rewrite <- Z.pow_add_r by lia; f_equal; lia). rewrite Z2Qc_inj_mul. field. done.
Qed.

Lemma toQc_Zero : toQc Zero = 0%Qc.
Proof. unfold toQc, Zero. simpl. rewrite Z2Qc_inj_0. ring. Qed.

Lemma toQc_rescale_down d e :
  e <= exp d -> toQc (rescale d e) = toQc d.
Proof.
  intros He. unfold rescale.
  destruct (Z.eqb_spec (exp d) e) as [Heq|Hne]; [done|].
  destruct (Z.ltb_spec (exp d) e); [lia|].
  unfold toQc; simpl.
  assert (pow10 (exp d) = (Qc_of_Z (10 ^ (exp d - e)) * pow10 e)%Qc) as ->
    by (rewrite <- pow10_shift by lia; f_equal; lia).
  rewrite Z2Qc_inj_mul.
  replace (Z.abs (e - exp d)) with (exp d - e) by lia. ring.
Qed.

Lemma RescalePair_spec d1 d2 :
  let '(r1, r2) := RescalePair d1 d2 in
  exp r1 = exp r2 /\ toQc r1 = toQc d1 /\ toQc r2 = toQc d2.
Proof.
  unfold RescalePair.
  destruct (Z.eqb_spec (exp d1) (exp d2)) as [Heq|Hne]; [done|].
  destruct (Z.eqb_spec (Z.min (exp d1) (exp d2)) (exp d1)) as [Hm|Hm]; simpl.
  - split_and!; [|done|apply toQc_rescale_down; lia].
    unfold rescale. destruct (Z.eqb_spec (exp d2) (Z.min (exp d1) (exp d2))); [lia|].
    destruct (Z.ltb_spec (exp d2) (Z.min (exp d1) (exp d2))); simpl; lia.
  - split_and!; [|apply toQc_rescale_down; lia|done].
    unfold rescale. destruct (Z.eqb_spec (exp d1) (Z.min (exp d1) (exp d2))); [lia|].
    destruct (Z.ltb_spec (exp d1) (Z.min (exp d1) (exp d2))); simpl; lia.
Qed.

Lemma toQc_Add d1 d2 : toQc (Add d1 d2) = (toQc d1 + toQc d2)%Qc.
Proof.
  unfold Add. pose proof (RescalePair_spec d1 d2) as H.
  destruct (RescalePair d1 d2) as [r1 r2]. destruct H as (He & <- & <-).
  unfold toQc; simpl. rewrite Z2Qc_inj_add, He. ring.
Qed.

Lemma toQc_Sub d1 d2 : toQc (Sub d1 d2) = (toQc d1 - toQc d2)%Qc.
Proof.
  unfold Sub. pose proof (RescalePair_spec d1 d2) as H.
  destruct (RescalePair d1 d2) as [r1 r2]. destruct H as (He & <- & <-).
  unfold toQc; simpl. rewrite Z2Qc_inj_sub, He. ring.
Qed.

Lemma toQc_Neg d : toQc (Neg d) = (- toQc d)%Qc.
Proof. unfold toQc, Neg; simpl. rewrite Z2Qc_inj_opp. ring. Qed.

Lemma toQc_NewFromInt n : toQc (NewFromInt n) = Qc_of_Z n.
Proof. unfold toQc, NewFromInt; simpl. rewrite pow10_nonneg by lia. change (10 ^ 0) with 1. rewrite Z2Qc_inj_1. ring. Qed.

Lemma IsNegative_spec d : IsNegative d = true <-> value d < 0.
Proof. unfold IsNegative, Sign. rewrite Z.eqb_eq. lia. Qed.

Lemma IsNegative_false d : IsNegative d = false <-> 0 <= value d.
Proof.
  rewrite <- not_true_iff_false, IsNegative_spec. lia.
Qed.

Lemma pow10_pos e : (0 < pow10 e)%Qc.
Proof.
  destruct (Z.le_gt_cases 0 e).
  - rewrite pow10_nonneg by done. rewrite <- Z2Qc_inj_0.
    apply (proj1 (Z2Qc_inj_lt _ _)), pow10_Z_pos. done.
  - rewrite pow10_neg by done. apply Qcinv_pos. rewrite <- Z2Qc_inj_0.
    apply (proj1 (Z2Qc_inj_lt _ _)), pow10_Z_pos. lia.
Qed.

Lemma toQc_nonneg d : 0 <= value d <-> (0 <= toQc d)%Qc.
Proof.
  unfold toQc. pose proof (pow10_pos (exp d)) as Hp. split.
  - intros H. apply Qcmult_nonneg_nonneg.
    + rewrite <- Z2Qc_inj_0. by apply (proj1 (Z2Qc_inj_le _ _)).
    + by apply Qclt_le_weak.
  - intros H. destruct (Z.le_gt_cases 0 (value d)) as [|Hneg]; [done|].
    exfalso. apply (Qclt_not_le _ _ (Qcmult_lt_compat_r _ _ _ Hp (proj1 (Z2Qc_inj_lt _ _) Hneg))).
    rewrite Z2Qc_inj_0. by rewrite Qcmult_0_l.
Qed.

Lemma QuoRem_None d d2 p : QuoRem d d2 p = None <-> value d2 = 0.
Proof.
  unfold QuoRem. destruct (Z.eqb_spec (value d2) 0); [done|].
  destruct (_ <? 0); simpl; split; done.
Qed.

Lemma pow10_add a b : pow10 (a + b) = (pow10 a * pow10 b)%Qc.
Proof.
  destruct (Z.le_gt_cases 0 b) as [Hb|Hb].
  - rewrite pow10_shift by done. rewrite (pow10_nonneg b) by done. ring.
  - assert (pow10 a = (Qc_of_Z (10 ^ (- b)) * pow10 (a + b))%Qc) as ->
      by (rewrite <- pow10_shift by lia; f_equal; lia).
    rewrite (pow10_neg b) by done.
    pose proof (Qc_of_Z_pow10_nonzero (- b) ltac:(lia)).
    field. done.
Qed.

Lemma QuoRem_exact d d2 p q r :
  QuoRem d d2 p = Some (q, r) ->
  toQc d = (toQc q * toQc d2 + toQc r)%Qc.
Proof.
  unfold QuoRem. destruct (Z.eqb_spec (value d2) 0) as [|Hnz]; [done|].
  set (e := exp d - exp d2 - - p).
  destruct (Z.ltb_spec e 0) as [He|He]; intros [= <- <-]; unfold toQc; simpl.
  - set (bb := value d2 * 10 ^ (- e)).
    rewrite (Z.quot_rem' (value d) bb) at 1.
    rewrite Z2Qc_inj_add, Z2Qc_inj_mul. unfold bb. rewrite Z2Qc_inj_mul.
    assert (pow10 (- p) * pow10 (exp d2)
            = Qc_of_Z (10 ^ (- e)) * pow10 (exp d))%Qc as Hp.
    { rewrite <- pow10_add, <- pow10_shift by lia. f_equal. lia. }
    transitivity (Qc_of_Z (value d `quot` bb) * Qc_of_Z (value d2)
                  * (Qc_of_Z (10 ^ (- e)) * pow10 (exp d))
                  + Qc_of_Z (value d `rem` bb) * pow10 (exp d))%Qc;
      [unfold bb; ring | rewrite <- Hp; unfold bb; ring].
  - assert (pow10 (exp d) = Qc_of_Z (10 ^ e) * pow10 (- p + exp d2))%Qc as ->.
    { rewrite <- pow10_shift by lia. f_equal. lia. }
    rewrite pow10_add.
    transitivity (Qc_of_Z (value d * 10 ^ e) * (pow10 (- p) * pow10 (exp d2)))%Qc;
      [rewrite Z2Qc_inj_mul; ring|].
    rewrite (Z.quot_rem' (value d * 10 ^ e) (value d2)) at 1.
    rewrite Z2Qc_inj_add, Z2Qc_inj_mul. ring.
Qed.

(** For a non-negative dividend and a positive divisor both results are
    non-negative. *)
Lemma QuoRem_nonneg d d2 p q r :
  QuoRem d d2 p = Some (q, r) ->
  0 <= value d -> 0 < value d2 -> 0 <= value q /\ 0 <= value r.
Proof.
  unfold QuoRem. destruct (Z.eqb_spec (value d2) 0) as [|Hnz]; [done|].
  set (e := exp d - exp d2 - - p).
  intros H Hd Hd2.
  destruct (Z.ltb_spec e 0) as [He|He]; injection H as <- <-; simpl.
  - pose proof (pow10_Z_pos (- e) ltac:(lia)).
    split; [apply Z.quot_pos|apply Z.rem_nonneg]; nia.
  - pose proof (pow10_Z_pos e ltac:(lia)).
    split; [apply Z.quot_pos|apply Z.rem_nonneg]; nia.
Qed.

Lemma Add_nonneg d1 d2 :
  0 <= value d1 -> 0 <= value d2 -> 0 <= value (Add d1 d2).
Proof.
  intros H1 H2. apply toQc_nonneg. rewrite toQc_Add.
  apply Qcplus_nonneg_nonneg; by apply toQc_nonneg.
Qed.

Lemma toQc_zero_iff d : toQc d = 0%Qc <-> value d = 0.
Proof.
  unfold toQc. split.
  - intros H. apply Qcmult_integral in H as [H|H].
    + rewrite <- Z2Qc_inj_0 in H. by apply Z2Qc_inj in H.
    + pose proof (pow10_pos (exp d)) as Hp. rewrite H in Hp.
      by apply Qclt_not_eq in Hp.
  - intros ->. rewrite Z2Qc_inj_0. ring.
Qed.

End decimal_facts.

(* ===================================================================== *)
(** * Ledger: postings, accrual expansion, dates *)
(* ===================================================================== *)

Module ledger_facts.
Import decimal ledger decimal_facts examples.

Lemma sumQc_app l1 l2 : sumQc (l1 ++ l2) = (sumQc l1 + sumQc l2)%Qc.
Proof. induction l1 as [|d l1 IH]; simpl; [ring | rewrite IH; ring]. Qed.

Lemma sumQc_const {A} (q : Decimal) (f : nat -> A -> Decimal) (l : list A) :
  (forall i x, f i x = q) ->
  sumQc (imap f l) = (Qc_of_Z (Z.of_nat (length l)) * toQc q)%Qc.
Proof.
  revert f. induction l as [|x l IH]; intros f Hf.
  - cbn [imap sumQc foldr length]. change (Z.of_nat 0) with 0.
    rewrite Z2Qc_inj_0. ring.
  - rewrite imap_cons. cbn [sumQc foldr length].
    change (foldr _ _ ?l) with (sumQc l).
    rewrite IH by (intros; apply Hf).
    rewrite Hf, Nat2Z.inj_succ, <- Z.add_1_r, Z2Qc_inj_add, Z2Qc_inj_1. ring.
Qed.

(** The amounts handed out by the loop of [Expand] add up to
    [n * q + r]. *)
Lemma sumQc_shares {A} (q r : Decimal) (l : list A) :
  l <> [] ->
  sumQc (imap (fun i _ => if (i =? 0)%nat then Add q r else q) l)
  = (Qc_of_Z (Z.of_nat (length l)) * toQc q + toQc r)%Qc.
Proof.
  destruct l as [|x l]; [done|intros _].
  rewrite imap_cons. cbn [sumQc foldr length Nat.eqb].
  change (foldr _ _ ?l) with (sumQc l).
  rewrite (sumQc_const q) by done.
  rewrite toQc_Add, Nat2Z.inj_succ, <- Z.add_1_r, Z2Qc_inj_add, Z2Qc_inj_1. ring.
Qed.

Lemma NewPosting_nonneg cr dr c amt :
  IsNegative amt = false ->
  NewPosting cr dr c amt = mkPosting amt Zero cr dr c None.
Proof. intros H. unfold NewPosting. by rewrite H. Qed.

Lemma bind_imap_singleton {A B C} (f : nat -> A -> B) (g : B -> list C)
    (h : nat -> A -> C) (l : list A) :
  (forall i x, g (f i x) = [h i x]) -> imap f l ≫= g = imap h l.
Proof.
  revert f h. induction l as [|x l IH]; intros f h Hfg; [done|].
  rewrite !imap_cons, bind_cons, Hfg. simpl. f_equal.
  apply IH. intros i y. apply Hfg.
Qed.

Lemma imap_const_replicate {A B} (c : B) (f : nat -> A -> B) (l : list A) :
  (forall i x, f i x = c) -> imap f l = replicate (length l) c.
Proof.
  revert f. induction l as [|x l IH]; intros f Hf; [done|].
  rewrite imap_cons, Hf. simpl. f_equal. apply IH. intros; apply Hf.
Qed.

Section Expand.

Variable Series : Z -> Z -> Period -> list Z.

(** What [Expand] returns whenever it returns: the multi-period
    transactions, then the single one. *)
Lemma Expand_returns a p rest first dates :
  Postings (Accrual_Transaction a) = p :: rest ->
  Series (T0 a) (T1 a) (Accrual_Period a) = first :: dates ->
  dates <> [] ->
  exists q r,
    QuoRem (Amount p) (NewFromInt (Z.of_nat (length dates))) 1 = Some (q, r)
    /\ Expand Series a =
       Some ((let '(_, _, crM, drM) := legAccounts (Accrual_Account a) p in
              if decide (crM <> drM) then
                imap (multiTransaction (Accrual_Transaction a) p crM drM q r
                        (length dates)) dates
              else [])
             ++
             (let '(crS, drS, _, _) := legAccounts (Accrual_Account a) p in
              if decide (crS <> drS) then
                [singleTransaction (Accrual_Transaction a) p crS drS]
              else [])).
Proof.
  intros Hp Hs Hd.
  destruct (QuoRem (Amount p) (NewFromInt (Z.of_nat (length dates))) 1)
    as [[q r]|] eqn:Hq.
  - exists q, r. split; [done|].
    unfold Expand. rewrite Hp, Hs, Hq.
    destruct (legAccounts (Accrual_Account a) p) as [[[crS drS] crM] drM].
    destruct (decide (crS <> drS)); [done | by rewrite app_nil_r].
  - apply QuoRem_None in Hq. simpl in Hq.
    destruct dates; [done | simpl in Hq; lia].
Qed.

(** The shares of a non-negative amount are non-negative, so that
    [NewPosting] leaves the accounts of every leg in place. *)
Lemma shares_nonneg p n q r :
  IsNegative (Amount p) = false ->
  (0 < n)%nat ->
  QuoRem (Amount p) (NewFromInt (Z.of_nat n)) 1 = Some (q, r) ->
  IsNegative q = false /\ IsNegative (Add q r) = false.
Proof.
  intros Hp Hn Hq. apply IsNegative_false in Hp.
  destruct (QuoRem_nonneg _ _ _ _ _ Hq Hp) as [Hq0 Hr0]; [simpl; lia|].
  split; apply IsNegative_false; [done | by apply Add_nonneg].
Qed.

Lemma bind_postingAmounts (txs : list Transaction) :
  txs ≫= postingAmounts = Amount <$> (txs ≫= Postings).
Proof.
  induction txs as [|t txs IH]; [done|].
  rewrite !bind_cons, fmap_app. by rewrite IH.
Qed.

Lemma bind_postingAccounts (txs : list Transaction) :
  txs ≫= postingAccounts
  = (fun p => (Credit p, Debit p)) <$> (txs ≫= Postings).
Proof.
  induction txs as [|t txs IH]; [done|].
  rewrite !bind_cons, fmap_app. by rewrite IH.
Qed.

Lemma fmap_imap_compose {A B C} (g : B -> C) (f : nat -> A -> B) (l : list A) :
  g <$> imap f l = imap (fun i x => g (f i x)) l.
Proof.
  apply list_eq. intros i. rewrite list_lookup_fmap, !list_lookup_imap.
  by destruct (l !! i).
Qed.

(** The postings and the dates of the transactions [Expand] returns:
    one posting per date for the multi-period leg, then the posting of
    the single-period leg, each built by [NewPosting]. *)
Lemma Expand_postings a p rest first dates :
  Postings (Accrual_Transaction a) = p :: rest ->
  Series (T0 a) (T1 a) (Accrual_Period a) = first :: dates ->
  dates <> [] ->
  exists q r txs,
    QuoRem (Amount p) (NewFromInt (Z.of_nat (length dates))) 1 = Some (q, r)
    /\ Expand Series a = Some txs
    /\ let '(crS, drS, crM, drM) := legAccounts (Accrual_Account a) p in
       txs ≫= Postings
       = (if decide (crM <> drM) then
            imap (fun i _ => NewPosting crM drM (Posting_Commodity p)
                               (if (i =? 0)%nat then Add q r else q)) dates
          else [])
         ++ (if decide (crS <> drS) then
               [NewPosting crS drS (Posting_Commodity p) (Amount p)]
             else [])
       /\ Transaction_Date <$> txs
          = (if decide (crM <> drM) then dates else [])
            ++ (if decide (crS <> drS)
                then [Transaction_Date (Accrual_Transaction a)] else []).
Proof.
  intros Hp Hs Hd.
  destruct (Expand_returns a p rest first dates Hp Hs Hd) as (q & r & Hq & Hex).
  eexists q, r, _. split; [done|]. split; [exact Hex|].
  destruct (legAccounts (Accrual_Account a) p) as [[[crS drS] crM] drM].
  rewrite bind_app, fmap_app. split; f_equal.
  - destruct (decide (crM <> drM)); [|done].
    by apply bind_imap_singleton.
  - by destruct (decide (crS <> drS)).
  - destruct (decide (crM <> drM)); [|done].
    apply list_eq. intros i. rewrite list_lookup_fmap, list_lookup_imap.
    by destruct (dates !! i).
  - by destruct (decide (crS <> drS)).
Qed.

(** C2 (as amended).  With [N >= 1] dates left after dropping the first
    element of the series, [Expand] returns; with [(q, r)] the quotient
    and remainder of the template amount [A] by [N], which satisfy
    [A = N * q + r] exactly, the share of the [i]-th multi-period
    transaction is [q + r] when [i = 0] and [q] otherwise, and the shares
    sum exactly to [A].  The [i]-th multi-period transaction is dated
    [dates[i]] and posts its share through [NewPosting]; the
    single-period transaction posts [A].  For a non-negative [A] the
    amounts of the multi-period postings are exactly the shares, and the
    amounts of all expanded transactions sum to [A] once for every leg
    that is emitted. *)
Theorem Expand_amounts a p rest first dates :
  Postings (Accrual_Transaction a) = p :: rest ->
  Series (T0 a) (T1 a) (Accrual_Period a) = first :: dates ->
  dates <> [] ->
  exists q r txs,
    QuoRem (Amount p) (NewFromInt (Z.of_nat (length dates))) 1 = Some (q, r)
    /\ toQc (Amount p)
       = (Qc_of_Z (Z.of_nat (length dates)) * toQc q + toQc r)%Qc
    /\ Expand Series a = Some txs
    /\ let '(crS, drS, crM, drM) := legAccounts (Accrual_Account a) p in
       let share := fun i : nat => if (i =? 0)%nat then Add q r else q in
       sumQc (imap (fun i _ => share i) dates) = toQc (Amount p)
       /\ txs ≫= Postings
          = (if decide (crM <> drM) then
               imap (fun i _ => NewPosting crM drM (Posting_Commodity p)
                                  (share i)) dates
             else [])
            ++ (if decide (crS <> drS) then
                  [NewPosting crS drS (Posting_Commodity p) (Amount p)]
                else [])
       /\ Transaction_Date <$> txs
          = (if decide (crM <> drM) then dates else [])
            ++ (if decide (crS <> drS)
                then [Transaction_Date (Accrual_Transaction a)] else [])
       /\ (IsNegative (Amount p) = false ->
           txs ≫= postingAmounts
           = (if decide (crM <> drM) then imap (fun i _ => share i) dates
              else [])
             ++ (if decide (crS <> drS) then [Amount p] else [])
           /\ sumQc (txs ≫= postingAmounts)
              = ((if decide (crM <> drM) then toQc (Amount p) else 0)
                 + (if decide (crS <> drS) then toQc (Amount p) else 0))%Qc).
Proof.
  intros Hp Hs Hd.
  destruct (Expand_postings a p rest first dates Hp Hs Hd)
    as (q & r & txs & Hq & Hex & Hrest).
  assert (0 < length dates)%nat as Hlen by (destruct dates; [done | simpl; lia]).
  pose proof (QuoRem_exact _ _ _ _ _ Hq) as Hexact.
  rewrite toQc_NewFromInt in Hexact.
  assert (toQc (Amount p)
          = (Qc_of_Z (Z.of_nat (length dates)) * toQc q + toQc r)%Qc) as HA
    by (rewrite Hexact; ring).
  exists q, r, txs. split; [done|]. split; [done|]. split; [exact Hex|].
  destruct (legAccounts (Accrual_Account a) p) as [[[crS drS] crM] drM].
  destruct Hrest as [Hpostings Hdates]. cbv zeta.
  assert (sumQc (imap (fun i _ => if (i =? 0)%nat then Add q r else q) dates)
          = toQc (Amount p)) as Hsum
    by (rewrite sumQc_shares by done; by rewrite HA).
  split; [exact Hsum|]. split; [exact Hpostings|]. split; [exact Hdates|].
  intros Hneg.
  destruct (shares_nonneg p _ q r Hneg Hlen Hq) as [Hq0 Hqr0].
  assert (txs ≫= postingAmounts
          = (if decide (crM <> drM)
             then imap (fun i _ => if (i =? 0)%nat then Add q r else q) dates
             else [])
            ++ (if decide (crS <> drS) then [Amount p] else [])) as Hamounts.
  { rewrite bind_postingAmounts, Hpostings, fmap_app. f_equal.
    - destruct (decide (crM <> drM)); [|done].
      rewrite fmap_imap_compose. apply imap_ext. intros i x _.
      rewrite NewPosting_nonneg; [done | by destruct (i =? 0)%nat].
    - destruct (decide (crS <> drS)); [|done].
      simpl. by rewrite NewPosting_nonneg. }
  split; [exact Hamounts|].
  rewrite Hamounts, sumQc_app. f_equal.
  - by destruct (decide (crM <> drM)).
  - destruct (decide (crS <> drS)); [|done]. simpl. ring.
Qed.

(** C5 (as amended).  With [C], [D] the credit and debit account of the
    template posting and [S] the account of the accrual: if [C] is
    assets/liabilities and [D] income/expenses, the single leg is
    [(C, S)] and the multi legs are [(S, D)]; if [C] is income/expenses
    and [D] assets/liabilities, the multi legs are [(C, S)] and the single
    leg is [(S, D)]; if both are income/expenses, the multi legs are
    [(C, D)] and the single leg is [(S, S)]; otherwise the single leg is
    [(C, D)] and the multi legs are [(S, S)].  A leg whose two accounts
    are equal yields no transaction; every other multi leg yields one
    posting per date and the single leg one posting, in this order, each
    built by [NewPosting] from the accounts of the leg; for a non-negative
    template amount the credit and debit accounts of these postings are
    exactly those of the leg. *)
Theorem Expand_leg_accounts a p rest first dates :
  Postings (Accrual_Transaction a) = p :: rest ->
  Series (T0 a) (T1 a) (Accrual_Period a) = first :: dates ->
  dates <> [] ->
  let C := Credit p in
  let D := Debit p in
  let S := Accrual_Account a in
  exists (single multi : Account * Account) q r txs,
    (isAL C = true -> isIE D = true -> single = (C, S) /\ multi = (S, D))
    /\ (isIE C = true -> isAL D = true -> multi = (C, S) /\ single = (S, D))
    /\ (isIE C = true -> isIE D = true -> multi = (C, D) /\ single = (S, S))
    /\ (isAL C && isIE D = false -> isIE C && isAL D = false ->
        isIE C && isIE D = false -> single = (C, D) /\ multi = (S, S))
    /\ QuoRem (Amount p) (NewFromInt (Z.of_nat (length dates))) 1 = Some (q, r)
    /\ Expand Series a = Some txs
    /\ txs ≫= Postings
       = (if decide (multi.1 = multi.2) then []
          else imap (fun i _ => NewPosting multi.1 multi.2 (Posting_Commodity p)
                                  (if (i =? 0)%nat then Add q r else q)) dates)
         ++ (if decide (single.1 = single.2) then []
             else [NewPosting single.1 single.2 (Posting_Commodity p)
                     (Amount p)])
    /\ (IsNegative (Amount p) = false ->
        txs ≫= postingAccounts
        = (if decide (multi.1 = multi.2) then []
           else replicate (length dates) multi)
          ++ (if decide (single.1 = single.2) then [] else [single])).
Proof.
  intros Hp Hs Hd C D S.
  destruct (Expand_postings a p rest first dates Hp Hs Hd)
    as (q & r & txs & Hq & Hex & Hrest).
  assert (0 < length dates)%nat as Hlen by (destruct dates; [done | simpl; lia]).
  destruct (legAccounts (Accrual_Account a) p) as [[[crS drS] crM] drM] eqn:Hlegs.
  destruct Hrest as [Hpostings _].
  exists (crS, drS), (crM, drM), q, r, txs.
  unfold legAccounts in Hlegs. fold C D S in Hlegs.
  assert (isAL C = true -> isIE C = true -> False) as Hexcl.
  { unfold isAL, isIE. destruct (Account_Type C); simpl; done. }
  assert (isAL D = true -> isIE D = true -> False) as HexclD.
  { unfold isAL, isIE. destruct (Account_Type D); simpl; done. }
  assert (txs ≫= Postings
          = (if decide (crM = drM) then []
             else imap (fun i _ => NewPosting crM drM (Posting_Commodity p)
                                     (if (i =? 0)%nat then Add q r else q)) dates)
            ++ (if decide (crS = drS) then []
                else [NewPosting crS drS (Posting_Commodity p) (Amount p)]))
    as Hpostings'.
  { rewrite Hpostings. f_equal.
    - by destruct (decide (crM <> drM)), (decide (crM = drM)).
    - by destruct (decide (crS <> drS)), (decide (crS = drS)). }
  split_and!.
  - intros H1 H2. rewrite H1, H2 in Hlegs. simpl in Hlegs. by simplify_eq.
  - intros H1 H2. rewrite H1, H2 in Hlegs.
    destruct (isAL C) eqn:?, (isIE D) eqn:?; simpl in Hlegs;
      try (exfalso; by eauto); by simplify_eq.
  - intros H1 H2. rewrite H1, H2 in Hlegs.
    destruct (isAL C) eqn:?, (isAL D) eqn:?; simpl in Hlegs;
      try (exfalso; by eauto); by simplify_eq.
  - intros H1 H2 H3. rewrite H1, H2, H3 in Hlegs. by simplify_eq.
  - exact Hq.
  - exact Hex.
  - exact Hpostings'.
  - intros Hneg.
    destruct (shares_nonneg p _ q r Hneg Hlen Hq) as [Hq0 Hqr0].
    rewrite bind_postingAccounts, Hpostings', fmap_app. cbn [fst snd]. f_equal.
    + destruct (decide (crM = drM)); [done|].
      rewrite fmap_imap_compose. apply imap_const_replicate. intros i x.
      rewrite NewPosting_nonneg; [done | by destruct (i =? 0)%nat].
    + destruct (decide (crS = drS)); [done|].
      simpl. by rewrite NewPosting_nonneg.
Qed.

End Expand.

(** Two rationals are equal as soon as they are equivalent fractions. *)
Lemma Qc_eq_by_value (x y : Qc) : (this x == this y)%Q -> x = y.
Proof. apply Qc_is_canon. Qed.

(** Rent of 100 accrued over three dates: the shares are [q + r], [q],
    [q], followed by the single leg of 100. *)
Lemma Expand_amounts_witness :
  (Postings (Accrual_Transaction rentAccrual) = [posting100 bank rent]
   /\ quarter (T0 rentAccrual) (T1 rentAccrual) (Accrual_Period rentAccrual)
      = 738885 :: [738916; 738944; 738975]
   /\ [738916; 738944; 738975] <> []
   /\ IsNegative (Amount (posting100 bank rent)) = false)
  /\ exists q r txs,
      QuoRem (mkDecimal 100 0) (NewFromInt 3) 1 = Some (q, r)
      /\ Expand quarter rentAccrual = Some txs
      /\ txs ≫= postingAmounts = [Add q r; q; q; mkDecimal 100 0].
Proof.
  split; [split_and!; [reflexivity | reflexivity | discriminate | reflexivity]|].
  destruct (Expand_amounts quarter rentAccrual (posting100 bank rent) []
              738885 [738916; 738944; 738975] eq_refl eq_refl
              ltac:(discriminate))
    as (q & r & txs & Hq & _ & Hex & _ & _ & _ & Hnonneg).
  exists q, r, txs. split; [exact Hq|]. split; [exact Hex|].
  exact (proj1 (Hnonneg eq_refl)).
Defined.

(** C2, the claim as stated fails: for rent paid from the bank and accrued
    through the prepaid account over three dates, the expanded
    transactions carry 33.4, 33.3, 33.3 and 100, which sum to 200 and not
    to the template amount 100. *)
Lemma Expand_total_is_not_template_amount :
  exists txs,
    Expand quarter rentAccrual = Some txs
    /\ txs ≫= postingAmounts
       = [mkDecimal 334 (-1); mkDecimal 333 (-1); mkDecimal 333 (-1);
          mkDecimal 100 0]
    /\ sumQc (txs ≫= postingAmounts) = Qc_of_Z 200
    /\ toQc (Amount (posting100 bank rent)) = Qc_of_Z 100
    /\ sumQc (txs ≫= postingAmounts) <> toQc (Amount (posting100 bank rent)).
Proof.
  eexists. split; [vm_compute; reflexivity|].
  split; [reflexivity|].
  assert (forall x y : Qc, (this x == this y)%Q -> x = y) as Heq
    by apply Qc_eq_by_value.
  split; [apply Heq; vm_compute; reflexivity|].
  split; [apply Heq; vm_compute; reflexivity|].
  intros H. apply (f_equal this) in H. vm_compute in H. discriminate H.
Qed.

(** Credit on assets, debit on expenses: three multi legs from the split
    account to the debit account, then the single leg from the credit
    account to the split account. *)
Lemma Expand_leg_accounts_witness :
  (Postings (Accrual_Transaction rentAccrual) = [posting100 bank rent]
   /\ quarter (T0 rentAccrual) (T1 rentAccrual) (Accrual_Period rentAccrual)
      = 738885 :: [738916; 738944; 738975]
   /\ [738916; 738944; 738975] <> []
   /\ IsNegative (Amount (posting100 bank rent)) = false)
  /\ exists txs,
      Expand quarter rentAccrual = Some txs
      /\ txs ≫= postingAccounts
         = [(prepaid, rent); (prepaid, rent); (prepaid, rent); (bank, prepaid)].
Proof.
  split; [split_and!; [reflexivity | reflexivity | discriminate | reflexivity]|].
  destruct (Expand_leg_accounts quarter rentAccrual (posting100 bank rent) []
              738885 [738916; 738944; 738975] eq_refl eq_refl
              ltac:(discriminate))
    as (single & multi & q & r & txs & H1 & _ & _ & _ & _ & Hex & _ & Hlegs).
  destruct (H1 eq_refl eq_refl) as [-> ->].
  exists txs. split; [exact Hex | exact (Hlegs eq_refl)].
Defined.

(** C5, the claim as stated fails when both accounts are income/expenses:
    the multi legs run from the credit to the debit account of the
    template, the split account occurs in no posting, and there is no
    single leg. *)
Lemma Expand_both_income_expenses_ignores_split_account :
  isIE (Credit (posting100 salary rent)) = true
  /\ isIE (Debit (posting100 salary rent)) = true
  /\ Accrual_Account reclassAccrual = prepaid
  /\ exists txs,
      Expand quarter reclassAccrual = Some txs
      /\ txs ≫= postingAccounts
         = [(salary, rent); (salary, rent); (salary, rent)]
      /\ Forall (fun leg => leg.1 <> prepaid /\ leg.2 <> prepaid)
           (txs ≫= postingAccounts).
Proof.
  split_and!; [reflexivity..|].
  eexists. split; [vm_compute; reflexivity|].
  split; [reflexivity|].
  repeat constructor; discriminate.
Qed.

(** C6.  [NewPosting] with a negative amount returns exactly the posting
    built from the swapped accounts and the negated amount, and the
    amount of the posting it returns is never negative. *)
Theorem NewPosting_normalizes cr dr c amt :
  (IsNegative amt = true ->
   NewPosting cr dr c amt = NewPosting dr cr c (Neg amt)
   /\ NewPosting cr dr c amt = mkPosting (Neg amt) Zero dr cr c None)
  /\ IsNegative (Amount (NewPosting cr dr c amt)) = false
  /\ (0 <= toQc (Amount (NewPosting cr dr c amt)))%Qc.
Proof.
  assert (IsNegative amt = true -> IsNegative (Neg amt) = false) as Hflip.
  { intros H. apply IsNegative_spec in H. apply IsNegative_false. simpl. lia. }
  assert (IsNegative (Amount (NewPosting cr dr c amt)) = false) as Hnn.
  { unfold NewPosting. destruct (IsNegative amt) eqn:H; simpl; auto. }
  split_and!.
  - intros H. unfold NewPosting. rewrite H, (Hflip H). done.
  - exact Hnn.
  - by apply toQc_nonneg, IsNegative_false.
Qed.

(** A posting of -1.25 from the bank to rent is the posting of 1.25 from
    rent to the bank. *)
Lemma NewPosting_normalizes_witness :
  IsNegative (mkDecimal (-125) (-2)) = true
  /\ NewPosting bank rent USD (mkDecimal (-125) (-2))
     = NewPosting rent bank USD (Neg (mkDecimal (-125) (-2)))
  /\ NewPosting bank rent USD (mkDecimal (-125) (-2))
     = mkPosting (mkDecimal 125 (-2)) Zero rent bank USD None.
Proof.
  split; [reflexivity|].
  apply (proj1 (NewPosting_normalizes bank rent USD (mkDecimal (-125) (-2)))).
  reflexivity.
Defined.

(** [MinDate] scans the days in order. *)
Lemma MinDate_loop_cons s days :
  MinDate_loop (s :: days)
  = match Day_Openings s with
    | [] => MinDate_loop days
    | _ :: _ => Some (Day_Date s)
    end.
Proof. simpl. by destruct (Day_Openings s). Qed.

Lemma MinDate_loop_None days :
  MinDate_loop days = None <-> Forall (fun s => Day_Openings s = []) days.
Proof.
  induction days as [|s days IH].
  - split; [constructor | done].
  - rewrite MinDate_loop_cons. destruct (Day_Openings s) as [|o os] eqn:Ho.
    + rewrite IH. split; [by constructor | by inversion 1].
    + split; [done | inversion 1; congruence].
Qed.

Lemma MinDate_loop_Some days d :
  MinDate_loop days = Some d <->
  exists pre s post,
    days = pre ++ s :: post
    /\ Forall (fun x => Day_Openings x = []) pre
    /\ Day_Openings s <> []
    /\ Day_Date s = d.
Proof.
  induction days as [|s days IH].
  - split; [done | intros (pre & s & post & H & _)]. by destruct pre.
  - rewrite MinDate_loop_cons. destruct (Day_Openings s) as [|o os] eqn:Ho.
    + rewrite IH. split.
      * intros (pre & s' & post & -> & Hpre & Hs & Hd).
        exists (s :: pre), s', post. split_and!; [done | by constructor | done..].
      * intros (pre & s' & post & Heq & Hpre & Hs & Hd).
        destruct pre as [|x pre]; simplify_eq/=.
        inversion Hpre; subst. by exists pre, s', post.
    + split.
      * intros [= <-]. exists [], s, days. split_and!; [done | constructor | | done].
        by rewrite Ho.
      * intros (pre & s' & post & Heq & Hpre & Hs & Hd).
        destruct pre as [|x pre]; simplify_eq/=; [done|].
        inversion Hpre; congruence.
Qed.

(** C10.  [MinDate] returns the date of the first day record that holds
    at least one opening, and reports absence exactly when no day holds
    one; hence for a ledger without openings and without an explicit
    from-date, [Dates] returns the nil slice, whatever the to-date and
    the period. *)
Theorem MinDate_first_opening (Series : Z -> Z -> Period -> list Z) l :
  (forall d,
     MinDate l = Some d <->
     exists pre s post,
       Days l = pre ++ s :: post
       /\ Forall (fun x => Day_Openings x = []) pre
       /\ Day_Openings s <> []
       /\ Day_Date s = d)
  /\ (MinDate l = None <-> Forall (fun s => Day_Openings s = []) (Days l))
  /\ (Forall (fun s => Day_Openings s = []) (Days l) ->
      forall to period, Dates Series l None to period = []).
Proof.
  split_and!.
  - intros d. apply MinDate_loop_Some.
  - apply MinDate_loop_None.
  - intros H to period. apply MinDate_loop_None in H.
    unfold Dates, MinDate. by rewrite H.
Qed.

(** A ledger of transactions, prices and closings only has no dates. *)
Lemma MinDate_first_opening_witness :
  Forall (fun s => Day_Openings s = []) (Days noOpenings)
  /\ Dates quarter noOpenings None (Some 738975) Monthly = []
  /\ Dates quarter noOpenings None None Monthly = [].
Proof.
  assert (Forall (fun s => Day_Openings s = []) (Days noOpenings)) as H
    by (repeat constructor).
  split; [exact H|].
  split; apply (proj2 (proj2 (MinDate_first_opening quarter noOpenings))), H.
Defined.

End ledger_facts.

(* ===================================================================== *)
(** * Balance: the order on positions *)
(* ===================================================================== *)

Module balance_facts.
Import decimal ledger balance decimal_facts examples.

Lemma AccountType_rank_inj t u :
  AccountType_rank t = AccountType_rank u -> t = u.
Proof. by destruct t, u. Qed.

Lemma string_ltb_compare s t : String.ltb s t = true <-> String.compare s t = Lt.
Proof. unfold String.ltb. by destruct (String.compare s t). Qed.

Lemma string_ltb_irrefl s : String.ltb s s = false.
Proof.
  unfold String.ltb.
  pose proof (String.compare_antisym s s) as H.
  by destruct (String.compare s s).
Qed.

(** Of two different strings exactly one is less than the other. *)
Lemma string_ltb_total s t :
  s <> t ->
  (String.ltb s t = true /\ String.ltb t s = false)
  \/ (String.ltb s t = false /\ String.ltb t s = true).
Proof.
  intros Hne. unfold String.ltb.
  pose proof (String.compare_antisym s t) as Ha.
  pose proof (String.compare_eq_iff s t) as He.
  destruct (String.compare s t), (String.compare t s); simpl in Ha;
    try discriminate; auto.
  exfalso. by apply Hne, He.
Qed.

Lemma string_ltb_trans s t u :
  String.ltb s t = true -> String.ltb t u = true -> String.ltb s u = true.
Proof.
  rewrite !string_ltb_compare. change String.compare with String_as_OT.cmp.
  rewrite !String_as_OT.cmp_lt. apply String_as_OT.lt_trans.
Qed.

(** [Less] spelled out as the lexicographic order on the triple. *)
Lemma Less_iff (p q : CommodityAccount) :
  Less p q = true <->
  AccountType_rank (Account_Type (CA_Account p))
  < AccountType_rank (Account_Type (CA_Account q))
  \/ (Account_Type (CA_Account p) = Account_Type (CA_Account q)
      /\ String.ltb (Account_String (CA_Account p))
           (Account_String (CA_Account q)) = true)
  \/ (Account_Type (CA_Account p) = Account_Type (CA_Account q)
      /\ Account_String (CA_Account p) = Account_String (CA_Account q)
      /\ String.ltb (Commodity_String (CA_Commodity p))
           (Commodity_String (CA_Commodity q)) = true).
Proof.
  unfold Less.
  set (tp := Account_Type (CA_Account p)). set (tq := Account_Type (CA_Account q)).
  set (np := Account_String (CA_Account p)).
  set (nq := Account_String (CA_Account q)).
  destruct (Z.eqb_spec (AccountType_rank tp) (AccountType_rank tq)) as [Ht|Ht];
    simpl.
  - apply AccountType_rank_inj in Ht as Ht'.
    destruct (String.eqb_spec np nq) as [Hn|Hn]; simpl.
    + split; [by auto|]. intros [?|[[_ H]|(_ & _ & H)]]; [lia| |done].
      rewrite Hn in H. by rewrite string_ltb_irrefl in H.
    + split; [by auto|]. intros [?|[[_ H]|(_ & ? & _)]]; [lia|done|done].
  - rewrite Z.ltb_lt. split; [by auto|].
    intros [?|[[H _]|(H & _)]]; [done|by rewrite H in Ht..].
Qed.

Lemma Less_irrefl (p : CommodityAccount) : Less p p = false.
Proof.
  unfold Less. rewrite Z.eqb_refl, String.eqb_refl. simpl.
  apply string_ltb_irrefl.
Qed.

Lemma Less_trans (p q r : CommodityAccount) :
  Less p q = true -> Less q r = true -> Less p r = true.
Proof.
  rewrite !Less_iff.
  intros [H1|[[E1 H1]|(E1 & F1 & H1)]] [H2|[[E2 H2]|(E2 & F2 & H2)]];
    try (left; congruence || lia);
    try (left; rewrite ?E1, <- ?E2; done).
  - right; left. split; [congruence|]. by eapply string_ltb_trans.
  - right; left. split; [congruence|]. by rewrite <- F2.
  - right; left. split; [congruence|]. by rewrite F1.
  - right; right. split_and!; [congruence..|]. by eapply string_ltb_trans.
Qed.

Lemma Less_total (p q : CommodityAccount) :
  (Account_Type (CA_Account p), Account_String (CA_Account p),
   Commodity_String (CA_Commodity p))
  <> (Account_Type (CA_Account q), Account_String (CA_Account q),
      Commodity_String (CA_Commodity q)) ->
  (Less p q = true /\ Less q p = false)
  \/ (Less p q = false /\ Less q p = true).
Proof.
  intros Hne. unfold Less.
  set (tp := Account_Type (CA_Account p)) in *.
  set (tq := Account_Type (CA_Account q)) in *.
  set (np := Account_String (CA_Account p)) in *.
  set (nq := Account_String (CA_Account q)) in *.
  rewrite (Z.eqb_sym (AccountType_rank tq)), (String.eqb_sym nq).
  destruct (Z.eqb_spec (AccountType_rank tp) (AccountType_rank tq)) as [Ht|Ht];
    simpl.
  - apply AccountType_rank_inj in Ht as Ht'.
    destruct (String.eqb_spec np nq) as [Hn|Hn]; simpl.
    + apply string_ltb_total. intros Hc. apply Hne. by rewrite Ht', Hn, Hc.
    + by apply string_ltb_total.
  - destruct (Z.ltb_spec (AccountType_rank tp) (AccountType_rank tq)),
      (Z.ltb_spec (AccountType_rank tq) (AccountType_rank tp)); auto; lia.
Qed.

(** C8.  [Less] is the strict lexicographic order on (account type,
    account name, commodity code): [Less p q] holds iff the type of [p]
    precedes that of [q], or the types are equal and the name of [p] is
    string-less than that of [q], or types and names are equal and the
    commodity code of [p] is string-less than that of [q].  It is
    irreflexive and transitive, and of two keys with distinct triples
    exactly one is less than the other: a strict total order on position
    keys. *)
Theorem Less_lexicographic (p q : CommodityAccount) :
  let tp := Account_Type (CA_Account p) in
  let tq := Account_Type (CA_Account q) in
  let np := Account_String (CA_Account p) in
  let nq := Account_String (CA_Account q) in
  let cp := Commodity_String (CA_Commodity p) in
  let cq := Commodity_String (CA_Commodity q) in
  (Less p q = true <->
   AccountType_rank tp < AccountType_rank tq
   \/ (tp = tq /\ String.ltb np nq = true)
   \/ (tp = tq /\ np = nq /\ String.ltb cp cq = true))
  /\ Less p p = false
  /\ (forall r, Less p q = true -> Less q r = true -> Less p r = true)
  /\ ((tp, np, cp) <> (tq, nq, cq) ->
      (Less p q = true /\ Less q p = false)
      \/ (Less p q = false /\ Less q p = true)).
Proof.
  intros tp tq np nq cp cq. split_and!.
  - apply Less_iff.
  - apply Less_irrefl.
  - intros r. apply Less_trans.
  - apply Less_total.
Qed.

(** The bank account in CHF comes before the bank account in USD. *)
Lemma Less_lexicographic_witness :
  (Account_Type bank, Account_String bank, Commodity_String CHF)
  <> (Account_Type bank, Account_String bank, Commodity_String USD)
  /\ Less (mkCommodityAccount bank CHF) (mkCommodityAccount bank USD) = true
  /\ Less (mkCommodityAccount bank USD) (mkCommodityAccount bank CHF) = false.
Proof.
  split; [discriminate|].
  destruct (Less_lexicographic (mkCommodityAccount bank CHF)
              (mkCommodityAccount bank USD)) as (_ & _ & _ & Htotal).
  destruct Htotal as [H|[H _]]; [discriminate | exact H | discriminate H].
Defined.

(* ===================================================================== *)
(** * Balance: booking *)
(* ===================================================================== *)

Lemma lookup_total_None (m : gmap CommodityAccount Decimal) pos :
  m !! pos = None -> m !!! pos = Zero.
Proof. intros H. by rewrite lookup_total_alt, H. Qed.

Lemma lookup_total_Some (m : gmap CommodityAccount Decimal) pos v :
  m !! pos = Some v -> m !!! pos = v.
Proof. intros H. by rewrite lookup_total_alt, H. Qed.

Lemma contribution_Zero pos c : contribution pos Zero c = 0%Qc.
Proof. unfold contribution. case_decide; [apply toQc_Zero | done]. Qed.

Lemma commoditySum_empty c : commoditySum ∅ c = 0%Qc.
Proof. unfold commoditySum. apply map_fold_empty. Qed.

Lemma commoditySum_insert_fresh (m : gmap CommodityAccount Decimal) pos v c :
  m !! pos = None ->
  commoditySum (<[pos := v]> m) c
  = (contribution pos v c + commoditySum m c)%Qc.
Proof.
  intros Hfresh. unfold commoditySum.
  rewrite map_fold_insert_L; [done | | done].
  intros. ring.
Qed.

(** Writing an entry moves the sum of a commodity by the difference of
    the contributions of the new and of the old entry. *)
Lemma commoditySum_insert (m : gmap CommodityAccount Decimal) pos v c :
  commoditySum (<[pos := v]> m) c
  = (commoditySum m c - contribution pos (m !!! pos) c
     + contribution pos v c)%Qc.
Proof.
  destruct (m !! pos) as [old|] eqn:Hold.
  - rewrite (lookup_total_Some _ _ _ Hold).
    rewrite <- (insert_delete_id m pos old Hold) at 2.
    rewrite <- (insert_delete_eq m).
    rewrite !commoditySum_insert_fresh by apply lookup_delete_eq. ring.
  - rewrite (lookup_total_None _ _ Hold), contribution_Zero.
    rewrite commoditySum_insert_fresh by done. ring.
Qed.

Lemma effect_linear cr dr c (x y : Qc) pos :
  effect cr dr c (x + y) pos = (effect cr dr c x pos + effect cr dr c y pos)%Qc.
Proof. unfold effect. repeat case_decide; ring. Qed.

Lemma effect_zero cr dr c pos : effect cr dr c 0 pos = 0%Qc.
Proof. unfold effect. repeat case_decide; ring. Qed.

Lemma effect_same a c x pos : effect a a c x pos = 0%Qc.
Proof. unfold effect. repeat case_decide; ring. Qed.

Lemma effect_swap cr dr c x pos :
  effect dr cr c (- x) pos = effect cr dr c x pos.
Proof. unfold effect. repeat case_decide; ring. Qed.

Lemma effect_chain a s d c x pos :
  (effect a s c x pos + effect s d c x pos)%Qc = effect a d c x pos.
Proof. unfold effect. repeat case_decide; ring. Qed.

Lemma netEffect_app ps1 ps2 pos :
  netEffect (ps1 ++ ps2) pos = (netEffect ps1 pos + netEffect ps2 pos)%Qc.
Proof. induction ps1 as [|p ps1 IH]; simpl; [ring | rewrite IH; ring]. Qed.

(** A posting built by [NewPosting] has the effect of the amount it was
    given, whatever its sign. *)
Lemma netEffect_NewPosting cr dr c amt pos :
  netEffect [NewPosting cr dr c amt] pos = effect cr dr c (toQc amt) pos.
Proof.
  unfold NewPosting. destruct (IsNegative amt); simpl.
  - rewrite toQc_Neg, effect_swap. ring.
  - ring.
Qed.

Lemma netEffect_Permutation ps1 ps2 pos :
  ps1 ≡ₚ ps2 -> netEffect ps1 pos = netEffect ps2 pos.
Proof.
  induction 1 as [|p ps1 ps2 _ IH|p q ps|ps1 ps2 ps3 _ IH1 _ IH2]; simpl.
  - done.
  - by rewrite IH.
  - ring.
  - by rewrite IH1.
Qed.

Section Booking.

Context {Accounts : Type}.
Variable IsOpen : Accounts -> Account -> bool.

Implicit Types b : @Balance Accounts.

Lemma Book_Accounts b cr dr a c :
  Balance_Accounts (Book b cr dr a c) = Balance_Accounts b.
Proof. done. Qed.

(** [Book] subtracts [a] from the entry [(cr, c)] and adds [a] to the entry
    [(dr, c)]; every other entry keeps its value. *)
Lemma Book_lookup b cr dr a c pos :
  toQc (Amounts (Book b cr dr a c) !!! pos)
  = (toQc (Amounts b !!! pos)
     - (if decide (pos = mkCommodityAccount cr c) then toQc a else 0)
     + (if decide (pos = mkCommodityAccount dr c) then toQc a else 0))%Qc.
Proof.
  unfold Book. cbn [Amounts setAmounts].
  set (crPos := mkCommodityAccount cr c). set (drPos := mkCommodityAccount dr c).
  destruct (decide (pos = drPos)) as [->|Hdr].
  - rewrite lookup_total_insert_eq, toQc_Add.
    destruct (decide (drPos = crPos)) as [->|Hcr].
    + rewrite lookup_total_insert_eq, toQc_Sub. ring.
    + rewrite lookup_total_insert_ne by done. ring.
  - rewrite lookup_total_insert_ne by done.
    destruct (decide (pos = crPos)) as [->|Hcr].
    + rewrite lookup_total_insert_eq, toQc_Sub. ring.
    + rewrite lookup_total_insert_ne by done. ring.
Qed.

(** [Book] leaves the sum of every commodity as it was. *)
Lemma Book_commoditySum b cr dr a c c' :
  commoditySum (Amounts (Book b cr dr a c)) c' = commoditySum (Amounts b) c'.
Proof.
  unfold Book. cbn [Amounts setAmounts].
  set (crPos := mkCommodityAccount cr c). set (drPos := mkCommodityAccount dr c).
  rewrite !commoditySum_insert.
  unfold contribution. cbn [CA_Commodity crPos drPos].
  destruct (decide (c = c')) as [_|_]; [|ring].
  rewrite toQc_Add, toQc_Sub. ring.
Qed.

Lemma Book_effect b cr dr a c pos :
  toQc (Amounts (Book b cr dr a c) !!! pos)
  = (toQc (Amounts b !!! pos) + effect cr dr c (toQc a) pos)%Qc.
Proof. rewrite Book_lookup. unfold effect. ring. Qed.

(** Booking a list of postings adds their net effect to every entry. *)
Lemma foldl_bookPosting_lookup ps b pos :
  toQc (Amounts (foldl bookPosting b ps) !!! pos)
  = (toQc (Amounts b !!! pos) + netEffect ps pos)%Qc.
Proof.
  revert b. induction ps as [|p ps IH]; intros b; simpl; [ring|].
  rewrite IH. unfold bookPosting. rewrite Book_effect. ring.
Qed.

(** Booking a list of postings leaves everything but the amounts as it
    is, and the amounts have an entry where they had one and at the two
    positions of every posting. *)
Lemma foldl_bookPosting_frame ps b :
  Values (foldl bookPosting b ps) = Values b
  /\ Balance_Accounts (foldl bookPosting b ps) = Balance_Accounts b
  /\ Balance_Date (foldl bookPosting b ps) = Balance_Date b
  /\ Valuation (foldl bookPosting b ps) = Valuation b
  /\ dom (Amounts (foldl bookPosting b ps))
     = dom (Amounts b) ∪ list_to_set (ps ≫= postingPositions).
Proof.
  revert b. induction ps as [|p ps IH]; intros b.
  - split_and!; [done..|]. apply set_eq. intros pos.
    rewrite elem_of_union, elem_of_list_to_set, list_elem_of_bind.
    split; [by left|]. intros [?|(q & _ & Hq)]; [done|].
    by apply elem_of_nil in Hq.
  - cbn [foldl]. destruct (IH (bookPosting b p)) as (-> & -> & -> & -> & ->).
    split_and!; [done..|].
    unfold bookPosting, Book. cbn [setAmounts Amounts].
    rewrite !dom_insert_L. apply set_eq. intros pos.
    rewrite !elem_of_union, !elem_of_singleton, !elem_of_list_to_set.
    change ((p :: ps) ≫= postingPositions)
      with (postingPositions p ++ (ps ≫= postingPositions)).
    rewrite elem_of_app. unfold postingPositions at 2.
    rewrite !elem_of_cons, elem_of_nil. tauto.
Qed.

Lemma BookAmount_loop_commoditySum t postings b c :
  commoditySum (Amounts (BookAmount_loop IsOpen t postings b).1) c
  = commoditySum (Amounts b) c.
Proof.
  revert b. induction postings as [|p postings IH]; intros b; [done|].
  cbn [BookAmount_loop].
  destruct (IsOpen (Balance_Accounts b) (Credit p)); [|done].
  destruct (IsOpen (Balance_Accounts b) (Debit p)); [|done].
  cbn [negb]. by rewrite IH, Book_commoditySum.
Qed.

Lemma BookTransactions_commoditySum ts b c :
  commoditySum (Amounts (BookTransactions IsOpen b ts).1) c
  = commoditySum (Amounts b) c.
Proof.
  revert b. induction ts as [|t ts IH]; intros b; [done|].
  cbn [BookTransactions].
  pose proof (BookAmount_loop_commoditySum t (Postings t) b c) as Ht.
  fold (BookAmount IsOpen b t) in Ht.
  destruct (BookAmount IsOpen b t) as [b' [err|]]; cbn [fst] in *; [done|].
  by rewrite IH.
Qed.

(** C1.  [Book] subtracts [a] from the amounts entry [(cr, c)] and adds
    [a] to the entry [(dr, c)], so the sum over all accounts of every
    commodity is unchanged by it; hence, for a balance whose sum is zero
    for every commodity, the sum is still zero for every commodity after
    booking every posting of every transaction of a day (whether or not
    the booking stops at an account that is not open). *)
Theorem booking_preserves_equilibrium b :
  (forall cr dr a c pos,
     toQc (Amounts (Book b cr dr a c) !!! pos)
     = (toQc (Amounts b !!! pos)
        - (if decide (pos = mkCommodityAccount cr c) then toQc a else 0)
        + (if decide (pos = mkCommodityAccount dr c) then toQc a else 0))%Qc)
  /\ (forall t c,
        commoditySum (Amounts (BookAmount IsOpen b t).1) c
        = commoditySum (Amounts b) c)
  /\ ((forall c, commoditySum (Amounts b) c = 0%Qc) ->
      forall ts c,
        commoditySum (Amounts (BookTransactions IsOpen b ts).1) c = 0%Qc).
Proof.
  split_and!.
  - intros. apply Book_lookup.
  - intros t c. apply BookAmount_loop_commoditySum.
  - intros Hzero ts c. by rewrite BookTransactions_commoditySum.
Qed.

Lemma BookAmount_loop_open t postings b :
  Forall (fun p => bothOpen IsOpen b p = true) postings ->
  BookAmount_loop IsOpen t postings b = (foldl bookPosting b postings, None).
Proof.
  revert b. induction postings as [|p postings IH]; intros b Hall; [done|].
  apply Forall_cons in Hall as [Hp Hrest].
  unfold bothOpen in Hp. apply andb_true_iff in Hp as [Hc Hd].
  cbn [BookAmount_loop foldl]. rewrite Hc, Hd. cbn [negb].
  apply IH. eapply Forall_impl; [exact Hrest|].
  intros q Hq. exact Hq.
Qed.

(** The loop stops at the first posting with an account that is not
    open, having booked the postings before it. *)
Lemma BookAmount_loop_stops t pre p post b :
  Forall (fun p => bothOpen IsOpen b p = true) pre ->
  bothOpen IsOpen b p = false ->
  exists e,
    BookAmount_loop IsOpen t (pre ++ p :: post) b
    = (foldl bookPosting b pre, Some e)
    /\ directive e = t.
Proof.
  revert b. induction pre as [|p0 pre IH]; intros b Hall Hp.
  - cbn [app BookAmount_loop foldl]. unfold bothOpen in Hp.
    destruct (IsOpen (Balance_Accounts b) (Credit p)); cbn [negb].
    + cbn [andb] in Hp. rewrite Hp. cbn [negb]. by eexists.
    + by eexists.
  - apply Forall_cons in Hall as [Hp0 Hrest].
    unfold bothOpen in Hp0. apply andb_true_iff in Hp0 as [Hc Hd].
    cbn [app BookAmount_loop foldl]. rewrite Hc, Hd. cbn [negb].
    apply IH; [|exact Hp].
    eapply Forall_impl; [exact Hrest|].
    intros q Hq. exact Hq.
Qed.

(** A list either satisfies a boolean test everywhere or splits at the
    first element that fails it. *)
Lemma first_failure {A} (f : A -> bool) (l : list A) :
  Forall (fun x => f x = true) l
  \/ exists pre x post,
       l = pre ++ x :: post
       /\ Forall (fun x => f x = true) pre /\ f x = false.
Proof.
  induction l as [|x l IH]; [left; constructor|].
  destruct (f x) eqn:Hx.
  - destruct IH as [IH|(pre & y & post & -> & Hpre & Hy)].
    + left. by constructor.
    + right. exists (x :: pre), y, post. split_and!; [done | by constructor | done].
  - right. exists [], x, l. split_and!; [done | constructor | done].
Qed.

(** C3.  [BookAmount] returns an error iff some posting of the
    transaction has a credit or a debit account that is not open; the
    error names the transaction; and when every credit and debit account
    is open it returns nil, having applied every posting to the amounts
    map: [Book] has run on every posting in order, every entry of the
    amounts has moved by what the postings take from it as credit
    position and add to it as debit position, the map has an entry where
    it had one and at both positions of every posting, and nothing but
    the amounts has changed. *)
Theorem BookAmount_error_iff b t :
  ((exists e, (BookAmount IsOpen b t).2 = Some e) <->
   Exists (fun p => IsOpen (Balance_Accounts b) (Credit p) = false
                    \/ IsOpen (Balance_Accounts b) (Debit p) = false)
     (Postings t))
  /\ (forall e, (BookAmount IsOpen b t).2 = Some e -> directive e = t)
  /\ (Forall (fun p => IsOpen (Balance_Accounts b) (Credit p) = true
                       /\ IsOpen (Balance_Accounts b) (Debit p) = true)
        (Postings t) ->
      BookAmount IsOpen b t = (foldl bookPosting b (Postings t), None)
      /\ (forall pos,
            toQc (Amounts (BookAmount IsOpen b t).1 !!! pos)
            = (toQc (Amounts b !!! pos) + netEffect (Postings t) pos)%Qc)
      /\ dom (Amounts (BookAmount IsOpen b t).1)
         = dom (Amounts b) ∪ list_to_set (Postings t ≫= postingPositions)
      /\ Values (BookAmount IsOpen b t).1 = Values b
      /\ Balance_Accounts (BookAmount IsOpen b t).1 = Balance_Accounts b).
Proof.
  assert (forall p, bothOpen IsOpen b p = false <->
            IsOpen (Balance_Accounts b) (Credit p) = false
            \/ IsOpen (Balance_Accounts b) (Debit p) = false) as Hclosed.
  { intros p. unfold bothOpen. apply andb_false_iff. }
  assert (forall p, bothOpen IsOpen b p = true <->
            IsOpen (Balance_Accounts b) (Credit p) = true
            /\ IsOpen (Balance_Accounts b) (Debit p) = true) as Hopen.
  { intros p. unfold bothOpen. apply andb_true_iff. }
  unfold BookAmount.
  destruct (first_failure (bothOpen IsOpen b) (Postings t))
    as [Hall|(pre & p & post & Hsplit & Hpre & Hp)].
  - rewrite (BookAmount_loop_open t _ b Hall). cbn [fst snd].
    destruct (foldl_bookPosting_frame (Postings t) b)
      as (Hvalues & Haccounts & _ & _ & Hdom).
    split_and!; [|done|].
    2:{ intros _. split_and!; [done | | done..].
        intros pos. apply foldl_bookPosting_lookup. }
    split; [by intros [e ?]|].
    intros Hex. apply Exists_exists in Hex as (p & Hin & Hp).
    rewrite Forall_forall in Hall. specialize (Hall p Hin).
    apply Hclosed in Hp. congruence.
  - rewrite Hsplit.
    destruct (BookAmount_loop_stops t pre p post b Hpre Hp) as (e & -> & He).
    cbn [snd]. split_and!.
    + split; [|by eauto]. intros _. apply Exists_app. right.
      apply Exists_cons_hd. by apply Hclosed.
    + by intros ? [= <-].
    + intros Hall. apply Forall_app in Hall as [_ Hall].
      apply Forall_cons in Hall as [Hp' _]. apply Hopen in Hp'. congruence.
Qed.

(** C9 (as amended).  Booking is not atomic: when the [k]-th posting is
    the first with an account that is not open, [BookAmount] returns the
    error with the postings before it booked and the others not: every
    entry of the amounts has moved by the net effect of the postings
    before the [k]-th.  The amounts read on error therefore differ from
    those read before the call exactly when that net effect is not zero
    at some position, as it is after a single posting of a non-zero
    amount between two different accounts; when the first posting fails,
    the state is the state before the call. *)
Theorem BookAmount_not_atomic b t pre p post :
  Postings t = pre ++ p :: post ->
  Forall (fun q => bothOpen IsOpen b q = true) pre ->
  bothOpen IsOpen b p = false ->
  exists e,
    BookAmount IsOpen b t = (foldl bookPosting b pre, Some e)
    /\ directive e = t
    /\ (forall pos,
          toQc (Amounts (BookAmount IsOpen b t).1 !!! pos)
          = (toQc (Amounts b !!! pos) + netEffect pre pos)%Qc)
    /\ ((exists pos,
           toQc (Amounts (BookAmount IsOpen b t).1 !!! pos)
           <> toQc (Amounts b !!! pos))
        <-> exists pos, netEffect pre pos <> 0%Qc)
    /\ (pre = [] -> (BookAmount IsOpen b t).1 = b)
    /\ (forall p0,
          pre = [p0] -> Credit p0 <> Debit p0 -> toQc (ledger.Amount p0) <> 0%Qc ->
          toQc (Amount (BookAmount IsOpen b t).1 (Credit p0) (Posting_Commodity p0))
          <> toQc (Amount b (Credit p0) (Posting_Commodity p0))).
Proof.
  intros Hsplit Hpre Hp. unfold BookAmount. rewrite Hsplit.
  destruct (BookAmount_loop_stops t pre p post b Hpre Hp) as (e & -> & He).
  exists e. cbn [fst].
  assert (forall pos,
            toQc (Amounts (foldl bookPosting b pre) !!! pos)
            = (toQc (Amounts b !!! pos) + netEffect pre pos)%Qc) as Hmoved
    by (intros pos; apply foldl_bookPosting_lookup).
  split_and!; [done | done | exact Hmoved | | by intros -> |].
  - split; intros [pos Hpos]; exists pos.
    + intros Hzero. apply Hpos. rewrite Hmoved, Hzero. ring.
    + intros Heq. apply Hpos.
      transitivity (toQc (Amounts b !!! pos) + netEffect pre pos
                    - toQc (Amounts b !!! pos))%Qc; [ring|].
      rewrite <- Hmoved, Heq. ring.
  - intros p0 -> Hne Hnz. cbn [foldl]. unfold bookPosting, Amount.
    rewrite Book_lookup. rewrite decide_True by done.
    rewrite decide_False by (intros [= ?]; done).
    intros Heq. apply Hnz.
    transitivity (toQc (Amounts b !!! mkCommodityAccount (Credit p0) (Posting_Commodity p0))
                  - (toQc (Amounts b !!! mkCommodityAccount (Credit p0) (Posting_Commodity p0))
                     - toQc (ledger.Amount p0) + 0))%Qc; [ring|].
    rewrite Heq. ring.
Qed.

End Booking.

(* ===================================================================== *)
(** * Balance: differences *)
(* ===================================================================== *)

Section Differences.

Context {Accounts : Type}.

Implicit Types b bo : @Balance Accounts.
Implicit Types h : @Heap Accounts.
Implicit Types p po : option nat.

(** One loop of [Minus], entry by entry. *)
Lemma minusPositions_lookup (m mo : gmap CommodityAccount Decimal) pos :
  minusPositions m mo !! pos
  = match mo !! pos with
    | Some va => Some (Sub (m !!! pos) va)
    | None => m !! pos
    end.
Proof.
  unfold minusPositions. revert pos.
  apply (map_fold_weak_ind
           (fun (r : gmap CommodityAccount Decimal) mo =>
              forall pos,
                r !! pos = match mo !! pos with
                           | Some va => Some (Sub (m !!! pos) va)
                           | None => m !! pos
                           end)).
  - intros pos. by rewrite lookup_empty.
  - intros i x mo' r Hfresh IH pos.
    destruct (decide (i = pos)) as [->|Hne].
    + rewrite !lookup_insert_eq. do 2 f_equal.
      rewrite !lookup_total_alt. by rewrite IH, Hfresh.
    + rewrite !lookup_insert_ne by done. apply IH.
Qed.

Lemma minusPositions_toQc (m mo : gmap CommodityAccount Decimal) pos :
  toQc (minusPositions m mo !!! pos)
  = (toQc (m !!! pos) - toQc (mo !!! pos))%Qc.
Proof.
  destruct (mo !! pos) as [va|] eqn:Hva.
  - rewrite (lookup_total_Some mo _ _ Hva).
    rewrite (lookup_total_Some (minusPositions m mo) pos (Sub (m !!! pos) va))
      by (by rewrite minusPositions_lookup, Hva).
    apply toQc_Sub.
  - rewrite (lookup_total_None mo _ Hva), toQc_Zero.
    rewrite (lookup_total_alt (minusPositions m mo)), minusPositions_lookup.
    rewrite Hva, <- lookup_total_alt. ring.
Qed.

Lemma Minus_Amounts b bo pos :
  toQc (Amounts (Minus b bo) !!! pos)
  = (toQc (Amounts b !!! pos) - toQc (Amounts bo !!! pos))%Qc.
Proof. apply minusPositions_toQc. Qed.

Lemma Minus_Values b bo pos :
  toQc (Values (Minus b bo) !!! pos)
  = (toQc (Values b !!! pos) - toQc (Values bo !!! pos))%Qc.
Proof. apply minusPositions_toQc. Qed.

Lemma sumAt_app (ms1 ms2 : list (gmap CommodityAccount Decimal)) pos :
  sumAt (ms1 ++ ms2) pos = (sumAt ms1 pos + sumAt ms2 pos)%Qc.
Proof. induction ms1 as [|m ms1 IH]; simpl; [ring | rewrite IH; ring]. Qed.

(** ** The heap *)

Lemma minusPositions_empty (m : gmap CommodityAccount Decimal) :
  minusPositions m ∅ = m.
Proof. unfold minusPositions. apply map_fold_empty. Qed.

(** The lists of a bind without a repeated element are without one, and
    those at two different indices have no element in common. *)
Lemma bind_NoDup_at {A B} (f : A -> list B) (l : list A) i x :
  NoDup (l ≫= f) -> l !! i = Some x -> NoDup (f x).
Proof.
  revert i. induction l as [|a l IH]; intros i Hnd Hi; [done|].
  change ((a :: l) ≫= f) with (f a ++ (l ≫= f)) in Hnd.
  apply NoDup_app in Hnd as (Ha & _ & Hl).
  destruct i as [|i]; simplify_eq/=; [done | by eapply IH].
Qed.

Lemma bind_apart {A B} (f : A -> list B) (l : list A) i j x y r :
  NoDup (l ≫= f) -> l !! i = Some x -> l !! j = Some y -> i <> j ->
  r ∈ f x -> r ∈ f y -> False.
Proof.
  revert i j. induction l as [|a l IH]; intros i j Hnd Hi Hj Hij Hx Hy; [done|].
  change ((a :: l) ≫= f) with (f a ++ (l ≫= f)) in Hnd.
  apply NoDup_app in Hnd as (_ & Hdisj & Hl).
  destruct i as [|i], j as [|j]; simplify_eq/=.
  - apply (Hdisj r Hx). apply list_elem_of_bind. exists y.
    split; [done | by eapply list_elem_of_lookup_2].
  - apply (Hdisj r Hy). apply list_elem_of_bind. exists x.
    split; [done | by eapply list_elem_of_lookup_2].
  - eapply (IH i j); eauto.
Qed.

(** What is read through a pointer depends on the objects and on the
    maps the object refers to. *)
Lemma mapRefs_ext h h' p :
  objects h' = objects h -> mapRefs h' p = mapRefs h p.
Proof. intros Ho. unfold mapRefs, deref. by rewrite Ho. Qed.

Lemma load_ext_deref h h' p :
  deref h' p = deref h p ->
  (forall m, Some m ∈ mapRefs h p -> maps h' !! m = maps h !! m) ->
  load h' p = load h p.
Proof.
  intros Hd Hm. unfold load, mapRefs in *. rewrite Hd.
  destruct (deref h p) as [o|]; [|done]. cbn.
  assert (forall r, r ∈ [Object_Amounts o; Object_Values o] ->
                    contents h' r = contents h r) as Hc.
  { intros [m|] Hr; [|done]. unfold contents. cbn. by rewrite (Hm m Hr). }
  rewrite !Hc by (repeat constructor). done.
Qed.

Lemma load_ext h h' p :
  objects h' = objects h ->
  (forall m, Some m ∈ mapRefs h p -> maps h' !! m = maps h !! m) ->
  load h' p = load h p.
Proof.
  intros Ho. apply load_ext_deref. unfold deref. by rewrite Ho.
Qed.

Lemma owned_ext h h' p :
  objects h' = objects h -> dom (maps h') = dom (maps h) ->
  owned h p -> owned h' p.
Proof.
  intros Ho Hd (o & Hp & Ha & Hv). exists o. unfold deref in *.
  rewrite Ho. split; [done|].
  assert (forall r : option nat,
            is_Some (r ≫= (maps h !!.)) -> is_Some (r ≫= (maps h' !!.))) as Hs.
  { intros [m|]; cbn; [|done]. by rewrite <- !elem_of_dom, Hd. }
  split; by apply Hs.
Qed.

Lemma separate_ext h h' bals :
  objects h' = objects h -> dom (maps h') = dom (maps h) ->
  separate h bals -> separate h' bals.
Proof.
  intros Ho Hd [Hown Hnd]. split.
  - eapply Forall_impl; [exact Hown|]. intros p. by apply owned_ext.
  - erewrite list_bind_ext; [exact Hnd | | done].
    intros p. by apply mapRefs_ext.
Qed.

(** The loops of [Minus] write to no object, to no map but the one of the
    receiver they name, and allocate none. *)
Lemma subtract_frame h (b : option nat) field src h' :
  subtract h b field src = Some h' ->
  objects h' = objects h
  /\ dom (maps h') = dom (maps h)
  /\ (forall m, (forall o, deref h b = Some o -> field o <> Some m) ->
                maps h' !! m = maps h !! m).
Proof.
  unfold subtract. case_decide; [by intros [= <-]|].
  destruct (deref h b) as [o|]; [|done]. cbn.
  destruct (field o) as [m'|] eqn:Hf; [|done]. cbn.
  destruct (maps h !! m') as [tgt|] eqn:Ht; [|done]. cbn.
  intros [= <-]. cbn. split_and!; [done| |].
  - apply dom_insert_lookup_L. by eexists.
  - intros m Hm. apply lookup_insert_ne. intros ->.
    by apply (Hm o); [|rewrite Hf].
Qed.

Lemma Minus_at_frame h (b bo : option nat) h' :
  Minus_at h b bo = Some h' ->
  objects h' = objects h
  /\ dom (maps h') = dom (maps h)
  /\ (forall m, Some m ∉ mapRefs h b -> maps h' !! m = maps h !! m).
Proof.
  unfold Minus_at. destruct (deref h bo) as [o|]; [|done]. cbn.
  destruct (subtract h b Object_Amounts _) as [h1|] eqn:H1; [|done]. cbn.
  intros H2.
  apply subtract_frame in H1 as (Ho1 & Hd1 & Hf1).
  apply subtract_frame in H2 as (Ho2 & Hd2 & Hf2).
  split_and!; [congruence | congruence |].
  intros m Hm. unfold mapRefs in Hm.
  rewrite Hf2, Hf1; [done | |].
  - intros ob Hob Hfield. rewrite Hob in Hm. apply Hm.
    rewrite <- Hfield. by left.
  - intros ob Hob Hfield. unfold deref in Hob. rewrite Ho1 in Hob.
    unfold deref in Hm. rewrite Hob in Hm. apply Hm.
    rewrite <- Hfield. right. by left.
Qed.

Lemma Diffs_loop_frame i bals h h' :
  Diffs_loop i bals h = Some h' ->
  objects h' = objects h
  /\ dom (maps h') = dom (maps h)
  /\ (forall m,
        (forall j p, (j < i)%nat -> bals !! S j = Some p ->
                     Some m ∉ mapRefs h p) ->
        maps h' !! m = maps h !! m).
Proof.
  revert h. induction i as [|i IH]; intros h.
  - by intros [= <-].
  - cbn [Diffs_loop].
    destruct (bals !! S i) as [b|] eqn:Hb; [|done]. cbn.
    destruct (bals !! i) as [bo|]; [|done]. cbn.
    destruct (Minus_at h b bo) as [h1|] eqn:H1; [|done]. cbn.
    intros Hloop. apply IH in Hloop as (Ho & Hd & Hf).
    apply Minus_at_frame in H1 as (Ho1 & Hd1 & Hf1).
    split_and!; [congruence | congruence |].
    intros m Hm. rewrite Hf, Hf1; [done | by apply (Hm i); [lia|] |].
    intros j p Hj Hp. rewrite (mapRefs_ext h h1) by done.
    apply (Hm j); [lia | done].
Qed.

(** One loop of [Minus] for a receiver that has its map. *)
Lemma subtract_owned h (b : option nat) field src o m tgt :
  deref h b = Some o -> field o = Some m -> maps h !! m = Some tgt ->
  exists h',
    subtract h b field src = Some h'
    /\ objects h' = objects h
    /\ maps h' = <[m := minusPositions tgt src]> (maps h).
Proof.
  intros Hb Hf Ht. unfold subtract. case_decide as Hsrc.
  - exists h. split_and!; [done..|]. subst src.
    rewrite minusPositions_empty. symmetry. by apply insert_id.
  - rewrite Hb. cbn. rewrite Hf. cbn. rewrite Ht. cbn. by eexists.
Qed.

(** [Minus] on two balances that lie apart is [Minus] on their values. *)
Lemma Minus_at_apart h (b bo : option nat) bv bov :
  owned h b -> owned h bo ->
  NoDup (mapRefs h b ++ mapRefs h bo) ->
  load h b = Some bv -> load h bo = Some bov ->
  exists h',
    Minus_at h b bo = Some h'
    /\ load h' b = Some (Minus bv bov).
Proof.
  intros (o & Hb & Ha & Hv) (o' & Hbo & Ha' & Hv') Hnd Hbv Hbov.
  destruct (Object_Amounts o) as [ma|] eqn:Hma; [|by destruct Ha].
  destruct (Object_Values o) as [mv|] eqn:Hmv; [|by destruct Hv].
  destruct (Object_Amounts o') as [ma'|] eqn:Hma'; [|by destruct Ha'].
  destruct (Object_Values o') as [mv'|] eqn:Hmv'; [|by destruct Hv'].
  cbn in Ha, Hv, Ha', Hv'.
  destruct Ha as [ta Hta], Hv as [tv Htv], Ha' as [sa Hsa], Hv' as [sv Hsv].
  unfold mapRefs in Hnd. rewrite Hb, Hbo, Hma, Hmv, Hma', Hmv' in Hnd.
  assert (ma <> mv /\ ma <> mv' /\ mv <> ma') as (Hne1 & Hne2 & Hne3).
  { cbn in Hnd. apply NoDup_cons in Hnd as [Hfst Hnd].
    apply NoDup_cons in Hnd as [Hsnd _]. rewrite !elem_of_cons in Hfst, Hsnd.
    split_and!; intros ->;
      [apply Hfst; by left | apply Hfst; right; right; by left
      | apply Hsnd; by left]. }
  unfold load in Hbv, Hbov. rewrite Hb in Hbv. rewrite Hbo in Hbov.
  cbn in Hbv, Hbov. injection Hbv as <-. injection Hbov as <-.
  destruct (subtract_owned h b Object_Amounts (contents h (Object_Amounts o'))
              o ma ta Hb Hma Hta) as (h1 & H1 & Ho1 & Hm1).
  assert (deref h1 b = Some o) as Hb1 by (unfold deref in *; by rewrite Ho1).
  assert (maps h1 !! mv = Some tv) as Htv1
    by (rewrite Hm1, lookup_insert_ne by done; done).
  destruct (subtract_owned h1 b Object_Values (contents h1 (Object_Values o'))
              o mv tv Hb1 Hmv Htv1) as (h2 & H2 & Ho2 & Hm2).
  exists h2. split.
  - unfold Minus_at. rewrite Hbo. cbn. rewrite H1. cbn. exact H2.
  - unfold load, deref in *. rewrite Ho2, Ho1, Hb. cbn.
    unfold Minus, setValues, setAmounts. cbn. f_equal.
    rewrite Hma, Hmv, Hma', Hmv'. unfold contents. cbn.
    rewrite Hm2, Hm1.
    rewrite lookup_insert_ne by done. rewrite !lookup_insert_eq.
    assert (contents h (Object_Amounts o') = sa) as ->
      by (unfold contents; rewrite Hma'; cbn; by rewrite Hsa).
    assert (contents h1 (Object_Values o') = sv) as ->.
    { unfold contents. rewrite Hmv'. cbn.
      rewrite Hm1, lookup_insert_ne by done. by rewrite Hsv. }
    rewrite Hta, Htv, Hsa, Hsv. done.
Qed.

(** The loop of [Diffs] on balances that lie apart: every balance at an
    index [1 .. i] has the balance before it subtracted, as both stood
    before the loop. *)
Lemma Diffs_loop_apart i bals h :
  separate h bals ->
  (i < length bals)%nat ->
  exists h',
    Diffs_loop i bals h = Some h'
    /\ (forall j p po bv bov,
          (j < i)%nat -> bals !! S j = Some p -> bals !! j = Some po ->
          load h p = Some bv -> load h po = Some bov ->
          load h' p = Some (Minus bv bov)).
Proof.
  revert h. induction i as [|i IH]; intros h Hsep Hlen.
  - exists h. split; [done | intros; lia].
  - destruct (lookup_lt_is_Some_2 bals (S i) Hlen) as [b Hb].
    destruct (lookup_lt_is_Some_2 bals i ltac:(lia)) as [bo Hbo].
    destruct Hsep as [Hown Hnd].
    pose proof (proj1 (Forall_lookup _ _) Hown _ _ Hb) as Hownb.
    pose proof (proj1 (Forall_lookup _ _) Hown _ _ Hbo) as Hownbo.
    destruct Hownb as (o & Hderef & Hoa & Hov).
    destruct Hownbo as (o' & Hderef' & Hoa' & Hov').
    assert (is_Some (load h b)) as [bv Hbv]
      by (unfold load; rewrite Hderef; by eexists).
    assert (is_Some (load h bo)) as [bov Hbov]
      by (unfold load; rewrite Hderef'; by eexists).
    destruct (Minus_at_apart h b bo bv bov) as (h1 & H1 & Hload1);
      [by exists o | by exists o' | | done | done |].
    { apply NoDup_app. split_and!.
      - by eapply bind_NoDup_at.
      - intros r Hr Hr'. eapply (bind_apart (mapRefs h) bals (S i) i); eauto.
      - by eapply bind_NoDup_at. }
    pose proof (Minus_at_frame h b bo h1 H1) as (Ho1 & Hd1 & Hf1).
    assert (forall j q, j <> S i -> bals !! j = Some q -> load h1 q = load h q)
      as Hother.
    { intros j q Hj Hq. apply load_ext; [done|].
      intros m Hm. apply Hf1. intros Hm'.
      by apply (bind_apart (mapRefs h) bals j (S i) q b (Some m)). }
    destruct (IH h1) as (h' & Hloop & Hdiff); [|lia|].
    { apply (separate_ext h); [done | done | by split]. }
    exists h'. split.
    + cbn [Diffs_loop]. rewrite Hb, Hbo. cbn. rewrite H1. cbn. exact Hloop.
    + intros j p po bv' bov' Hj Hp Hpo Hbv' Hbov'.
      destruct (decide (j = i)) as [->|Hji].
      * rewrite Hb in Hp. injection Hp as <-.
        rewrite Hbo in Hpo. injection Hpo as <-.
        rewrite Hbv in Hbv'. injection Hbv' as <-.
        rewrite Hbov in Hbov'. injection Hbov' as <-.
        rewrite <- Hload1.
        pose proof (Diffs_loop_frame i bals h1 h' Hloop) as (Ho & _ & Hf).
        apply load_ext; [done|].
        intros m Hm. apply Hf. intros j q Hj' Hq Hm'.
        rewrite (mapRefs_ext h h1) in Hm, Hm' by done.
        apply (bind_apart (mapRefs h) bals (S j) (S i) q b (Some m));
          [done | done | done | lia | done | done].
      * apply (Hdiff j p po); [lia | done | done | |].
        { by rewrite (Hother (S j) p) by (done || lia). }
        { by rewrite (Hother j po) by (done || lia). }
Qed.

(** Adding the first [k] differences to the first balance gives the
    balance at index [k]. *)
Lemma differences_telescope (f : @Balance Accounts -> gmap CommodityAccount Decimal)
    (orig : list (@Balance Accounts)) pos :
  (forall b bo, toQc (f (Minus b bo) !!! pos)
                = (toQc (f b !!! pos) - toQc (f bo !!! pos))%Qc) ->
  forall k b0 bk,
    orig !! 0%nat = Some b0 -> orig !! k = Some bk ->
    (toQc (f b0 !!! pos)
     + sumAt (f <$> take k (zip_with Minus (tail orig) orig)) pos)%Qc
    = toQc (f bk !!! pos).
Proof.
  intros Hf k. induction k as [|k IH]; intros b0 bk H0 Hk.
  - simplify_eq. simpl. ring.
  - destruct (lookup_lt_is_Some_2 orig k) as [bk' Hk'].
    { apply lookup_lt_Some in Hk. lia. }
    assert (zip_with Minus (tail orig) orig !! k = Some (Minus bk bk')) as Hd.
    { apply lookup_zip_with_Some. exists bk, bk'.
      split_and!; [done | by rewrite lookup_tail | done]. }
    rewrite (take_S_r _ _ _ Hd), fmap_app, sumAt_app. simpl.
    rewrite Hf. specialize (IH b0 bk' H0 Hk').
    transitivity (toQc (f b0 !!! pos)
                  + sumAt (f <$> take k (zip_with Minus (tail orig) orig)) pos
                  + (toQc (f bk !!! pos) - toQc (f bk' !!! pos)))%Qc; [ring|].
    rewrite IH. ring.
Qed.

(** C4.  For a non-empty list of cumulative balances, held in the heap
    as [New] and [Snapshot] allocate them, each balance an object with
    two maps of its own, [Diffs] returns the slice without its first
    element, one element shorter; entry [i] of it then holds the
    cumulative balance [i + 1] minus the cumulative balance [i], for the
    amounts and for the values; and adding the first [k] returned
    differences to the first cumulative balance gives the cumulative
    balance [k]. *)
Theorem Diffs_telescopes (bals : list (option nat)) h
    (orig : list (@Balance Accounts)) :
  bals <> [] ->
  stores h bals orig ->
  let diffs := zip_with Minus (tail orig) orig in
  exists h',
    Diffs bals h = Some (tail bals, h')
    /\ S (length (tail bals)) = length bals
    /\ Forall2 (fun p d => load h' p = Some d) (tail bals) diffs
    /\ (forall i bi bi1 d pos,
          orig !! i = Some bi -> orig !! S i = Some bi1 ->
          diffs !! i = Some d ->
          toQc (Amounts d !!! pos)
          = (toQc (Amounts bi1 !!! pos) - toQc (Amounts bi !!! pos))%Qc
          /\ toQc (Values d !!! pos)
             = (toQc (Values bi1 !!! pos) - toQc (Values bi !!! pos))%Qc)
    /\ (forall k b0 bk pos,
          orig !! 0%nat = Some b0 -> orig !! k = Some bk ->
          (toQc (Amounts b0 !!! pos)
           + sumAt (Amounts <$> take k diffs) pos)%Qc
          = toQc (Amounts bk !!! pos)
          /\ (toQc (Values b0 !!! pos)
              + sumAt (Values <$> take k diffs) pos)%Qc
             = toQc (Values bk !!! pos)).
Proof.
  intros Hne [Horig Hsep] diffs.
  destruct bals as [|l0 rest]; [done|].
  destruct (Diffs_loop_apart (length rest) (l0 :: rest) h Hsep)
    as (h' & Hloop & Hdiff); [simpl; lia|].
  exists h'. split_and!.
  - unfold Diffs. cbn [length]. rewrite Nat.sub_succ, Nat.sub_0_r, Hloop. done.
  - done.
  - apply Forall2_same_length_lookup_2.
    + unfold diffs. pose proof (Forall2_length _ _ _ Horig) as Hlen.
      destruct orig as [|b0 orig']; simpl in Hlen; [lia|].
      cbn [tail length]. rewrite length_zip_with. simpl. lia.
    + intros i l d Hl Hd. unfold diffs in Hd.
      apply lookup_zip_with_Some in Hd as (bi1 & bi & -> & Hbi1 & Hbi).
      rewrite lookup_tail in Hbi1. cbn [tail] in Hl.
      assert ((l0 :: rest) !! S i = Some l) as Hl' by done.
      destruct (Forall2_lookup_r _ _ _ _ _ Horig Hbi) as (lo & Hlo & Hhlo).
      destruct (Forall2_lookup_l _ _ _ _ _ Horig Hl') as (bi1' & Hbi1' & Hhl).
      simplify_eq.
      apply (Hdiff i l lo); [|done..].
      apply lookup_lt_Some in Hl. lia.
  - intros i bi bi1 d pos Hbi Hbi1 Hd. unfold diffs in Hd.
    apply lookup_zip_with_Some in Hd as (x & y & -> & Hx & Hy).
    rewrite lookup_tail in Hx. simplify_eq.
    split; [apply Minus_Amounts | apply Minus_Values].
  - intros k b0 bk pos H0 Hk. split.
    + apply (differences_telescope Amounts); [intros; apply Minus_Amounts|done..].
    + apply (differences_telescope Values); [intros; apply Minus_Values|done..].
Qed.

End Differences.

(* ===================================================================== *)
(** * Balance: the sample data *)
(* ===================================================================== *)

(** Booking a payment and a transaction that fails half-way on the empty
    balance leaves every commodity sum at zero. *)
Lemma booking_preserves_equilibrium_witness :
  (forall c, commoditySum (Amounts emptyBalance) c = 0%Qc)
  /\ (forall c,
        commoditySum
          (Amounts (BookTransactions isOpenIn emptyBalance
                      [template bank rent; rentThenSalary]).1) c = 0%Qc).
Proof.
  assert (forall c, commoditySum (Amounts emptyBalance) c = 0%Qc) as H
    by (intros c; reflexivity).
  split; [exact H|].
  apply (proj2 (proj2 (booking_preserves_equilibrium isOpenIn emptyBalance))), H.
Defined.

(** With both accounts open the payment of 100 USD is booked without
    error: the bank account then holds -100 USD and the rent 100 USD. *)
Lemma BookAmount_error_iff_witness :
  Forall (fun p => isOpenIn (Balance_Accounts emptyBalance) (Credit p) = true
                   /\ isOpenIn (Balance_Accounts emptyBalance) (Debit p) = true)
    (Postings (template bank rent))
  /\ BookAmount isOpenIn emptyBalance (template bank rent)
     = (bookPosting emptyBalance (posting100 bank rent), None)
  /\ (forall pos,
        toQc (Amounts (BookAmount isOpenIn emptyBalance (template bank rent)).1
              !!! pos)
        = (toQc (Amounts emptyBalance !!! pos)
           + netEffect [posting100 bank rent] pos)%Qc)
  /\ Amount (BookAmount isOpenIn emptyBalance (template bank rent)).1 bank USD
     = mkDecimal (-100) 0
  /\ Amount (BookAmount isOpenIn emptyBalance (template bank rent)).1 rent USD
     = mkDecimal 100 0.
Proof.
  assert (Forall (fun p =>
            isOpenIn (Balance_Accounts emptyBalance) (Credit p) = true
            /\ isOpenIn (Balance_Accounts emptyBalance) (Debit p) = true)
          (Postings (template bank rent))) as H
    by (repeat constructor).
  split; [exact H|].
  destruct (proj2 (proj2 (BookAmount_error_iff isOpenIn emptyBalance
                            (template bank rent))) H) as (Hbook & Hmoved & _).
  split; [exact Hbook|]. split; [exact Hmoved|].
  split; vm_compute; reflexivity.
Defined.

(** The salary account is not open: the error is returned after the rent
    posting has moved the entry of the bank account. *)
Lemma BookAmount_not_atomic_witness :
  (Postings rentThenSalary
   = [posting100 bank rent] ++ posting100 salary bank :: []
   /\ Forall (fun q => bothOpen isOpenIn emptyBalance q = true)
        [posting100 bank rent]
   /\ bothOpen isOpenIn emptyBalance (posting100 salary bank) = false)
  /\ (exists e,
        BookAmount isOpenIn emptyBalance rentThenSalary
        = (bookPosting emptyBalance (posting100 bank rent), Some e))
  /\ toQc (Amount (BookAmount isOpenIn emptyBalance rentThenSalary).1 bank USD)
     <> toQc (Amount emptyBalance bank USD).
Proof.
  assert (Forall (fun q => bothOpen isOpenIn emptyBalance q = true)
            [posting100 bank rent]) as Hpre by (repeat constructor).
  split; [split_and!; [reflexivity | exact Hpre | reflexivity]|].
  destruct (BookAmount_not_atomic isOpenIn emptyBalance rentThenSalary
              [posting100 bank rent] (posting100 salary bank) []
              eq_refl Hpre eq_refl)
    as (e & Hbook & _ & _ & _ & _ & Hchanged).
  split; [by exists e|].
  apply (Hchanged (posting100 bank rent) eq_refl); [discriminate|].
  intros H. apply toQc_zero_iff in H. discriminate H.
Defined.

(** C9, the claim as stated fails: a transaction whose first posting
    names the account that is not open fails with the balance as it was,
    and so does one that fails at its third posting after the rent has
    been paid and paid back. *)
Lemma BookAmount_error_may_leave_state :
  (bothOpen isOpenIn emptyBalance (posting100 salary bank) = false
   /\ exists e,
        BookAmount isOpenIn emptyBalance salaryFirst = (emptyBalance, Some e))
  /\ (Postings thereAndBack
      = [posting100 bank rent; posting100 rent bank]
        ++ posting100 salary bank :: []
      /\ Forall (fun q => bothOpen isOpenIn paidRent q = true)
           [posting100 bank rent; posting100 rent bank]
      /\ bothOpen isOpenIn paidRent (posting100 salary bank) = false
      /\ exists e,
           BookAmount isOpenIn paidRent thereAndBack = (paidRent, Some e)).
Proof.
  split_and!; [reflexivity | eexists; vm_compute; reflexivity | reflexivity
              | repeat constructor | reflexivity
              | eexists; vm_compute; reflexivity].
Qed.

(** The heap of the three objects with maps of their own holds the
    balances of 10, 30 and 10 USD apart. *)
Lemma distinctHeap_stores :
  stores distinctHeap distinctSlice [holding 10; holding 30; holding 10].
Proof.
  split; [repeat constructor|]. split.
  - repeat constructor;
      (eexists; split; [reflexivity|]; split; eexists; reflexivity).
  - assert (distinctSlice ≫= mapRefs distinctHeap
            = [Some 0; Some 1; Some 2; Some 3; Some 4; Some 5]%nat) as ->
      by reflexivity.
    compute_done.
Defined.

(** Three objects with maps of their own holding 10, 30 and 10 USD: the
    returned entries are the two differences. *)
Lemma Diffs_telescopes_witness :
  (distinctSlice <> []
   /\ stores distinctHeap distinctSlice [holding 10; holding 30; holding 10])
  /\ exists h',
      Diffs distinctSlice distinctHeap = Some ([Some 1; Some 2]%nat, h')
      /\ Forall2 (fun p d => load h' p = Some d) [Some 1; Some 2]%nat
           [Minus (holding 30) (holding 10); Minus (holding 10) (holding 30)].
Proof.
  pose proof distinctHeap_stores as Hstores.
  split; [split; [discriminate | exact Hstores]|].
  destruct (Diffs_telescopes distinctSlice distinctHeap
              [holding 10; holding 30; holding 10]
              ltac:(discriminate) Hstores) as (h' & Hd & _ & Hh' & _).
  exists h'. split; [exact Hd | exact Hh'].
Defined.

(** Balances that share their maps are not held apart, and [Diffs] does
    not return their differences: the three balance objects are distinct
    and hold the cumulative balances 10, 30 and 10 USD, the last object
    being a copy of the first with the same two maps ([c := *b0], which
    neither [New] nor [Snapshot] makes); entry 0 of the returned slice
    then holds 50 USD and not the difference 30 - 10 = 20 USD. *)
Lemma Diffs_on_shared_maps :
  NoDup sharedSlice
  /\ (fun p => (fun b : @Balance unit => Amount b bank USD)
                 <$> load sharedHeap p) <$> sharedSlice
     = [Some (mkDecimal 10 0); Some (mkDecimal 30 0); Some (mkDecimal 10 0)]
  /\ fst <$> Diffs sharedSlice sharedHeap = Some (tail sharedSlice)
  /\ returnedAmount (Diffs sharedSlice sharedHeap) 0 bank USD
     = Some (mkDecimal 50 0)
  /\ toQc (mkDecimal 50 0) <> (toQc (mkDecimal 30 0) - toQc (mkDecimal 10 0))%Qc
  /\ (toQc (mkDecimal 10 0) + toQc (mkDecimal 50 0))%Qc <> toQc (mkDecimal 30 0).
Proof.
  split_and!; [compute_done | vm_compute; reflexivity.. | |];
    intros H; apply (f_equal this) in H; vm_compute in H; discriminate H.
Qed.

End balance_facts.

(* ===================================================================== *)
(** * Journal: the bounds computed by the builder *)
(* ===================================================================== *)

Module journal_facts.
Import decimal ledger journal examples.

Section Builder.

Context {Registry : Type}.

Implicit Types j : @Journal Registry.

Lemma keyed_New (reg : Registry) : keyed (New reg).
Proof. intros k day H. cbn in H. by rewrite lookup_empty in H. Qed.

Lemma Journal_Day_spec j k d j' :
  keyed j -> Journal_Day j k = (d, j') ->
  Date d = k /\ keyed j' /\ min j' = min j /\ max j' = max j.
Proof.
  intros Hk. unfold Journal_Day, GetDefault.
  destruct (Days j !! k) as [day|] eqn:Hday; intros [= <- <-].
  - split_and!; [by apply Hk | | done..].
    intros k' day'. cbn [Days setDays]. apply Hk.
  - split_and!; [done | | done..].
    intros k' day. cbn [Days setDays].
    destruct (decide (k = k')) as [->|Hne].
    + rewrite lookup_insert_eq. by intros [= <-].
    + rewrite lookup_insert_ne by done. apply Hk.
Qed.

Lemma keyed_putDay j k day : keyed j -> Date day = k -> keyed (putDay j k day).
Proof.
  intros Hk Hd k' day'. cbn [putDay Days setDays].
  destruct (decide (k = k')) as [->|Hne].
  - rewrite lookup_insert_eq. by intros [= <-].
  - rewrite lookup_insert_ne by done. apply Hk.
Qed.

Lemma AddOpen_bounds j o :
  keyed j ->
  keyed (AddOpen j o) /\ min (AddOpen j o) = min j /\ max (AddOpen j o) = max j.
Proof.
  intros Hk. unfold AddOpen.
  destruct (Journal_Day j (Open_Date o)) as [d j1] eqn:Hd.
  destruct (Journal_Day_spec _ _ _ _ Hk Hd) as (Hdate & Hk1 & Hmin & Hmax).
  split_and!; [by apply keyed_putDay | done..].
Qed.

Lemma AddAssertion_bounds j a :
  keyed j ->
  keyed (AddAssertion j a)
  /\ min (AddAssertion j a) = min j /\ max (AddAssertion j a) = max j.
Proof.
  intros Hk. unfold AddAssertion.
  destruct (Journal_Day j (Assertion_Date a)) as [d j1] eqn:Hd.
  destruct (Journal_Day_spec _ _ _ _ Hk Hd) as (Hdate & Hk1 & Hmin & Hmax).
  split_and!; [by apply keyed_putDay | done..].
Qed.

Lemma AddClose_bounds j c :
  keyed j ->
  keyed (AddClose j c)
  /\ min (AddClose j c) = min j /\ max (AddClose j c) = max j.
Proof.
  intros Hk. unfold AddClose.
  destruct (Journal_Day j (Close_Date c)) as [d j1] eqn:Hd.
  destruct (Journal_Day_spec _ _ _ _ Hk Hd) as (Hdate & Hk1 & Hmin & Hmax).
  split_and!; [by apply keyed_putDay | done..].
Qed.

Lemma AddPrice_bounds j p :
  keyed j ->
  keyed (AddPrice j p)
  /\ min (AddPrice j p) = min j
  /\ max (AddPrice j p) = Z.max (max j) (Price_Date p).
Proof.
  intros Hk. unfold AddPrice.
  destruct (Journal_Day j (Price_Date p)) as [d j1] eqn:Hd.
  destruct (Journal_Day_spec _ _ _ _ Hk Hd) as (Hdate & Hk1 & Hmin & Hmax).
  unfold Before. rewrite Hdate, Hmax.
  destruct (Z.ltb_spec (max j) (Price_Date p)); cbn [putDay setDays setMax min max];
    (split_and!; [by apply keyed_putDay | done | lia]).
Qed.

Lemma AddTransaction_bounds j t :
  keyed j ->
  keyed (AddTransaction j t)
  /\ min (AddTransaction j t) = Z.min (min j) (Transaction_Date t)
  /\ max (AddTransaction j t) = Z.max (max j) (Transaction_Date t).
Proof.
  intros Hk. unfold AddTransaction.
  destruct (Journal_Day j (Transaction_Date t)) as [d j1] eqn:Hd.
  destruct (Journal_Day_spec _ _ _ _ Hk Hd) as (Hdate & Hk1 & Hmin & Hmax).
  unfold Before, After. rewrite Hdate, Hmax.
  destruct (Z.ltb_spec (max j) (Transaction_Date t));
    cbn [setMax min max]; rewrite Hmin;
    destruct (Z.ltb_spec (Transaction_Date t) (min j));
    cbn [putDay setDays setMin setMax min max];
    (split_and!; [by apply keyed_putDay | lia | lia]).
Qed.

(** One directive: the bounds only widen, and they cover the directive
    when it is a transaction (on both sides) or a price (from above). *)
Lemma addDirective_spec j d j' :
  keyed j -> addDirective j d = Some j' ->
  keyed j' /\ min j' <= min j /\ max j <= max j' /\ covered j' d.
Proof.
  intros Hk. destruct d as [p|o|t|a|c|]; cbn [addDirective covered];
    intros [= <-].
  - destruct (AddPrice_bounds j p Hk) as (? & -> & ->). split_and!; [done|lia..].
  - destruct (AddOpen_bounds j o Hk) as (? & -> & ->). split_and!; [done|lia..|done].
  - destruct (AddTransaction_bounds j t Hk) as (? & -> & ->).
    split_and!; [done|lia..].
  - destruct (AddAssertion_bounds j a Hk) as (? & -> & ->).
    split_and!; [done|lia..|done].
  - destruct (AddClose_bounds j c Hk) as (? & -> & ->).
    split_and!; [done|lia..|done].
Qed.

Lemma covered_widen j j' d :
  min j' <= min j -> max j <= max j' -> covered j d -> covered j' d.
Proof. destruct d; cbn [covered]; lia. Qed.

Lemma consumeBatch_spec ds j :
  keyed j -> DirOther ∉ ds ->
  exists j',
    consumeBatch j ds = Some j'
    /\ keyed j' /\ min j' <= min j /\ max j <= max j'
    /\ (forall d, d ∈ ds -> covered j' d).
Proof.
  revert j. induction ds as [|d ds IH]; intros j Hk Hother.
  - exists j. split_and!; [done.. | lia | lia |]. intros d Hd. by apply elem_of_nil in Hd.
  - apply not_elem_of_cons in Hother as [Hd Hother].
    destruct (addDirective j d) as [j1|] eqn:Hadd; [|by destruct d].
    destruct (addDirective_spec j d j1 Hk Hadd) as (Hk1 & Hmin1 & Hmax1 & Hcov1).
    destruct (IH j1 Hk1 Hother) as (j' & Hrest & Hk' & Hmin' & Hmax' & Hcov').
    exists j'. split_and!; [| done | lia | lia |].
    + cbn [consumeBatch]. rewrite Hadd. exact Hrest.
    + intros d' Hd'. apply elem_of_cons in Hd' as [->|Hd'].
      * by apply (covered_widen j1).
      * by apply Hcov'.
Qed.

Lemma consumeAll_spec batches j :
  keyed j -> DirOther ∉ concat batches ->
  exists j',
    consumeAll j batches = Some j'
    /\ keyed j' /\ min j' <= min j /\ max j <= max j'
    /\ (forall d, d ∈ concat batches -> covered j' d).
Proof.
  revert j. induction batches as [|ds batches IH]; intros j Hk Hother.
  - exists j. split_and!; [done.. | lia | lia |]. intros d Hd. by apply elem_of_nil in Hd.
  - cbn [concat] in Hother. apply not_elem_of_app in Hother as [Hds Hother].
    destruct (consumeBatch_spec ds j Hk Hds) as (j1 & Hb & Hk1 & Hmin1 & Hmax1 & Hcov1).
    destruct (IH j1 Hk1 Hother) as (j' & Hrest & Hk' & Hmin' & Hmax' & Hcov').
    exists j'. split_and!; [| done | lia | lia |].
    + cbn [consumeAll]. rewrite Hb. exact Hrest.
    + intros d Hd. cbn [concat] in Hd. apply elem_of_app in Hd as [Hd|Hd].
      * apply (covered_widen j1); [done.. | by apply Hcov1].
      * by apply Hcov'.
Qed.

(** C7 (as amended).  Once the builder has consumed all directives, the
    interval returned by [Period] contains the date of every ingested
    transaction, and its end is not before the date of any ingested
    price; open, assertion and close directives leave both bounds as they
    are, a price leaves the start as it is. *)
Theorem Create_bounds (reg : Registry) (batches : list (list Directive)) :
  DirOther ∉ concat batches ->
  exists j,
    Create reg batches = Some j
    /\ (forall t, DirTransaction t ∈ concat batches ->
                 Start (Journal_Period j) <= Transaction_Date t
                 <= End (Journal_Period j))
    /\ (forall p, DirPrice p ∈ concat batches ->
                 Price_Date p <= End (Journal_Period j))
    /\ (forall j0, keyed j0 ->
          (forall o, Journal_Period (AddOpen j0 o) = Journal_Period j0)
          /\ (forall a, Journal_Period (AddAssertion j0 a) = Journal_Period j0)
          /\ (forall c, Journal_Period (AddClose j0 c) = Journal_Period j0)
          /\ (forall p, Start (Journal_Period (AddPrice j0 p))
                        = Start (Journal_Period j0))).
Proof.
  intros Hother.
  destruct (consumeAll_spec batches (New reg) (keyed_New reg) Hother)
    as (j & Hj & _ & _ & _ & Hcov).
  exists j. split_and!; [exact Hj | | |].
  - intros t Ht. exact (Hcov _ Ht).
  - intros p Hp. exact (Hcov _ Hp).
  - intros j0 Hk. unfold Journal_Period. split_and!.
    + intros o. by destruct (AddOpen_bounds j0 o Hk) as (_ & -> & ->).
    + intros a. by destruct (AddAssertion_bounds j0 a Hk) as (_ & -> & ->).
    + intros c. by destruct (AddClose_bounds j0 c Hk) as (_ & -> & ->).
    + intros p. cbn [Start]. by destruct (AddPrice_bounds j0 p Hk) as (_ & -> & _).
Qed.

End Builder.

(** The payment of day 738886 lies within the bounds. *)
Lemma Create_bounds_witness :
  (DirOther ∉ concat openThenPay)
  /\ exists j : @Journal unit,
      Create tt openThenPay = Some j
      /\ Start (Journal_Period j) <= 738886 <= End (Journal_Period j).
Proof.
  assert (DirOther ∉ concat openThenPay) as H.
  { cbn. intros Hin. repeat (apply elem_of_cons in Hin as [Hin|Hin];
                              [discriminate Hin|]).
    by apply elem_of_nil in Hin. }
  split; [exact H|].
  destruct (Create_bounds tt openThenPay H) as (j & Hj & Ht & _).
  exists j. split; [exact Hj|].
  apply (Ht (template bank rent)). cbn. repeat constructor.
Defined.

(** C7, the claim as stated fails: after two accounts are opened on day
    738800 and a payment is booked on day 738886, the bounds are
    [738886, 738886] and the date of the ingested open directives lies
    before the start. *)
Lemma Create_bounds_miss_open_directive :
  (DirOpen (mkOpen here 738800 bank) ∈ concat openThenPay)
  /\ Journal_Period <$> Create tt openThenPay
     = Some {| Start := 738886; End := 738886 |}
  /\ ~ (738886 <= Open_Date (mkOpen here 738800 bank) <= 738886).
Proof.
  split_and!.
  - cbn. repeat constructor.
  - vm_compute. reflexivity.
  - cbn. lia.
Qed.

End journal_facts.

(* ===================================================================== *)
(** * Ledger: further properties of postings, accruals and dates *)
(* ===================================================================== *)

Module ledger_more.
Import decimal ledger decimal_facts ledger_facts examples.

(** X1.  [NewPosting] returns postings in normal form: building a posting
    again from the fields of one it returned changes nothing. *)
Theorem NewPosting_idempotent cr dr c amt :
  let q := NewPosting cr dr c amt in
  NewPosting (Credit q) (Debit q) (Posting_Commodity q) (Amount q) = q.
Proof.
  cbv zeta. destruct (IsNegative amt) eqn:Hneg.
  - assert (NewPosting cr dr c amt = mkPosting (Neg amt) Zero dr cr c None)
      as -> by (unfold NewPosting; by rewrite Hneg).
    cbn [Credit Debit Posting_Commodity Amount]. apply NewPosting_nonneg.
    apply IsNegative_spec in Hneg. apply IsNegative_false. simpl. lia.
  - rewrite (NewPosting_nonneg cr dr c amt Hneg).
    cbn [Credit Debit Posting_Commodity Amount]. by apply NewPosting_nonneg.
Qed.

Section Expand.

Variable Series : Z -> Z -> Period -> list Z.

(** X2.  [Expand] panics exactly when the template has no posting or the
    series has fewer than two dates (none: the slice expression is out of
    range; one: the amount is divided by zero). *)
Theorem Expand_panics_iff a :
  Expand Series a = None <->
  Postings (Accrual_Transaction a) = []
  \/ (length (Series (T0 a) (T1 a) (Accrual_Period a)) < 2)%nat.
Proof.
  split.
  - intros Hnone.
    destruct (Postings (Accrual_Transaction a)) as [|p rest] eqn:Hp; [by left|].
    right.
    destruct (Series (T0 a) (T1 a) (Accrual_Period a)) as [|first dates] eqn:Hs;
      [simpl; lia|].
    destruct dates as [|d dates]; [simpl; lia|].
    destruct (Expand_returns Series a p rest first (d :: dates) Hp Hs)
      as (q & r & _ & Hex); [done|]. congruence.
  - intros [Hp|Hs]; unfold Expand.
    + by rewrite Hp.
    + destruct (Postings (Accrual_Transaction a)) as [|p rest]; [done|].
      destruct (legAccounts (Accrual_Account a) p) as [[[crS drS] crM] drM].
      destruct (Series (T0 a) (T1 a) (Accrual_Period a)) as [|first dates];
        [done|].
      destruct dates as [|d dates]; [done | simpl in Hs; lia].
Qed.

(** X3.  Every transaction [Expand] returns holds exactly one posting, between
    two different accounts, of a non-negative amount and of the commodity
    of the template posting, and carries the range and the tags of the
    template. *)
Theorem Expand_transactions_wellformed a p rest txs :
  Postings (Accrual_Transaction a) = p :: rest ->
  Expand Series a = Some txs ->
  Forall (fun t =>
            Transaction_Range t = Transaction_Range (Accrual_Transaction a)
            /\ Tags t = Tags (Accrual_Transaction a)
            /\ exists q,
                Postings t = [q]
                /\ Credit q <> Debit q
                /\ IsNegative (Amount q) = false
                /\ Posting_Commodity q = Posting_Commodity p) txs.
Proof.
  intros Hp Hex.
  assert (forall cr dr amt,
            cr <> dr ->
            let q := NewPosting cr dr (Posting_Commodity p) amt in
            Credit q <> Debit q /\ IsNegative (Amount q) = false
            /\ Posting_Commodity q = Posting_Commodity p) as Hnew.
  { intros cr dr amt Hne. cbv zeta. unfold NewPosting.
    destruct (IsNegative amt) eqn:Hneg; cbn [Credit Debit Amount Posting_Commodity].
    - split_and!; [by intros -> | | done].
      apply IsNegative_spec in Hneg. apply IsNegative_false. simpl. lia.
    - by split_and!. }
  unfold Expand in Hex. rewrite Hp in Hex.
  destruct (legAccounts (Accrual_Account a) p) as [[[crS drS] crM] drM].
  destruct (Series (T0 a) (T1 a) (Accrual_Period a)) as [|first dates];
    [done|].
  destruct (QuoRem _ _ _) as [[q r]|]; [|done].
  injection Hex as <-.
  assert (Forall (fun t =>
            Transaction_Range t = Transaction_Range (Accrual_Transaction a)
            /\ Tags t = Tags (Accrual_Transaction a)
            /\ exists q,
                Postings t = [q]
                /\ Credit q <> Debit q
                /\ IsNegative (Amount q) = false
                /\ Posting_Commodity q = Posting_Commodity p)
            (if decide (crM <> drM) then
               imap (multiTransaction (Accrual_Transaction a) p crM drM q r
                       (length dates)) dates
             else [])) as Hmulti.
  { destruct (decide (crM <> drM)) as [Hne|]; [|constructor].
    apply Forall_forall. intros t Ht.
    apply elem_of_lookup_imap_1 in Ht as (i & date & -> & _).
    split_and!; [done..|]. eexists. split; [reflexivity|]. by apply Hnew. }
  destruct (decide (crS <> drS)) as [Hne|]; [|exact Hmulti].
  apply Forall_app. split; [exact Hmulti|].
  constructor; [|constructor].
  split_and!; [done..|]. eexists. split; [reflexivity|]. by apply Hnew.
Qed.

End Expand.

(** The rent accrual expands into well-formed transactions. *)
Lemma Expand_transactions_wellformed_witness :
  (Postings (Accrual_Transaction rentAccrual) = [posting100 bank rent]
   /\ exists txs, Expand quarter rentAccrual = Some txs)
  /\ exists txs,
      Expand quarter rentAccrual = Some txs
      /\ Forall (fun t => exists q, Postings t = [q] /\ Credit q <> Debit q) txs.
Proof.
  split; [split; [reflexivity | eexists; vm_compute; reflexivity]|].
  eexists. split; [vm_compute; reflexivity|].
  eapply Forall_impl.
  - apply (Expand_transactions_wellformed quarter rentAccrual
             (posting100 bank rent) [] _ eq_refl).
    vm_compute. reflexivity.
  - intros t (_ & _ & q & Hq & Hne & _). by exists q.
Defined.

(** A non-empty list that is sorted ends in an element that its head does
    not exceed. *)
Lemma last_of_sorted (s : Day) (post : list Day) x :
  StronglySorted (fun a b => Day_Date a <= Day_Date b) (s :: post) ->
  last (s :: post) = Some x ->
  Day_Date s <= Day_Date x.
Proof.
  intros Hsorted Hlast. apply StronglySorted_inv in Hsorted as [_ Hall].
  assert (x ∈ s :: post) as Hin.
  { apply last_Some in Hlast as [l' Hl']. rewrite Hl'.
    apply elem_of_app. right. repeat constructor. }
  apply elem_of_cons in Hin as [->|Hin]; [lia|].
  rewrite Forall_forall in Hall. by apply Hall.
Qed.

(** X4.  Without explicit bounds [Dates] runs from the first day with an
    opening to the last day of the ledger: whenever [MinDate] finds a
    date, [MaxDate] finds one too, [Dates] is the series between the two,
    and on a ledger whose days are in ascending order the first does not
    exceed the second. *)
Theorem Dates_default_range (Series : Z -> Z -> Period -> list Z) l d :
  MinDate l = Some d ->
  exists d',
    MaxDate l = Some d'
    /\ (forall period, Dates Series l None None period = Series d d' period)
    /\ (StronglySorted (fun a b => Day_Date a <= Day_Date b) (Days l) ->
        d <= d').
Proof.
  intros Hmin. pose proof Hmin as Hsplit.
  apply MinDate_loop_Some in Hsplit as (pre & s & post & Hdays & _ & _ & Hd).
  destruct (last (Days l)) as [x|] eqn:Hlast;
    [|rewrite Hdays in Hlast; apply last_None in Hlast; by destruct pre].
  assert (MaxDate l = Some (Day_Date x)) as Hmax.
  { unfold MaxDate. rewrite Hlast, Hdays.
    destruct pre; simpl; done. }
  exists (Day_Date x). split_and!; [done| |].
  - intros period. unfold Dates. by rewrite Hmin, Hmax.
  - intros Hsorted. rewrite Hdays in Hsorted, Hlast. subst d.
    apply StronglySorted_app_1_r in Hsorted.
    rewrite last_app_cons in Hlast. by apply (last_of_sorted s post).
Qed.

(** The opened ledger runs from the day of the openings to the day of the
    payment. *)
Lemma Dates_default_range_witness :
  MinDate openedLedger = Some 738800
  /\ MaxDate openedLedger = Some 738886
  /\ Dates quarter openedLedger None None Monthly = quarter 738800 738886 Monthly.
Proof.
  split; [reflexivity|]. split; [reflexivity|].
  destruct (Dates_default_range quarter openedLedger 738800 eq_refl)
    as (d' & Hmax & Hdates & _).
  injection Hmax as <-. apply Hdates.
Defined.

End ledger_more.

(* ===================================================================== *)
(** * Balance: further properties of booking, copies and differences *)
(* ===================================================================== *)

Module balance_more.
Import decimal ledger balance decimal_facts ledger_facts balance_facts examples.

Section Booking.

Context {Accounts : Type}.
Variable IsOpen : Accounts -> Account -> bool.

Implicit Types b : @Balance Accounts.

(** X5.  Booking an amount and then booking it back gives every entry the
    value it had. *)
Theorem Book_reversal b cr dr a c pos :
  toQc (Amounts (Book (Book b cr dr a c) dr cr a c) !!! pos)
  = toQc (Amounts b !!! pos).
Proof.
  rewrite !Book_effect. rewrite <- (effect_swap dr cr c (toQc a) pos).
  unfold effect. repeat case_decide; ring.
Qed.

(** X6.  The normal form of a posting books like the posting itself: booking
    [NewPosting cr dr c amt] changes every entry as booking [amt] from
    [cr] to [dr] does, also for a negative [amt]. *)
Theorem NewPosting_books_alike b cr dr c amt pos :
  toQc (Amounts (bookPosting b (NewPosting cr dr c amt)) !!! pos)
  = toQc (Amounts (Book b cr dr amt c) !!! pos).
Proof.
  rewrite Book_effect.
  change (bookPosting b (NewPosting cr dr c amt))
    with (foldl bookPosting b [NewPosting cr dr c amt]).
  by rewrite foldl_bookPosting_lookup, netEffect_NewPosting.
Qed.

(** X7.  The value of every entry after booking a list of postings does not
    depend on the order of the postings. *)
Theorem booking_order_irrelevant b ps1 ps2 pos :
  ps1 ≡ₚ ps2 ->
  toQc (Amounts (foldl bookPosting b ps1) !!! pos)
  = toQc (Amounts (foldl bookPosting b ps2) !!! pos).
Proof.
  intros Hperm. rewrite !foldl_bookPosting_lookup.
  by rewrite (netEffect_Permutation ps1 ps2 pos Hperm).
Qed.

End Booking.

(** ** Accrual expansion conserves the template posting *)

Lemma netEffect_imap_NewPosting cr dr c (f : nat -> Z -> Decimal)
    (dates : list Z) pos :
  netEffect (imap (fun i x => NewPosting cr dr c (f i x)) dates) pos
  = effect cr dr c (sumQc (imap f dates)) pos.
Proof.
  revert f. induction dates as [|d dates IH]; intros f.
  - simpl. by rewrite effect_zero.
  - rewrite !imap_cons. cbn [sumQc foldr].
    change (foldr _ _ ?l) with (sumQc l).
    rewrite effect_linear. unfold compose. cbv beta.
    rewrite <- (IH (fun i => f (S i))).
    change (NewPosting cr dr c (f 0%nat d) :: ?l)
      with ([NewPosting cr dr c (f 0%nat d)] ++ l).
    by rewrite netEffect_app, netEffect_NewPosting.
Qed.

Lemma netEffect_shares cr dr c (q r : Decimal) (dates : list Z) pos :
  netEffect (imap (fun i _ => NewPosting cr dr c
                                (if (i =? 0)%nat then Add q r else q)) dates) pos
  = effect cr dr c
      (sumQc (imap (fun i _ => if (i =? 0)%nat then Add q r else q) dates)) pos.
Proof.
  apply (netEffect_imap_NewPosting cr dr c
           (fun i _ => if (i =? 0)%nat then Add q r else q)).
Qed.

Section Conservation.

Context {Accounts : Type}.
Variable Series : Z -> Z -> Period -> list Z.

(** X8.  Booking every posting of the expanded transactions changes every
    entry of a balance exactly as booking the template posting does: the
    split account nets to zero and nothing is lost to rounding, whatever
    the account types and the sign of the amount. *)
Theorem Expand_conserves_template (b : @Balance Accounts) a p rest txs pos :
  Postings (Accrual_Transaction a) = p :: rest ->
  Expand Series a = Some txs ->
  toQc (Amounts (foldl bookPosting b (txs ≫= Postings)) !!! pos)
  = toQc (Amounts (bookPosting b p) !!! pos).
Proof.
  intros Hp Hex.
  destruct (Series (T0 a) (T1 a) (Accrual_Period a)) as [|first dates] eqn:Hs.
  { unfold Expand in Hex. rewrite Hp, Hs in Hex.
    by destruct (legAccounts (Accrual_Account a) p) as [[[? ?] ?] ?]. }
  destruct dates as [|d dates].
  { unfold Expand in Hex. rewrite Hp, Hs in Hex.
    by destruct (legAccounts (Accrual_Account a) p) as [[[? ?] ?] ?]. }
  destruct (Expand_postings Series a p rest first (d :: dates) Hp Hs)
    as (q & r & txs' & Hq & Hex' & Hrest); [done|].
  assert (txs' = txs) as -> by congruence.
  pose proof (QuoRem_exact _ _ _ _ _ Hq) as Hexact.
  rewrite toQc_NewFromInt in Hexact.
  assert (sumQc (imap (fun i _ => if (i =? 0)%nat then Add q r else q)
                   (d :: dates)) = toQc (ledger.Amount p)) as Hsum.
  { rewrite sumQc_shares by done. rewrite Hexact. ring. }
  change (bookPosting b p) with (foldl bookPosting b [p]).
  rewrite !foldl_bookPosting_lookup. f_equal.
  unfold legAccounts in Hrest.
  set (C := Credit p) in *. set (D := Debit p) in *.
  set (S := Accrual_Account a) in *. set (c := Posting_Commodity p) in *.
  assert (forall crS drS crM drM,
    (effect crS drS c (toQc (ledger.Amount p)) pos
     + effect crM drM c (toQc (ledger.Amount p)) pos)%Qc
    = effect C D c (toQc (ledger.Amount p)) pos ->
    txs ≫= Postings
    = (if decide (crM <> drM) then
         imap (fun i _ => NewPosting crM drM c
                            (if (i =? 0)%nat then Add q r else q)) (d :: dates)
       else [])
      ++ (if decide (crS <> drS) then [NewPosting crS drS c (ledger.Amount p)]
          else []) ->
    netEffect (txs ≫= Postings) pos = netEffect [p] pos) as Hcase.
  { intros crS drS crM drM Heff ->. rewrite netEffect_app.
    assert (netEffect [p] pos = effect C D c (toQc (ledger.Amount p)) pos) as ->
      by (unfold netEffect, C, D, c; cbn [foldr]; apply Qcplus_0_r).
    rewrite <- Heff.
    assert (netEffect (if decide (crM <> drM) then
                         imap (fun i _ => NewPosting crM drM c
                                 (if (i =? 0)%nat then Add q r else q))
                           (d :: dates)
                       else []) pos
            = effect crM drM c (toQc (ledger.Amount p)) pos) as ->.
    { destruct (decide (crM <> drM)) as [|Heq].
      - by rewrite netEffect_shares, Hsum.
      - apply dec_stable in Heq as ->. by rewrite effect_same. }
    assert (netEffect (if decide (crS <> drS)
                       then [NewPosting crS drS c (ledger.Amount p)] else []) pos
            = effect crS drS c (toQc (ledger.Amount p)) pos) as ->.
    { destruct (decide (crS <> drS)) as [|Heq].
      - apply netEffect_NewPosting.
      - apply dec_stable in Heq as ->. by rewrite effect_same. }
    ring. }
  destruct (isAL C && isIE D).
  { apply (Hcase C S S D); [apply effect_chain | apply Hrest]. }
  destruct (isIE C && isAL D).
  { apply (Hcase S D C S); [|apply Hrest].
    rewrite Qcplus_comm. apply effect_chain. }
  destruct (isIE C && isIE D).
  { apply (Hcase S S C D); [|apply Hrest]. rewrite effect_same. ring. }
  apply (Hcase C D S S); [|apply Hrest]. rewrite effect_same. ring.
Qed.

End Conservation.

(** ** Copies, values and differences *)

Lemma copyPositions_lookup (target m : gmap CommodityAccount Decimal) pos :
  copyPositions target m !! pos
  = match m !! pos with
    | Some v => Some v
    | None => target !! pos
    end.
Proof.
  unfold copyPositions. revert pos.
  apply (map_fold_weak_ind
           (fun (r : gmap CommodityAccount Decimal) m =>
              forall pos,
                r !! pos = match m !! pos with
                           | Some v => Some v
                           | None => target !! pos
                           end)).
  - intros pos. by rewrite lookup_empty.
  - intros i x m' r Hfresh IH pos.
    destruct (decide (i = pos)) as [->|Hne].
    + by rewrite !lookup_insert_eq.
    + rewrite !lookup_insert_ne by done. apply IH.
Qed.

Lemma copyPositions_empty (m : gmap CommodityAccount Decimal) :
  copyPositions ∅ m = m.
Proof.
  apply map_eq. intros pos. rewrite copyPositions_lookup, lookup_empty.
  by destruct (m !! pos).
Qed.

(** One loop of [Minus] subtracts the sums of every commodity. *)
Lemma minusPositions_commoditySum (m mo : gmap CommodityAccount Decimal) c :
  commoditySum (minusPositions m mo) c
  = (commoditySum m c - commoditySum mo c)%Qc.
Proof.
  unfold minusPositions.
  apply (map_fold_weak_ind
           (fun (r : gmap CommodityAccount Decimal) mo =>
              commoditySum r c = (commoditySum m c - commoditySum mo c)%Qc)).
  - rewrite commoditySum_empty. ring.
  - intros i x mo' r Hfresh IH.
    rewrite commoditySum_insert, (commoditySum_insert_fresh mo') by done.
    rewrite IH. unfold contribution. case_decide; [|ring].
    rewrite toQc_Sub. ring.
Qed.

Lemma minusPositions_dom (m mo : gmap CommodityAccount Decimal) :
  dom (minusPositions m mo) = dom m ∪ dom mo.
Proof.
  apply set_eq. intros pos.
  rewrite elem_of_union, !elem_of_dom, minusPositions_lookup.
  destruct (mo !! pos) as [va|].
  - split; [intros _; right; by eexists | intros _; by eexists].
  - split; [by left | intros [H|[? H]]; [done | discriminate H]].
Qed.

Section Copies.

Context {Accounts : Type}.
Variable IsOpen : Accounts -> Account -> bool.
Variable emptyAccounts : Accounts.
Variable Copy : Accounts -> Accounts.

Implicit Types b bo : @Balance Accounts.

(** X9.  [Snapshot] copies the balance faithfully: the copy holds the same
    amounts and values, entry for entry, the same date and valuation, and
    the copy of the open accounts. *)
Theorem Snapshot_copies b :
  Amounts (Snapshot emptyAccounts Copy b) = Amounts b
  /\ Values (Snapshot emptyAccounts Copy b) = Values b
  /\ Balance_Date (Snapshot emptyAccounts Copy b) = Balance_Date b
  /\ Valuation (Snapshot emptyAccounts Copy b) = Valuation b
  /\ Balance_Accounts (Snapshot emptyAccounts Copy b)
     = Copy (Balance_Accounts b).
Proof.
  unfold Snapshot. cbn [Amounts Values Balance_Date Valuation Balance_Accounts New].
  split_and!; [apply copyPositions_empty | apply copyPositions_empty | done..].
Qed.

Lemma bookValuePosting_commoditySum b p c :
  commoditySum (Values (bookValuePosting b p)) c = commoditySum (Values b) c.
Proof.
  unfold bookValuePosting. cbn [Values setValues].
  rewrite !commoditySum_insert. unfold contribution. cbn [CA_Commodity].
  case_decide; [|ring]. rewrite toQc_Add, toQc_Sub. ring.
Qed.

Lemma foldl_bookValuePosting_keeps ps b :
  Amounts (foldl bookValuePosting b ps) = Amounts b
  /\ Balance_Accounts (foldl bookValuePosting b ps) = Balance_Accounts b
  /\ Balance_Date (foldl bookValuePosting b ps) = Balance_Date b
  /\ (forall c, commoditySum (Values (foldl bookValuePosting b ps)) c
                = commoditySum (Values b) c).
Proof.
  revert b. induction ps as [|p ps IH]; intros b; [done|].
  cbn [foldl]. destruct (IH (bookValuePosting b p)) as (Ha & Hacc & Hd & Hsum).
  split_and!; [by rewrite Ha | by rewrite Hacc | by rewrite Hd |].
  intros c. by rewrite Hsum, bookValuePosting_commoditySum.
Qed.

Lemma BookAmount_loop_Values t ps b :
  Values (BookAmount_loop IsOpen t ps b).1 = Values b.
Proof.
  revert b. induction ps as [|p ps IHps]; intros b; [done|].
  cbn [BookAmount_loop].
  destruct (IsOpen (Balance_Accounts b) (Credit p)); [|done].
  destruct (IsOpen (Balance_Accounts b) (Debit p)); [|done].
  cbn [negb]. by rewrite IHps.
Qed.

(** X10.  [bookValue] never fails; it leaves the amounts, the date and the open
    accounts as they are and keeps the sum of the values of every
    commodity. *)
Theorem bookValue_keeps_balance b t :
  (bookValue b t).2 = None
  /\ Amounts (bookValue b t).1 = Amounts b
  /\ Balance_Accounts (bookValue b t).1 = Balance_Accounts b
  /\ Balance_Date (bookValue b t).1 = Balance_Date b
  /\ (forall c, commoditySum (Values (bookValue b t).1) c
                = commoditySum (Values b) c).
Proof.
  unfold bookValue. cbn [fst snd]. split; [done|].
  apply foldl_bookValuePosting_keeps.
Qed.

(** X11.  [Minus] subtracts the sums: for every commodity the sum of the
    amounts (and of the values) of the difference is the difference of the
    sums.  It removes no entry: the difference has an entry wherever one
    of the two balances has one. *)
Theorem Minus_sums b bo c :
  commoditySum (Amounts (Minus b bo)) c
  = (commoditySum (Amounts b) c - commoditySum (Amounts bo) c)%Qc
  /\ commoditySum (Values (Minus b bo)) c
     = (commoditySum (Values b) c - commoditySum (Values bo) c)%Qc
  /\ dom (Amounts (Minus b bo)) = dom (Amounts b) ∪ dom (Amounts bo)
  /\ dom (Values (Minus b bo)) = dom (Values b) ∪ dom (Values bo).
Proof.
  unfold Minus. cbn [Amounts Values setAmounts setValues].
  split_and!;
    [apply minusPositions_commoditySum | apply minusPositions_commoditySum
    | apply minusPositions_dom | apply minusPositions_dom].
Qed.

(** X12.  Subtracting a balance from itself leaves every amount and
    every value at zero, while every entry stays in place, in the amounts
    and in the values: [Minus] deletes nothing. *)
Theorem Minus_self b pos :
  toQc (Amounts (Minus b b) !!! pos) = 0%Qc
  /\ toQc (Values (Minus b b) !!! pos) = 0%Qc
  /\ dom (Amounts (Minus b b)) = dom (Amounts b)
  /\ dom (Values (Minus b b)) = dom (Values b).
Proof.
  split_and!.
  - rewrite Minus_Amounts. ring.
  - rewrite Minus_Values. ring.
  - unfold Minus. cbn [Amounts setAmounts setValues].
    rewrite minusPositions_dom. apply union_idemp_L.
  - unfold Minus. cbn [Values setAmounts setValues].
    rewrite minusPositions_dom. apply union_idemp_L.
Qed.

(** X13.  Every balance a run can hold is in equilibrium: the amounts of every
    commodity sum to zero over all accounts, and so do the values. *)
Theorem Built_in_equilibrium b :
  Built IsOpen emptyAccounts Copy b ->
  forall c,
    commoditySum (Amounts b) c = 0%Qc /\ commoditySum (Values b) c = 0%Qc.
Proof.
  induction 1 as [valuation|b t _ IH|b t _ IH|b _ IH|b bo _ IHb _ IHbo
                  |b date accounts _ IH]; intros c.
  - split; apply commoditySum_empty.
  - destruct (IH c) as [Ha Hv]. unfold BookAmount. split.
    + by rewrite BookAmount_loop_commoditySum.
    + by rewrite BookAmount_loop_Values.
  - destruct (IH c) as [Ha Hv]. unfold bookValue. cbn [fst].
    destruct (foldl_bookValuePosting_keeps (Postings t) b)
      as (Hamounts & _ & _ & Hsum).
    split; [by rewrite Hamounts | by rewrite Hsum].
  - destruct (IH c) as [Ha Hv]. unfold Snapshot. cbn [Amounts Values New].
    by rewrite !copyPositions_empty.
  - destruct (IHb c) as [Ha Hv]. destruct (IHbo c) as [Hao Hvo].
    unfold Minus. cbn [Amounts Values setAmounts setValues].
    rewrite !minusPositions_commoditySum, Ha, Hv, Hao, Hvo. split; ring.
  - exact (IH c).
Qed.

Lemma bind_ext_in {A B} (f g : A -> list B) (l : list A) :
  (forall x, x ∈ l -> f x = g x) -> l ≫= f = l ≫= g.
Proof.
  induction l as [|a l IH]; intros Hfg; [done|].
  change (f a ++ (l ≫= f) = g a ++ (l ≫= g)).
  rewrite Hfg by (by left). rewrite IH; [done|].
  intros x Hx. apply Hfg. by right.
Qed.

(** The maps of balances that have their maps are allocated. *)
Lemma owned_mapRefs (h : @Heap Accounts) (bals : list (option nat)) r :
  Forall (owned h) bals -> r ∈ bals ≫= mapRefs h ->
  exists m, r = Some m /\ m ∈ dom (maps h).
Proof.
  intros Hown Hr. apply list_elem_of_bind in Hr as (q & Hr & Hq).
  rewrite Forall_forall in Hown. destruct (Hown q Hq) as (o & Hd & Ha & Hv).
  unfold mapRefs in Hr. rewrite Hd in Hr.
  apply elem_of_cons in Hr as [->|Hr];
    [|apply list_elem_of_singleton in Hr as ->].
  - destruct (Object_Amounts o) as [m|]; [|by destruct Ha].
    exists m. split; [done|]. by apply elem_of_dom.
  - destruct (Object_Values o) as [m|]; [|by destruct Hv].
    exists m. split; [done|]. by apply elem_of_dom.
Qed.

(** X26.  [Snapshot] on the heap makes a balance of its own: it returns
    a new object with two new maps that holds the copy [Snapshot] of the
    receiver; appended to balances that the heap holds apart from each
    other it lies apart from them too, and they read as before.  Lists
    of snapshots are therefore held apart. *)
Theorem Snapshot_at_apart (h : @Heap Accounts) (b : option nat)
    (bals : list (option nat)) (orig : list (@Balance Accounts)) bv :
  stores h bals orig ->
  load h b = Some bv ->
  exists p h',
    Snapshot_at Copy h b = Some (p, h')
    /\ load h' p = Some (Snapshot emptyAccounts Copy bv)
    /\ (p ∉ bals)
    /\ stores h' (bals ++ [p]) (orig ++ [Snapshot emptyAccounts Copy bv]).
Proof.
  intros [Horig [Hown Hnd]] Hbv. unfold load in Hbv.
  destruct (deref h b) as [o|] eqn:Hb; [|done].
  cbn in Hbv. injection Hbv as <-.
  set (ma := fresh (dom (maps h))).
  set (mv := fresh ({[ma]} ∪ dom (maps h))).
  set (nb := fresh (dom (objects h))).
  assert (ma ∉ dom (maps h)) as Hma by apply is_fresh.
  assert (mv ∉ {[ma]} ∪ dom (maps h)) as Hmv by apply is_fresh.
  assert (nb ∉ dom (objects h)) as Hnb by apply is_fresh.
  rewrite not_elem_of_union, not_elem_of_singleton in Hmv.
  destruct Hmv as [Hne Hmv].
  eexists (Some nb), _. unfold Snapshot_at. rewrite Hb. cbn.
  fold ma mv nb. split; [reflexivity|].
  set (h' := {| objects := _; maps := _ |}).
  assert (load h' (Some nb)
          = Some (Snapshot emptyAccounts Copy
                    {| Balance_Date := Object_Date o;
                       Amounts := contents h (Object_Amounts o);
                       Values := contents h (Object_Values o);
                       Balance_Accounts := Object_Accounts o;
                       Valuation := Object_Valuation o |})) as Hnew.
  { unfold load, deref, h'. cbn. rewrite lookup_insert_eq. cbn.
    unfold contents. cbn.
    rewrite lookup_insert_eq, lookup_insert_ne by done.
    rewrite lookup_insert_eq. done. }
  assert (forall q, q ∈ bals -> deref h' q = deref h q) as Hderef.
  { intros q Hq. rewrite Forall_forall in Hown.
    destruct (Hown q Hq) as (oq & Hdq & _). unfold deref in *.
    destruct q as [l|]; [|done]. cbn in *. unfold h'. cbn.
    apply lookup_insert_ne. intros <-. apply Hnb. by apply elem_of_dom_2 in Hdq. }
  assert (forall m, m ∈ dom (maps h) -> maps h' !! m = maps h !! m) as Hmaps.
  { intros m Hm. unfold h'. cbn.
    rewrite !lookup_insert_ne; [done | by intros <- | by intros <-]. }
  assert (forall q, q ∈ bals -> mapRefs h' q = mapRefs h q) as Hrefs.
  { intros q Hq. unfold mapRefs. by rewrite Hderef. }
  assert (forall q, q ∈ bals -> load h' q = load h q) as Hloads.
  { intros q Hq. apply load_ext_deref; [by apply Hderef|].
    intros m Hm. apply Hmaps.
    destruct (owned_mapRefs h bals (Some m) Hown) as (m' & [= <-] & Hm');
      [|done].
    apply list_elem_of_bind. by exists q. }
  assert (Some nb ∉ bals) as Hnotin.
  { intros Hin. rewrite Forall_forall in Hown.
    destruct (Hown _ Hin) as (oq & Hdq & _). cbn in Hdq.
    apply Hnb. by apply elem_of_dom_2 in Hdq. }
  split; [exact Hnew|]. split; [exact Hnotin|]. split; [|split].
  - apply Forall2_app; [|by repeat constructor].
    apply Forall2_same_length_lookup_2; [by eapply Forall2_length|].
    intros i q bq Hq Hbq.
    rewrite Hloads by (by eapply list_elem_of_lookup_2).
    exact (Forall2_lookup_lr _ _ _ _ _ _ Horig Hq Hbq).
  - apply Forall_app. split.
    + apply Forall_forall. intros q Hq. rewrite Forall_forall in Hown.
      destruct (Hown q Hq) as (oq & Hdq & Ha & Hv).
      exists oq. rewrite Hderef by done. split; [done|].
      assert (forall r : option nat,
                is_Some (r ≫= (maps h !!.)) -> is_Some (r ≫= (maps h' !!.)))
        as Hs.
      { intros [m|]; cbn; [|done]. intros Hm.
        rewrite Hmaps; [done | by apply elem_of_dom]. }
      split; by apply Hs.
    + repeat constructor. eexists. split.
      * unfold deref, h'. cbn. apply lookup_insert_eq.
      * cbn. unfold h'. cbn. split.
        -- rewrite lookup_insert_ne by done. rewrite lookup_insert_eq.
           by eexists.
        -- rewrite lookup_insert_eq. by eexists.
  - rewrite bind_app. apply NoDup_app. split_and!.
    + by rewrite (bind_ext_in (mapRefs h') (mapRefs h) bals Hrefs).
    + intros r Hr. cbn. rewrite app_nil_r.
      rewrite (bind_ext_in (mapRefs h') (mapRefs h) bals Hrefs) in Hr.
      destruct (owned_mapRefs h bals r Hown Hr) as (m & -> & Hm).
      unfold mapRefs, deref, h'. cbn. rewrite lookup_insert_eq. cbn.
      rewrite !elem_of_cons, elem_of_nil.
      intros [[= Heq]|[[= Heq]|[]]]; rewrite Heq in Hm; done.
    + cbn. rewrite app_nil_r.
      unfold mapRefs, deref, h'. cbn. rewrite lookup_insert_eq. cbn.
      apply NoDup_cons. split; [|apply NoDup_singleton].
      rewrite list_elem_of_singleton. intros [= Heq]. congruence.
Qed.

End Copies.

(** ** What booking and differencing leave alone *)

Section Frames.

Context {Accounts : Type}.
Variable IsOpen : Accounts -> Account -> bool.

Implicit Types b : @Balance Accounts.
Implicit Types h : @Heap Accounts.

Lemma BookAmount_loop_frame t ps b :
  Values (BookAmount_loop IsOpen t ps b).1 = Values b
  /\ Balance_Accounts (BookAmount_loop IsOpen t ps b).1 = Balance_Accounts b
  /\ Balance_Date (BookAmount_loop IsOpen t ps b).1 = Balance_Date b
  /\ Valuation (BookAmount_loop IsOpen t ps b).1 = Valuation b
  /\ (forall pos,
        Forall (fun p =>
                  pos <> mkCommodityAccount (Credit p) (Posting_Commodity p)
                  /\ pos <> mkCommodityAccount (Debit p) (Posting_Commodity p))
          ps ->
        Amounts (BookAmount_loop IsOpen t ps b).1 !! pos = Amounts b !! pos).
Proof.
  revert b. induction ps as [|p ps IH]; intros b; [done|].
  cbn [BookAmount_loop].
  destruct (IsOpen (Balance_Accounts b) (Credit p)); [|done].
  destruct (IsOpen (Balance_Accounts b) (Debit p)); [|done].
  cbn [negb].
  destruct (IH (Book b (Credit p) (Debit p) (ledger.Amount p)
                  (Posting_Commodity p))) as (Hv & Hacc & Hd & Hval & Hframe).
  split_and!; [done..|].
  intros pos Hpos. apply Forall_cons in Hpos as [[Hcr Hdr] Hrest].
  rewrite (Hframe pos Hrest). unfold Book. cbn [Amounts setAmounts].
  by rewrite !lookup_insert_ne.
Qed.

(** X14.  [BookAmount] changes nothing but the entries of the credit and debit
    positions of its postings: the values, the open accounts, the date
    and the valuation stay as they are, and so does every entry of the
    amounts at a position no posting names, present or absent. *)
Theorem BookAmount_frame b t :
  Values (BookAmount IsOpen b t).1 = Values b
  /\ Balance_Accounts (BookAmount IsOpen b t).1 = Balance_Accounts b
  /\ Balance_Date (BookAmount IsOpen b t).1 = Balance_Date b
  /\ Valuation (BookAmount IsOpen b t).1 = Valuation b
  /\ (forall pos,
        Forall (fun p =>
                  pos <> mkCommodityAccount (Credit p) (Posting_Commodity p)
                  /\ pos <> mkCommodityAccount (Debit p) (Posting_Commodity p))
          (Postings t) ->
        Amounts (BookAmount IsOpen b t).1 !! pos = Amounts b !! pos).
Proof. apply BookAmount_loop_frame. Qed.

(** [Minus] and the loop of [Diffs] do not panic on balances that have
    their maps, whether or not maps are shared. *)
Lemma Minus_at_owned h (b bo : option nat) :
  owned h b -> owned h bo -> is_Some (Minus_at h b bo).
Proof.
  intros (o & Hb & Ha & Hv) (o' & Hbo & _ & _).
  destruct (Object_Amounts o) as [ma|] eqn:Hma; [|by destruct Ha].
  destruct (Object_Values o) as [mv|] eqn:Hmv; [|by destruct Hv].
  cbn in Ha, Hv. destruct Ha as [ta Hta], Hv as [tv Htv].
  destruct (subtract_owned h b Object_Amounts (contents h (Object_Amounts o'))
              o ma ta Hb Hma Hta) as (h1 & H1 & Ho1 & Hm1).
  assert (deref h1 b = Some o) as Hb1 by (unfold deref in *; by rewrite Ho1).
  assert (is_Some (maps h1 !! mv)) as [tv1 Htv1].
  { rewrite Hm1. destruct (decide (ma = mv)) as [->|Hne].
    - rewrite lookup_insert_eq. by eexists.
    - rewrite lookup_insert_ne by done. by eexists. }
  destruct (subtract_owned h1 b Object_Values (contents h1 (Object_Values o'))
              o mv tv1 Hb1 Hmv Htv1) as (h2 & H2 & _).
  exists h2. unfold Minus_at. rewrite Hbo. cbn. rewrite H1. cbn. exact H2.
Qed.

Lemma Diffs_loop_owned i (bals : list (option nat)) h :
  Forall (owned h) bals -> (i < length bals)%nat ->
  is_Some (Diffs_loop i bals h).
Proof.
  revert h. induction i as [|i IH]; intros h Hown Hlen; [by eexists|].
  destruct (lookup_lt_is_Some_2 bals (S i) Hlen) as [b Hb].
  destruct (lookup_lt_is_Some_2 bals i ltac:(lia)) as [bo Hbo].
  destruct (Minus_at_owned h b bo) as [h1 H1].
  { exact (proj1 (Forall_lookup _ _) Hown _ _ Hb). }
  { exact (proj1 (Forall_lookup _ _) Hown _ _ Hbo). }
  cbn [Diffs_loop]. rewrite Hb, Hbo. cbn. rewrite H1. cbn.
  apply Minus_at_frame in H1 as (Ho1 & Hd1 & _).
  apply IH; [|lia].
  eapply Forall_impl; [exact Hown|]. intros p. by apply owned_ext.
Qed.

(** The loop panics when it comes to subtract a nil balance. *)
Lemma Diffs_loop_nil i (bals : list (option nat)) h j p :
  (j < i)%nat -> (i < length bals)%nat ->
  bals !! j = Some p -> deref h p = None ->
  Diffs_loop i bals h = None.
Proof.
  revert h. induction i as [|i IH]; intros h Hj Hlen Hp Hnil; [lia|].
  destruct (lookup_lt_is_Some_2 bals (S i) Hlen) as [b Hb].
  destruct (lookup_lt_is_Some_2 bals i ltac:(lia)) as [bo Hbo].
  cbn [Diffs_loop]. rewrite Hb, Hbo. cbn.
  destruct (decide (j = i)) as [->|Hne].
  - rewrite Hbo in Hp. injection Hp as ->.
    unfold Minus_at. by rewrite Hnil.
  - destruct (Minus_at h b bo) as [h1|] eqn:H1; [|done]. cbn.
    apply Minus_at_frame in H1 as (Ho1 & _ & _).
    apply IH; [lia | lia | done |].
    unfold deref in *. by rewrite Ho1.
Qed.

(** X15.  When [Diffs] panics and when it does not: it panics on the
    empty slice, and on a slice in which an entry other than the last is
    nil; a slice of one entry is returned empty without a look at its
    balance; a slice of balances that have their maps is returned without
    a panic, whether or not maps are shared; and a nil last entry does no
    harm after a balance without entries, where nothing is subtracted and
    the receiver is not dereferenced. *)
Theorem Diffs_panics (bals : list (option nat)) h :
  Diffs [] h = None
  /\ (forall p, Diffs [p] h = Some ([], h))
  /\ (forall j p,
        (S j < length bals)%nat -> bals !! j = Some p -> deref h p = None ->
        Diffs bals h = None)
  /\ (bals <> [] -> Forall (owned h) bals ->
      exists h', Diffs bals h = Some (tail bals, h'))
  /\ (forall p po bov,
        load h po = Some bov -> Amounts bov = ∅ -> Values bov = ∅ ->
        Diffs [po; p] h = Some ([p], h)).
Proof.
  split_and!; [done | done | | |].
  - intros j p Hj Hp Hnil. destruct bals as [|p0 rest]; [done|].
    unfold Diffs. cbn [length]. rewrite Nat.sub_succ, Nat.sub_0_r.
    rewrite (Diffs_loop_nil (length rest) (p0 :: rest) h j p);
      [done | simpl in Hj; lia | simpl; lia | done | done].
  - intros Hne Hown. destruct bals as [|p0 rest]; [done|].
    destruct (Diffs_loop_owned (length rest) (p0 :: rest) h Hown)
      as [h' Hloop]; [simpl; lia|].
    exists h'. unfold Diffs. cbn [length].
    by rewrite Nat.sub_succ, Nat.sub_0_r, Hloop.
  - intros p po bov Hload Ha Hv. unfold load in Hload.
    destruct (deref h po) as [o|] eqn:Hpo; [|done].
    cbn in Hload. injection Hload as <-. cbn in Ha, Hv.
    unfold Diffs. cbn. unfold Minus_at. rewrite Hpo. cbn.
    unfold subtract at 2. rewrite Ha, decide_True by done. cbn.
    unfold subtract. by rewrite Hv, decide_True by done.
Qed.

(** X16.  [Diffs] returns the slice without its first entry.  It writes
    to no balance object and allocates no map, and the only maps it
    changes are maps of the balances it returns: a balance that shares no
    map with a returned balance, as the first balance of a slice of
    balances lying apart does, reads after [Diffs] as it read before. *)
Theorem Diffs_frame (bals : list (option nat)) h returned h' :
  Diffs bals h = Some (returned, h') ->
  returned = tail bals
  /\ objects h' = objects h
  /\ dom (maps h') = dom (maps h)
  /\ (forall m, (forall q, q ∈ returned -> Some m ∉ mapRefs h q) ->
                maps h' !! m = maps h !! m)
  /\ (forall p,
        (forall q m, q ∈ returned -> Some m ∈ mapRefs h p ->
                     Some m ∉ mapRefs h q) ->
        load h' p = load h p).
Proof.
  unfold Diffs. destruct bals as [|p0 rest]; [by destruct (Diffs_loop _ _ _)|].
  cbn [length]. rewrite Nat.sub_succ, Nat.sub_0_r.
  destruct (Diffs_loop (length rest) (p0 :: rest) h) as [h1|] eqn:Hloop;
    [|done].
  cbn. intros [= <- <-].
  apply Diffs_loop_frame in Hloop as (Ho & Hd & Hf).
  assert (forall m, (forall q, q ∈ rest -> Some m ∉ mapRefs h q) ->
                    maps h1 !! m = maps h !! m) as Hmaps.
  { intros m Hm. apply Hf. intros j q _ Hq. apply Hm.
    by eapply list_elem_of_lookup_2. }
  split_and!; [done | done | done | exact Hmaps |].
  intros p Hp. apply load_ext; [done|].
  intros m Hm. apply Hmaps. intros q Hq. by apply Hp.
Qed.

End Frames.

(** ** The sample data *)

(** Paying the rent and getting it back, in either order. *)
Lemma booking_order_irrelevant_witness :
  [posting100 bank rent; posting100 rent bank]
  ≡ₚ [posting100 rent bank; posting100 bank rent]
  /\ forall pos,
      toQc (Amounts (foldl bookPosting emptyBalance
                       [posting100 bank rent; posting100 rent bank]) !!! pos)
      = toQc (Amounts (foldl bookPosting emptyBalance
                         [posting100 rent bank; posting100 bank rent]) !!! pos).
Proof.
  assert ([posting100 bank rent; posting100 rent bank]
          ≡ₚ [posting100 rent bank; posting100 bank rent]) as H
    by apply perm_swap.
  split; [exact H|].
  intros pos. apply (booking_order_irrelevant emptyBalance _ _ pos H).
Defined.

(** Booking the expanded rent accrual is booking its template posting. *)
Lemma Expand_conserves_template_witness :
  Postings (Accrual_Transaction rentAccrual) = [posting100 bank rent]
  /\ exists txs,
      Expand quarter rentAccrual = Some txs
      /\ forall pos,
          toQc (Amounts (foldl bookPosting emptyBalance (txs ≫= Postings))
                !!! pos)
          = toQc (Amounts (bookPosting emptyBalance (posting100 bank rent))
                  !!! pos).
Proof.
  split; [reflexivity|].
  eexists. split; [vm_compute; reflexivity|].
  intros pos.
  apply (Expand_conserves_template quarter emptyBalance rentAccrual
           (posting100 bank rent) [] _ pos eq_refl).
  vm_compute. reflexivity.
Defined.

(** A new balance on which the rent is booked is in equilibrium. *)
Lemma Built_in_equilibrium_witness :
  Built isOpenIn [bank; rent] id
    (BookAmount isOpenIn (New [bank; rent] None) (template bank rent)).1
  /\ commoditySum
       (Amounts (BookAmount isOpenIn (New [bank; rent] None)
                   (template bank rent)).1) USD = 0%Qc.
Proof.
  assert (Built isOpenIn [bank; rent] id
            (BookAmount isOpenIn (New [bank; rent] None) (template bank rent)).1)
    as H by (apply Built_BookAmount, Built_New).
  split; [exact H|].
  apply (Built_in_equilibrium isOpenIn [bank; rent] id _ H USD).
Defined.

(** Booking the rent leaves the position of the salary account alone. *)
Lemma BookAmount_frame_witness :
  Forall (fun p =>
            mkCommodityAccount salary USD
            <> mkCommodityAccount (Credit p) (Posting_Commodity p)
            /\ mkCommodityAccount salary USD
               <> mkCommodityAccount (Debit p) (Posting_Commodity p))
    (Postings (template bank rent))
  /\ Amounts (BookAmount isOpenIn emptyBalance (template bank rent)).1
     !! mkCommodityAccount salary USD
     = Amounts emptyBalance !! mkCommodityAccount salary USD.
Proof.
  assert (Forall (fun p =>
            mkCommodityAccount salary USD
            <> mkCommodityAccount (Credit p) (Posting_Commodity p)
            /\ mkCommodityAccount salary USD
               <> mkCommodityAccount (Debit p) (Posting_Commodity p))
            (Postings (template bank rent))) as H
    by (repeat constructor; discriminate).
  split; [exact H|].
  destruct (BookAmount_frame isOpenIn emptyBalance (template bank rent))
    as (_ & _ & _ & _ & Hframe).
  apply Hframe, H.
Defined.

(** A snapshot of the second of the three balances is a fourth balance
    of 30 USD. *)
Lemma Snapshot_at_apart_witness :
  (stores distinctHeap distinctSlice [holding 10; holding 30; holding 10]
   /\ load distinctHeap (Some 1%nat) = Some (holding 30))
  /\ exists p h',
      Snapshot_at (fun a : unit => a) distinctHeap (Some 1%nat) = Some (p, h')
      /\ load h' p = Some (Snapshot tt (fun a : unit => a) (holding 30))
      /\ (p ∉ distinctSlice).
Proof.
  split; [split; [exact distinctHeap_stores | reflexivity]|].
  destruct (Snapshot_at_apart tt (fun a : unit => a) distinctHeap (Some 1%nat)
              distinctSlice [holding 10; holding 30; holding 10] (holding 30)
              distinctHeap_stores eq_refl)
    as (p & h' & Hsnap & Hload & Hnotin & _).
  exists p, h'. split; [exact Hsnap|]. split; [exact Hload | exact Hnotin].
Defined.

(** A new balance followed by nil: [Diffs] returns the nil entry and
    leaves the heap as it is. *)
Lemma Diffs_panics_witness :
  (load freshHeap (Some 0%nat)
   = Some (mkBalance 738886 ∅ ∅ tt None)
   /\ Amounts (mkBalance 738886 ∅ ∅ tt None) = ∅
   /\ Values (mkBalance 738886 ∅ ∅ tt None) = ∅)
  /\ Diffs freshThenNil freshHeap = Some ([None], freshHeap).
Proof.
  split; [split_and!; reflexivity|].
  exact (proj2 (proj2 (proj2 (proj2 (Diffs_panics [] freshHeap))))
           None (Some 0%nat) (mkBalance 738886 ∅ ∅ tt None)
           eq_refl eq_refl eq_refl).
Defined.

(** The three objects with maps of their own: the first balance reads
    after [Diffs] as before. *)
Lemma Diffs_frame_witness :
  exists returned h',
    Diffs distinctSlice distinctHeap = Some (returned, h')
    /\ returned = [Some 1; Some 2]%nat
    /\ load h' (Some 0%nat) = Some (holding 10).
Proof.
  destruct (Diffs_loop_owned 2 distinctSlice distinctHeap) as [h' Hloop];
    [apply distinctHeap_stores | simpl; lia |].
  assert (Diffs distinctSlice distinctHeap
          = Some ([Some 1; Some 2]%nat, h')) as Hd.
  { unfold Diffs. change (length distinctSlice - 1)%nat with 2%nat.
    rewrite Hloop. reflexivity. }
  set (returned := [Some 1; Some 2]%nat) in *.
  exists returned, h'.
  destruct (Diffs_frame distinctSlice distinctHeap returned h' Hd)
    as (Hret & _ & _ & _ & Hload).
  split; [exact Hd|]. split; [reflexivity|].
  rewrite Hload; [reflexivity|].
  assert (mapRefs distinctHeap (Some 0%nat) = [Some 0; Some 1]%nat) as R0
    by reflexivity.
  assert (mapRefs distinctHeap (Some 1%nat) = [Some 2; Some 3]%nat) as R1
    by reflexivity.
  assert (mapRefs distinctHeap (Some 2%nat) = [Some 4; Some 5]%nat) as R2
    by reflexivity.
  intros q m Hq Hm. subst returned. rewrite R0 in Hm.
  change (q ∈ [Some 1; Some 2]%nat) in Hq.
  rewrite !elem_of_cons, elem_of_nil in Hq, Hm.
  destruct Hq as [->|[->|[]]]; rewrite ?R1, ?R2, !elem_of_cons, elem_of_nil;
    destruct Hm as [[= ->]|[[= ->]|[]]]; intros [?|[?|[]]]; discriminate.
Defined.

End balance_more.

(* ===================================================================== *)
(** * Journal: what the builder stores *)
(* ===================================================================== *)

Module journal_more.
Import decimal ledger journal journal_facts examples.

Lemma foldr_min_snoc (a x : Z) (l : list Z) :
  foldr Z.min a (l ++ [x]) = Z.min (foldr Z.min a l) x.
Proof. induction l as [|y l IH]; simpl; [lia | rewrite IH; lia]. Qed.

Lemma foldr_max_snoc (a x : Z) (l : list Z) :
  foldr Z.max a (l ++ [x]) = Z.max (foldr Z.max a l) x.
Proof. induction l as [|y l IH]; simpl; [lia | rewrite IH; lia]. Qed.

(** ** The day record of a list of directives *)

Lemma recordOn_undated k ds :
  Some k ∉ directiveDate <$> ds -> recordOn k ds = emptyDay k.
Proof.
  intros Hin.
  assert (Forall (fun d => directiveDate d <> Some k) ds) as Hall.
  { apply Forall_forall. intros d Hd Hk. apply Hin.
    apply list_elem_of_fmap. by exists d. }
  clear Hin. unfold recordOn, emptyDay.
  unfold pricesOn, assertionsOn, openingsOn, transactionsOn, closingsOn.
  induction Hall as [|d ds Hd _ IH]; [done|].
  injection IH as Hp Ha Ho Ht Hc. cbn [omap list_omap].
  destruct d as [p|o|t|a|c|]; cbn [directiveDate] in Hd;
    try case_decide; try (exfalso; apply Hd; congruence);
    by rewrite ?Hp, ?Ha, ?Ho, ?Ht, ?Hc.
Qed.

Lemma dayOrEmpty_dayOn (days : gmap Z Day) k ds :
  days !! k = dayOn k ds -> dayOrEmpty days k = recordOn k ds.
Proof.
  unfold dayOrEmpty, dayOn. intros ->.
  case_bool_decide; [done|]. symmetry. by apply recordOn_undated.
Qed.

Lemma dayOn_snoc_other k ds d :
  directiveDate d <> Some k -> dayOn k (ds ++ [d]) = dayOn k ds.
Proof.
  intros Hd. unfold dayOn.
  assert (recordOn k (ds ++ [d]) = recordOn k ds) as ->.
  { unfold recordOn, pricesOn, assertionsOn, openingsOn, transactionsOn,
      closingsOn.
    rewrite !omap_app. cbn [omap list_omap].
    destruct d as [p|o|t|a|c|]; cbn [directiveDate] in Hd;
      try case_decide; try (exfalso; apply Hd; congruence);
      by rewrite !app_nil_r. }
  rewrite fmap_app. cbn [fmap list_fmap].
  assert ((Some k ∈ (directiveDate <$> ds) ++ [directiveDate d])
          <-> Some k ∈ directiveDate <$> ds) as Hiff.
  { rewrite elem_of_app. split; [|by left].
    intros [H|H]; [done|]. apply list_elem_of_singleton in H. congruence. }
  repeat case_bool_decide; tauto || done.
Qed.

Lemma dayOn_snoc_dated k ds d :
  directiveDate d = Some k ->
  dayOn k (ds ++ [d]) = Some (recordOn k (ds ++ [d])).
Proof.
  intros Hd. unfold dayOn. rewrite bool_decide_eq_true_2; [done|].
  rewrite fmap_app, elem_of_app. right. cbn. rewrite Hd. repeat constructor.
Qed.

Section Builder.

Context {Registry : Type}.

Implicit Types j : @Journal Registry.

(** What each [Add] method does to the map of days: the record of the
    date of the directive, taken from the map or made empty, is stored
    with the directive appended to the list of its kind. *)
Lemma Days_AddOpen j o :
  Days (AddOpen j o)
  = <[Open_Date o :=
        let d := dayOrEmpty (Days j) (Open_Date o) in
        {| Date := Date d; Prices := Prices d; Assertions := Assertions d;
           Openings := Openings d ++ [o]; Transactions := Transactions d;
           Closings := Closings d |}]> (Days j).
Proof.
  unfold AddOpen, Journal_Day, GetDefault, dayOrEmpty.
  destruct (Days j !! Open_Date o); cbn; [done | apply insert_insert_eq].
Qed.

Lemma Days_AddAssertion j a :
  Days (AddAssertion j a)
  = <[Assertion_Date a :=
        let d := dayOrEmpty (Days j) (Assertion_Date a) in
        {| Date := Date d; Prices := Prices d; Assertions := Assertions d ++ [a];
           Openings := Openings d; Transactions := Transactions d;
           Closings := Closings d |}]> (Days j).
Proof.
  unfold AddAssertion, Journal_Day, GetDefault, dayOrEmpty.
  destruct (Days j !! Assertion_Date a); cbn; [done | apply insert_insert_eq].
Qed.

Lemma Days_AddClose j c :
  Days (AddClose j c)
  = <[Close_Date c :=
        let d := dayOrEmpty (Days j) (Close_Date c) in
        {| Date := Date d; Prices := Prices d; Assertions := Assertions d;
           Openings := Openings d; Transactions := Transactions d;
           Closings := Closings d ++ [c] |}]> (Days j).
Proof.
  unfold AddClose, Journal_Day, GetDefault, dayOrEmpty.
  destruct (Days j !! Close_Date c); cbn; [done | apply insert_insert_eq].
Qed.

Lemma Days_AddPrice j p :
  Days (AddPrice j p)
  = <[Price_Date p :=
        let d := dayOrEmpty (Days j) (Price_Date p) in
        {| Date := Date d; Prices := Prices d ++ [p]; Assertions := Assertions d;
           Openings := Openings d; Transactions := Transactions d;
           Closings := Closings d |}]> (Days j).
Proof.
  unfold AddPrice, Journal_Day, GetDefault, dayOrEmpty.
  destruct (Days j !! Price_Date p) as [day|]; cbn.
  - by destruct (Before (max j) (Date day)).
  - destruct (Before (max j) (Price_Date p)); cbn; apply insert_insert_eq.
Qed.

Lemma Days_AddTransaction j t :
  Days (AddTransaction j t)
  = <[Transaction_Date t :=
        let d := dayOrEmpty (Days j) (Transaction_Date t) in
        {| Date := Date d; Prices := Prices d; Assertions := Assertions d;
           Openings := Openings d; Transactions := Transactions d ++ [t];
           Closings := Closings d |}]> (Days j).
Proof.
  unfold AddTransaction, Journal_Day, GetDefault, dayOrEmpty.
  destruct (Days j !! Transaction_Date t) as [day|]; cbn.
  - destruct (Before (max j) (Date day)); cbn;
      by destruct (After (min j) (Transaction_Date t)).
  - destruct (Before (max j) (Transaction_Date t)); cbn;
      destruct (After (min j) (Transaction_Date t)); cbn;
      apply insert_insert_eq.
Qed.

Lemma built_keyed j ds : built j ds -> keyed j.
Proof.
  intros [Hdays _] k day Hday. rewrite Hdays in Hday.
  unfold dayOn in Hday. case_bool_decide; [|done]. by injection Hday as <-.
Qed.

Lemma built_New (reg : Registry) : built (New reg) [].
Proof.
  split_and!; [|done..]. intros k. cbn. apply lookup_empty.
Qed.

Ltac solve_days Hdays :=
  let k := fresh "k" in
  let Hne := fresh "Hne" in
  intros k;
  match goal with
  | |- <[?k0 := _]> _ !! _ = _ =>
      destruct (decide (k0 = k)) as [<-|Hne];
      [ rewrite lookup_insert_eq, dayOn_snoc_dated by done;
        f_equal; cbv zeta;
        rewrite (dayOrEmpty_dayOn _ _ _ (Hdays _));
        unfold recordOn, pricesOn, assertionsOn, openingsOn, transactionsOn,
          closingsOn;
        rewrite !omap_app; cbn [omap list_omap Date Prices Assertions Openings
                                  Transactions Closings];
        rewrite ?decide_True by done; by rewrite ?app_nil_r
      | rewrite lookup_insert_ne by done;
        rewrite dayOn_snoc_other by (cbn [directiveDate]; congruence);
        apply Hdays ]
  end.

(** Consuming one more directive. *)
Lemma built_step j ds d j' :
  built j ds -> addDirective j d = Some j' -> built j' (ds ++ [d]).
Proof.
  intros Hb Hadd. pose proof (built_keyed j ds Hb) as Hk.
  destruct Hb as (Hdays & Hmin & Hmax).
  unfold lowerDates, upperDates in *.
  destruct d as [p|o|t|a|c|]; cbn [addDirective] in Hadd;
    try discriminate Hadd;
    injection Hadd as <-; unfold built, lowerDates, upperDates;
    rewrite !omap_app; cbn [omap list_omap].
  - destruct (AddPrice_bounds j p Hk) as (_ & -> & ->).
    rewrite Days_AddPrice, app_nil_r, foldr_max_snoc, Hmin, Hmax.
    split_and!; [solve_days Hdays | done..].
  - destruct (AddOpen_bounds j o Hk) as (_ & -> & ->).
    rewrite Days_AddOpen, !app_nil_r.
    split_and!; [solve_days Hdays | done..].
  - destruct (AddTransaction_bounds j t Hk) as (_ & -> & ->).
    rewrite Days_AddTransaction, foldr_min_snoc, foldr_max_snoc, Hmin, Hmax.
    split_and!; [solve_days Hdays | done..].
  - destruct (AddAssertion_bounds j a Hk) as (_ & -> & ->).
    rewrite Days_AddAssertion, !app_nil_r.
    split_and!; [solve_days Hdays | done..].
  - destruct (AddClose_bounds j c Hk) as (_ & -> & ->).
    rewrite Days_AddClose, !app_nil_r.
    split_and!; [solve_days Hdays | done..].
Qed.

Lemma consumeBatch_built input j ds j' :
  built j ds -> consumeBatch j input = Some j' -> built j' (ds ++ input).
Proof.
  revert j ds. induction input as [|d input IH]; intros j ds Hb Hc.
  - injection Hc as <-. by rewrite app_nil_r.
  - cbn [consumeBatch] in Hc.
    destruct (addDirective j d) as [j1|] eqn:Hadd; [|done].
    cbn in Hc. rewrite (assoc_L (++) ds [d] input : ds ++ d :: input = _).
    apply (IH j1); [by apply (built_step j) | done].
Qed.

Lemma consumeAll_built batches j ds j' :
  built j ds -> consumeAll j batches = Some j' ->
  built j' (ds ++ concat batches).
Proof.
  revert j ds. induction batches as [|input batches IH]; intros j ds Hb Hc.
  - injection Hc as <-. by rewrite app_nil_r.
  - cbn [consumeAll] in Hc.
    destruct (consumeBatch j input) as [j1|] eqn:Hbatch; [|done].
    cbn in Hc. cbn [concat]. rewrite (assoc_L (++)).
    apply (IH j1); [by apply (consumeBatch_built input j) | done].
Qed.

Lemma consumeBatch_other input j :
  DirOther ∈ input -> consumeBatch j input = None.
Proof.
  revert j. induction input as [|d input IH]; intros j Hin.
  - by apply elem_of_nil in Hin.
  - cbn [consumeBatch]. apply elem_of_cons in Hin as [<-|Hin]; [done|].
    destruct (addDirective j d); cbn; [by apply IH | done].
Qed.

Lemma consumeAll_other batches j :
  DirOther ∈ concat batches -> consumeAll j batches = None.
Proof.
  revert j. induction batches as [|input batches IH]; intros j Hin.
  - by apply elem_of_nil in Hin.
  - cbn [consumeAll]. cbn [concat] in Hin. apply elem_of_app in Hin as [Hin|Hin].
    + by rewrite consumeBatch_other.
    + destruct (consumeBatch j input); cbn; [by apply IH | done].
Qed.

(** X17.  A directive of a kind the builder does not know, anywhere in
    the stream, makes [Create] deliver no journal, whatever the
    directives before and after it; a journal that is delivered was fed
    known directives only. *)
Theorem Create_unknown_directive_fails (reg : Registry)
    (batches : list (list Directive)) :
  (DirOther ∈ concat batches -> Create reg batches = None)
  /\ (forall j, Create reg batches = Some j ->
                Forall (fun d => d <> DirOther) (concat batches)).
Proof.
  assert (DirOther ∈ concat batches -> Create reg batches = None) as Hfails
    by apply consumeAll_other.
  split; [exact Hfails|].
  intros j Hj. apply Forall_forall. intros d Hd ->.
  rewrite Hfails in Hj by done. discriminate Hj.
Qed.

(** X18.  The journal [Create] returns groups the directives by date: the map
    of days has a record for a date exactly when some directive carries
    that date; the record is stored under its own date and holds, kind by
    kind, the directives of that date in the order they arrived, nothing
    lost and nothing added. *)
Theorem Create_groups_by_date (reg : Registry) batches j k :
  Create reg batches = Some j ->
  Days j !! k = dayOn k (concat batches)
  /\ (is_Some (Days j !! k) <-> Some k ∈ directiveDate <$> concat batches)
  /\ (forall day, Days j !! k = Some day ->
        Date day = k
        /\ Prices day = pricesOn k (concat batches)
        /\ Assertions day = assertionsOn k (concat batches)
        /\ Openings day = openingsOn k (concat batches)
        /\ Transactions day = transactionsOn k (concat batches)
        /\ Closings day = closingsOn k (concat batches)).
Proof.
  intros Hc.
  destruct (consumeAll_built batches (New reg) [] j (built_New reg) Hc)
    as (Hdays & _).
  rewrite app_nil_l in Hdays.
  split_and!; [apply Hdays | |].
  - rewrite Hdays. unfold dayOn. case_bool_decide; [by split; eauto|].
    split; [by intros [? ?] | done].
  - intros day. rewrite Hdays. unfold dayOn.
    case_bool_decide; [by intros [= <-] | done].
Qed.

(** X19.  The bounds of the journal [Create] returns are exactly these: the
    start is the least of the transaction dates and [9999-12-31], the end
    is the greatest of the transaction dates, the price dates and the zero
    date.  A journal without transactions therefore starts on
    [9999-12-31], and one without transactions and prices has its start
    after its end. *)
Theorem Create_period_exact (reg : Registry) batches j :
  Create reg batches = Some j ->
  Journal_Period j
  = {| Start := foldr Z.min Date_9999_12_31 (lowerDates (concat batches));
       End := foldr Z.max zeroTime (upperDates (concat batches)) |}
  /\ (lowerDates (concat batches) = [] ->
      Start (Journal_Period j) = Date_9999_12_31)
  /\ (upperDates (concat batches) = [] ->
      End (Journal_Period j) < Start (Journal_Period j)).
Proof.
  intros Hc.
  destruct (consumeAll_built batches (New reg) [] j (built_New reg) Hc)
    as (_ & Hmin & Hmax).
  rewrite app_nil_l in Hmin, Hmax. unfold Journal_Period. rewrite Hmin, Hmax.
  split_and!; [done | by intros -> |].
  intros Hupper. cbn [Start End].
  assert (lowerDates (concat batches) = []) as ->.
  { unfold lowerDates, upperDates in *. revert Hupper.
    generalize (concat batches). intros ds.
    induction ds as [|d ds IH]; [done|]. cbn [omap list_omap].
    destruct d; cbn; try done; apply IH. }
  rewrite Hupper. done.
Qed.

End Builder.

(** A stream that opens two accounts, books a payment and ends in an
    unknown directive delivers no journal. *)
Lemma Create_unknown_directive_fails_witness :
  (DirOther ∈ concat (openThenPay ++ [[DirOther]]))
  /\ Create tt (openThenPay ++ [[DirOther]]) = None.
Proof.
  assert (DirOther ∈ concat (openThenPay ++ [[DirOther]])) as H.
  { rewrite concat_app. apply elem_of_app. right. cbn. by left. }
  split; [exact H|].
  exact (proj1 (Create_unknown_directive_fails tt (openThenPay ++ [[DirOther]]))
           H).
Defined.

(** The openings and the payment end up under their dates. *)
Lemma Create_groups_by_date_witness :
  (exists j : @Journal unit, Create tt openThenPay = Some j)
  /\ exists j : @Journal unit,
      Create tt openThenPay = Some j
      /\ Days j !! 738800
         = Some {| Date := 738800; Prices := []; Assertions := [];
                   Openings := [mkOpen here 738800 bank; mkOpen here 738800 rent];
                   Transactions := []; Closings := [] |}
      /\ Days j !! 738801 = None.
Proof.
  destruct (Create tt openThenPay) as [j|] eqn:Hc;
    [|vm_compute in Hc; discriminate Hc].
  split; [by exists j|]. exists j. split; [done|].
  split;
    [apply (proj1 (Create_groups_by_date tt openThenPay j 738800 Hc))
    |apply (proj1 (Create_groups_by_date tt openThenPay j 738801 Hc))].
Defined.

(** The bounds of the sample journal are the date of its payment. *)
Lemma Create_period_exact_witness :
  (exists j : @Journal unit, Create tt openThenPay = Some j)
  /\ exists j : @Journal unit,
      Create tt openThenPay = Some j
      /\ Journal_Period j = {| Start := 738886; End := 738886 |}.
Proof.
  destruct (Create tt openThenPay) as [j|] eqn:Hc;
    [|vm_compute in Hc; discriminate Hc].
  split; [by exists j|]. exists j. split; [done|].
  apply (proj1 (Create_period_exact tt openThenPay j Hc)).
Defined.

End journal_more.
(* ===================================================================== *)
(** * Report: shortening accounts *)
(* ===================================================================== *)

Module report_facts.
Import ledger report examples.

Section Shorten.

Context {Regexp : Type}.
Variable MatchString : Regexp -> string -> bool.
Variable Split : Account -> list string.

Implicit Types c : list (@Collapse Regexp).

Lemma limitFrom_le n c a : (limitFrom MatchString n c a <= n)%nat.
Proof.
  revert n. induction c as [|rule c IH]; intros n; [done|].
  cbn [limitFrom foldl].
  destruct (matches MatchString a rule).
  - etrans; [apply IH|]. lia.
  - apply IH.
Qed.

Lemma limitFrom_Permutation n c c' a :
  c ≡ₚ c' -> limitFrom MatchString n c a = limitFrom MatchString n c' a.
Proof.
  intros Hperm. revert n.
  induction Hperm as [|rule c c' _ IH|r1 r2 c|c1 c2 c3 _ IH1 _ IH2]; intros n.
  - done.
  - cbn [limitFrom foldl]. apply IH.
  - cbn [limitFrom foldl]. f_equal.
    destruct (matches MatchString a r1), (matches MatchString a r2); lia.
  - by rewrite IH1.
Qed.

Lemma limitFrom_caps n c a :
  Forall (fun rule =>
            matches MatchString a rule = true ->
            (limitFrom MatchString n c a <= Z.to_nat (Level rule))%nat) c.
Proof.
  revert n. induction c as [|rule c IH]; intros n; [constructor|].
  cbn [limitFrom foldl]. constructor; [|apply IH].
  intros Hm. rewrite Hm.
  etrans; [apply limitFrom_le|]. lia.
Qed.

Lemma limitFrom_attained n c a :
  limitFrom MatchString n c a = n
  \/ Exists (fun rule =>
               matches MatchString a rule = true
               /\ Z.to_nat (Level rule) = limitFrom MatchString n c a) c.
Proof.
  revert n. induction c as [|rule c IH]; intros n; [by left|].
  cbn [limitFrom foldl].
  destruct (matches MatchString a rule) eqn:Hm.
  - destruct (IH (Z.to_nat (Level rule) `min` n)%nat) as [Heq|Hex].
    + destruct (Nat.min_spec (Z.to_nat (Level rule)) n)
        as [[Hlt Hmin]|[Hle Hmin]].
      * right. apply Exists_cons_hd. split; [done|].
        unfold limitFrom in Heq. by rewrite Heq, Hmin.
      * left. unfold limitFrom in Heq. by rewrite Heq, Hmin.
    + right. by apply Exists_cons_tl.
  - destruct (IH n) as [Heq|Hex]; [by left|].
    right. by apply Exists_cons_tl.
Qed.

(** The loop without a panicking rule: the rules take a prefix. *)
Lemma shorten_loop_takes c a s :
  Forall (fun rule => panics MatchString a rule = false) c ->
  shorten_loop MatchString c a s
  = Some (take (limitFrom MatchString (length s) c a) s).
Proof.
  revert s. induction c as [|rule c IH]; intros s Hall.
  - cbn. by rewrite firstn_all.
  - apply Forall_cons in Hall as [Hrule Hall]. unfold panics in Hrule.
    cbn [shorten_loop limitFrom foldl]. unfold matches.
    destruct (Regex rule) as [regex|]; [|done].
    destruct (MatchString regex (Account_String a)) eqn:Hm;
      cbn [andb] in *; [|by apply IH].
    rewrite Hrule.
    destruct (Z.ltb_spec (Level rule) (Z.of_nat (length s))) as [Hlt|Hge].
    + apply Z.ltb_ge in Hrule.
      rewrite (IH _ Hall), length_take.
      replace (Z.to_nat (Level rule) `min` length s)%nat
        with (Z.to_nat (Level rule)) by lia.
      rewrite take_take. do 2 f_equal.
      rewrite Nat.min_l by apply limitFrom_le. done.
    + rewrite (IH _ Hall).
      by replace (Z.to_nat (Level rule) `min` length s)%nat
        with (length s) by lia.
Qed.

Lemma shorten_loop_panics c a s :
  shorten_loop MatchString c a s = None
  <-> Exists (fun rule => panics MatchString a rule = true) c.
Proof.
  revert s. induction c as [|rule c IH]; intros s.
  - split; [done | by intros H; apply Exists_nil in H].
  - rewrite Exists_cons. cbn [shorten_loop]. unfold panics at 1.
    destruct (Regex rule) as [regex|]; [|split; [by left | done]].
    destruct (MatchString regex (Account_String a)); cbn [andb].
    + destruct (Z.ltb_spec (Level rule) 0) as [Hneg|Hnn].
      * assert ((Level rule <? Z.of_nat (length s)) = true) as ->
          by (apply Z.ltb_lt; lia).
        split; [by left | done].
      * destruct (Level rule <? Z.of_nat (length s)); rewrite IH;
          (split; [by right | by intros [?|?]]).
    + rewrite IH. split; [by right | by intros [?|?]].
Qed.

(** X20.  [shorten] panics exactly when some rule has no regex (the
    regex pointer is nil), or has a regex that matches the account and a
    negative level. *)
Theorem shorten_panics_iff c a :
  shorten MatchString Split c a = None
  <-> Exists (fun rule =>
                Regex rule = None
                \/ (matches MatchString a rule = true /\ Level rule < 0)) c.
Proof.
  unfold shorten. rewrite shorten_loop_panics.
  apply Exists_proper; [|done]. intros rule. unfold panics, matches.
  destruct (Regex rule) as [regex|].
  - rewrite andb_true_iff, Z.ltb_lt.
    split; [by right | by intros [?|?]].
  - split; [by left | done].
Qed.

(** X21.  When every rule has a regex and no matching rule has a negative
    level, [shorten] returns a prefix of the segments of the account: as
    many segments as the least level among the matching rules allows, and
    all of them when no rule matches or every level is at least the
    number of segments. *)
Theorem shorten_takes_prefix c a :
  Forall (fun rule =>
            is_Some (Regex rule)
            /\ (matches MatchString a rule = true -> 0 <= Level rule)) c ->
  exists k,
    shorten MatchString Split c a = Some (take k (Split a))
    /\ (k <= length (Split a))%nat
    /\ k = limitFrom MatchString (length (Split a)) c a
    /\ Forall (fun rule =>
                 matches MatchString a rule = true ->
                 (k <= Z.to_nat (Level rule))%nat) c
    /\ (k = length (Split a)
        \/ Exists (fun rule =>
                     matches MatchString a rule = true
                     /\ Level rule = Z.of_nat k) c).
Proof.
  intros Hnn.
  assert (Forall (fun rule => panics MatchString a rule = false) c) as Hall.
  { eapply Forall_impl; [exact Hnn|]. intros rule Hrule. simpl in Hrule.
    destruct Hrule as [[regex Hregex] Hlevel].
    unfold panics, matches in *. rewrite Hregex in *.
    destruct (MatchString regex (Account_String a)); [|done].
    cbn [andb]. apply (proj2 (Z.ltb_ge _ _)). by apply Hlevel. }
  exists (limitFrom MatchString (length (Split a)) c a).
  split_and!.
  - by apply shorten_loop_takes.
  - apply limitFrom_le.
  - done.
  - apply limitFrom_caps.
  - destruct (limitFrom_attained (length (Split a)) c a) as [Heq|Hex];
      [by left|].
    right. apply Exists_exists in Hex as (rule & Hin & Hm & Hlevel).
    apply Exists_exists. exists rule. split_and!; [done..|].
    rewrite Forall_forall in Hnn. destruct (Hnn rule Hin) as [_ Hpos].
    specialize (Hpos Hm). lia.
Qed.

(** X22.  The order of the rules is irrelevant to [shorten], panics
    included. *)
Theorem shorten_order_irrelevant c c' a :
  c ≡ₚ c' -> shorten MatchString Split c a = shorten MatchString Split c' a.
Proof.
  intros Hperm. unfold shorten.
  destruct (Exists_dec (fun rule => panics MatchString a rule = true) c)
    as [Hex|Hnot].
  - assert (shorten_loop MatchString c a (Split a) = None) as ->
      by by apply shorten_loop_panics.
    symmetry. apply shorten_loop_panics. by rewrite <- Hperm.
  - assert (Forall (fun rule => panics MatchString a rule = false) c) as Hall.
    { apply Forall_forall. intros rule Hin.
      destruct (panics MatchString a rule) eqn:Hp; [|done].
      exfalso. apply Hnot. apply Exists_exists. by exists rule. }
    rewrite (shorten_loop_takes c a _ Hall).
    rewrite Hperm in Hall. rewrite (shorten_loop_takes c' a _ Hall).
    by rewrite (limitFrom_Permutation _ c c' a Hperm).
Qed.

End Shorten.

(** The checking account under three rules: the rule of level 2 cuts it
    to two segments, the rule for income does not match, the rule of
    level 5 is beyond its length. *)
Lemma shorten_takes_prefix_witness :
  Forall (fun rule =>
            is_Some (Regex rule)
            /\ (matches startsWith checking rule = true -> 0 <= Level rule))
    rules
  /\ shorten startsWith segments rules checking = Some ["Assets"; "Bank"].
Proof.
  assert (Forall (fun rule =>
                    is_Some (Regex rule)
                    /\ (matches startsWith checking rule = true ->
                        0 <= Level rule)) rules) as H
    by (repeat constructor; (by eexists) || (intros _; cbn; lia)).
  split; [exact H|].
  destruct (shorten_takes_prefix startsWith segments rules checking H)
    as (k & Hs & _ & -> & _).
  rewrite Hs. reflexivity.
Defined.

(** The same rules in reverse order shorten alike. *)
Lemma shorten_order_irrelevant_witness :
  rules ≡ₚ reverse rules
  /\ shorten startsWith segments (reverse rules) checking
     = Some ["Assets"; "Bank"].
Proof.
  assert (rules ≡ₚ reverse rules) as H by (symmetry; apply reverse_Permutation).
  split; [exact H|].
  rewrite <- (shorten_order_irrelevant startsWith segments rules (reverse rules)
                checking H).
  reflexivity.
Defined.

(** A rule without a regex makes [shorten] panic, whatever its level and
    wherever it stands among the rules. *)
Lemma shorten_nil_regex_panics :
  shorten startsWith segments (rules ++ [bareRule]) checking = None
  /\ shorten startsWith segments (bareRule :: rules) checking = None.
Proof. split; reflexivity. Qed.

End report_facts.

(* ===================================================================== *)
(** * Merged positions and the register *)
(* ===================================================================== *)

Module report_more.
Import decimal ledger balance report examples.

Section Merge.

Context {K : Type} `{Countable K}.
Variable Less : K -> K -> bool.

(** The order on the keys is a strict total order. *)
Hypothesis Less_irreflexive : forall x, Less x x = false.
Hypothesis Less_transitive :
  forall x y z, Less x y = true -> Less y z = true -> Less x z = true.
Hypothesis Less_connected :
  forall x y, x <> y -> Less x y = true \/ Less y x = true.

Lemma Less_asymmetric (x y : K) : Less x y = true -> Less y x = false.
Proof.
  intros Hxy. destruct (Less y x) eqn:Hyx; [|reflexivity].
  rewrite <- (Less_irreflexive x). symmetry.
  exact (Less_transitive x y x Hxy Hyx).
Qed.

Lemma notAfter_total : Total (notAfter Less).
Proof.
  intros x y. unfold notAfter.
  destruct (Less (Position_CommodityAccount y) (Position_CommodityAccount x))
    eqn:Hyx; [right|left; reflexivity].
  apply Less_asymmetric, Hyx.
Qed.

Lemma notAfter_transitive : Transitive (notAfter Less).
Proof.
  intros x y z. unfold notAfter.
  set (kx := Position_CommodityAccount x).
  set (ky := Position_CommodityAccount y).
  set (kz := Position_CommodityAccount z).
  intros Hyx Hzy.
  destruct (decide (kx = ky)) as [Heq|Hne]; [rewrite Heq; exact Hzy|].
  destruct (decide (ky = kz)) as [Heq|Hne']; [rewrite <- Heq; exact Hyx|].
  destruct (Less_connected kx ky Hne) as [Hxy|Hyx']; [|congruence].
  destruct (Less_connected ky kz Hne') as [Hyz|Hzy']; [|congruence].
  apply Less_asymmetric. exact (Less_transitive kx ky kz Hxy Hyz).
Qed.

Lemma unsorted_keys (positions : list (gmap K Decimal)) :
  Position_CommodityAccount <$> unsorted positions
  = elements (commodityAccounts positions).
Proof.
  unfold unsorted. rewrite <- list_fmap_compose.
  rewrite <- (list_fmap_id (elements _)) at 2.
  apply list_fmap_ext. intros i ca _. reflexivity.
Qed.

Lemma unsorted_row (positions : list (gmap K Decimal)) (row : Position) :
  row ∈ unsorted positions ->
  row = positionOf positions (Position_CommodityAccount row).
Proof.
  unfold unsorted. intros Hin.
  apply list_elem_of_fmap in Hin as (ca & -> & _). reflexivity.
Qed.

Lemma commodityAccounts_spec (positions : list (gmap K Decimal)) (ca : K) :
  ca ∈ commodityAccounts positions
  <-> exists p, (p ∈ positions) /\ is_Some (p !! ca).
Proof.
  unfold commodityAccounts. rewrite elem_of_union_list. split.
  - intros (X & HX & Hca). apply list_elem_of_fmap in HX as (p & -> & Hp).
    exists p. split; [exact Hp|]. apply elem_of_dom, Hca.
  - intros (p & Hp & Hsome). exists (dom p). split.
    + apply list_elem_of_fmap. exists p. split; [reflexivity|exact Hp].
    + apply elem_of_dom, Hsome.
Qed.

(** Rows with distinct keys that are sorted by [notAfter] are strictly
    increasing. *)
Lemma strictly_increasing (l : list Position) :
  NoDup (Position_CommodityAccount <$> l) ->
  StronglySorted (notAfter Less) l ->
  StronglySorted
    (fun x y => Less (Position_CommodityAccount x)
                     (Position_CommodityAccount y) = true) l.
Proof.
  induction l as [|x l IH]; intros Hnd Hs; [constructor|].
  rewrite fmap_cons in Hnd. apply NoDup_cons in Hnd as [Hx Hnd].
  apply StronglySorted_inv in Hs as [Hs Hall].
  constructor; [apply IH; assumption|].
  rewrite Forall_forall in Hall |- *. intros y Hy.
  specialize (Hall y Hy). unfold notAfter in Hall.
  destruct (Less_connected (Position_CommodityAccount x)
              (Position_CommodityAccount y)) as [Hlt|Hgt];
    [|exact Hlt|congruence].
  intros Heq. apply Hx. rewrite Heq.
  apply list_elem_of_fmap. exists y. split; [reflexivity|exact Hy].
Qed.

(** X23.  [mergePositions] returns one row per key that occurs in some
    map, in strictly increasing order of the keys (hence without a
    repeated key), and the row of a key holds, balance by balance, the
    value of the key in that map, or zero where the map has none. *)
Theorem mergePositions_rows (positions : list (gmap K Decimal)) :
  let res := mergePositions Less positions in
  StronglySorted
    (fun x y => Less (Position_CommodityAccount x)
                     (Position_CommodityAccount y) = true) res
  /\ (forall ca, (ca ∈ (Position_CommodityAccount <$> res))
                 <-> exists p, (p ∈ positions) /\ is_Some (p !! ca))
  /\ (forall row, (row ∈ res) ->
        Position_Amounts row
        = (fun p : gmap K Decimal =>
             default Zero (p !! Position_CommodityAccount row)) <$> positions).
Proof.
  intros res.
  assert (res ≡ₚ unsorted positions) as Hperm
    by apply merge_sort_Permutation.
  split; [|split].
  - apply strictly_increasing.
    + rewrite Hperm, unsorted_keys. apply NoDup_elements.
    + apply StronglySorted_merge_sort;
        [apply notAfter_transitive|apply notAfter_total].
  - intros ca. rewrite Hperm, unsorted_keys, elem_of_elements.
    apply commodityAccounts_spec.
  - intros row Hrow. rewrite Hperm in Hrow.
    rewrite (unsorted_row positions row Hrow) at 1. reflexivity.
Qed.

(** X24.  The result of [mergePositions] depends neither on the order in
    which the keys of the Go map are visited nor on the sorting
    algorithm: whatever order [keys] the set of keys is visited in, every
    arrangement of the rows built in that order which [sort.Slice] may
    leave, one where no row is [Less] than the row before it, is the list
    returned. *)
Theorem mergePositions_order_irrelevant
    (positions : list (gmap K Decimal)) (keys : list K) (res : list Position) :
  keys ≡ₚ elements (commodityAccounts positions) ->
  res ≡ₚ positionOf positions <$> keys ->
  Sorted (notAfter Less) res ->
  res = mergePositions Less positions.
Proof.
  intros Hkeys Hres Hsorted.
  assert (res ≡ₚ unsorted positions) as Hperm
    by (unfold unsorted; rewrite Hres, Hkeys; reflexivity).
  apply (StronglySorted_unique_strong (notAfter Less)).
  - intros x1 x2 H1 H2 H12 H21. unfold notAfter in H12, H21.
    rewrite Hperm in H1.
    unfold mergePositions in H2. rewrite merge_sort_Permutation in H2.
    rewrite (unsorted_row positions x1 H1), (unsorted_row positions x2 H2).
    f_equal.
    destruct (decide (Position_CommodityAccount x1
                      = Position_CommodityAccount x2)) as [Heq|Hne];
      [exact Heq|].
    destruct (Less_connected _ _ Hne); congruence.
  - apply Sorted_StronglySorted; [apply notAfter_transitive|exact Hsorted].
  - apply StronglySorted_merge_sort;
      [apply notAfter_transitive|apply notAfter_total].
  - rewrite Hperm. unfold mergePositions.
    symmetry. apply merge_sort_Permutation.
Qed.

End Merge.

Lemma Less_connected (p q : CommodityAccount) :
  p <> q -> balance.Less p q = true \/ balance.Less q p = true.
Proof.
  intros Hne.
  destruct (balance_facts.Less_total p q) as [[Hlt _]|[_ Hgt]];
    [|left; exact Hlt|right; exact Hgt].
  intros Heq. apply Hne.
  destruct p as [[tp np] [cp]], q as [[tq nq] [cq]].
  cbn in Heq. congruence.
Qed.

(** The two balances of the examples give two rows, the bank account
    before the rent. *)
Lemma mergePositions_rows_witness :
  (forall x, balance.Less x x = false)
  /\ (forall x y z, balance.Less x y = true -> balance.Less y z = true ->
                    balance.Less x z = true)
  /\ (forall x y, x <> y ->
                  balance.Less x y = true \/ balance.Less y x = true)
  /\ (Position_CommodityAccount <$> mergePositions balance.Less twoBalances)
     = [mkCommodityAccount bank USD; mkCommodityAccount rent USD]
  /\ forall row, (row ∈ mergePositions balance.Less twoBalances) ->
       Position_Amounts row
       = (fun p : gmap CommodityAccount Decimal =>
            default Zero (p !! Position_CommodityAccount row)) <$> twoBalances.
Proof.
  split; [exact balance_facts.Less_irrefl|].
  split; [exact balance_facts.Less_trans|].
  split; [exact Less_connected|].
  split; [vm_compute; reflexivity|].
  exact (proj2 (proj2 (mergePositions_rows balance.Less
                         balance_facts.Less_irrefl balance_facts.Less_trans
                         Less_connected twoBalances))).
Defined.

(** Visiting the two keys of the examples in the other order and leaving
    the rows sorted gives the same list. *)
Lemma mergePositions_order_irrelevant_witness :
  let keys := [mkCommodityAccount rent USD; mkCommodityAccount bank USD] in
  let res := [positionOf twoBalances (mkCommodityAccount bank USD);
              positionOf twoBalances (mkCommodityAccount rent USD)] in
  keys ≡ₚ elements (commodityAccounts twoBalances)
  /\ res ≡ₚ positionOf twoBalances <$> keys
  /\ Sorted (notAfter balance.Less) res
  /\ res = mergePositions balance.Less twoBalances.
Proof.
  intros keys res.
  assert (keys ≡ₚ elements (commodityAccounts twoBalances)) as Hk.
  { apply NoDup_Permutation.
    - subst keys. repeat constructor; rewrite ?elem_of_cons, ?elem_of_nil;
        intros Hin; decompose [or] Hin; try discriminate; assumption.
    - apply NoDup_elements.
    - intros ca. rewrite elem_of_elements. subst keys.
      unfold commodityAccounts, twoBalances. cbn [fmap list_fmap union_list].
      rewrite ?dom_insert_L, ?dom_singleton_L. cbn [foldr].
      rewrite ?elem_of_cons, ?elem_of_nil, ?elem_of_union, ?elem_of_singleton,
        ?elem_of_empty.
      tauto. }
  assert (res ≡ₚ positionOf twoBalances <$> keys) as Hr
    by (subst res keys; cbn [fmap list_fmap]; apply Permutation_swap).
  assert (Sorted (notAfter balance.Less) res) as Hs
    by (subst res; repeat constructor).
  split; [exact Hk|]. split; [exact Hr|]. split; [exact Hs|].
  exact (mergePositions_order_irrelevant balance.Less
           balance_facts.Less_irrefl balance_facts.Less_trans Less_connected
           twoBalances keys res Hk Hr Hs).
Defined.

End report_more.

(* ===================================================================== *)
(** * The sections of the register *)
(* ===================================================================== *)

Module register_facts.
Import decimal ledger balance register.

Section Register.

Context {Filter Posting Transaction : Type}.
Variable MatchAccount : Filter -> Account -> bool.
Variable MatchCommodity : Filter -> Commodity -> bool.
Variables Credit Debit : Posting -> Account.
Variable Commodity : Posting -> ledger.Commodity.
Variables Amount Value : Posting -> Decimal.
Variable Postings : Transaction -> list Posting.

Implicit Types acc : gmap CommodityAccount Decimal
                     * gmap CommodityAccount Decimal.
Implicit Types r : @Register Filter.

Lemma admissible_insert r acc (ca : CommodityAccount) (x y : Decimal) :
  admissible MatchAccount MatchCommodity r acc ->
  counterPosition MatchAccount MatchCommodity r ca ->
  admissible MatchAccount MatchCommodity r
    (<[ca := x]> acc.1, <[ca := y]> acc.2).
Proof.
  intros [Hdom Hkeys] Hca. split; cbn [fst snd].
  - rewrite !dom_insert_L, Hdom. reflexivity.
  - intros ca'. rewrite dom_insert_L, elem_of_union, elem_of_singleton.
    intros [->|Hin]; [exact Hca|exact (Hkeys ca' Hin)].
Qed.

Lemma addPosting_admissible r acc (b : Posting) :
  admissible MatchAccount MatchCommodity r acc ->
  admissible MatchAccount MatchCommodity r
    (addPosting MatchAccount MatchCommodity Credit Debit Commodity
       Amount Value r acc b).
Proof.
  intros Hacc. unfold addPosting.
  destruct (MatchCommodity (InFilter r) (Commodity b)) eqn:Hin;
    [|exact Hacc].
  destruct (MatchCommodity (OutFilter r) (Commodity b)) eqn:Hout;
    [|exact Hacc].
  cbn [negb orb].
  destruct (MatchAccount (InFilter r) (Credit b)) eqn:HinCr,
           (MatchAccount (InFilter r) (Debit b)) eqn:HinDr;
    cbn [andb]; try exact Hacc.
  - destruct (MatchAccount (OutFilter r) (Debit b)) eqn:HoutDr; [|exact Hacc].
    apply admissible_insert; [exact Hacc|].
    repeat split; assumption.
  - destruct (MatchAccount (OutFilter r) (Credit b)) eqn:HoutCr; [|exact Hacc].
    apply admissible_insert; [exact Hacc|].
    repeat split; assumption.
Qed.

Lemma dayPositions_admissible r (d : @Day Transaction) :
  admissible MatchAccount MatchCommodity r
    (dayPositions MatchAccount MatchCommodity Credit Debit Commodity
       Amount Value Postings r d).
Proof.
  unfold dayPositions.
  assert (admissible MatchAccount MatchCommodity r (∅, ∅)) as Hinit.
  { split; [reflexivity|]. intros ca. cbn [fst].
    rewrite dom_empty_L, elem_of_empty. intros []. }
  revert Hinit.
  generalize ((∅, ∅) : gmap CommodityAccount Decimal
                       * gmap CommodityAccount Decimal).
  induction (Transactions d) as [|t ts IH]; intros acc Hacc; [exact Hacc|].
  cbn [foldl]. apply IH. clear IH.
  revert acc Hacc.
  induction (Postings t) as [|b bs IH]; intros acc Hacc; [exact Hacc|].
  cbn [foldl]. apply IH, addPosting_admissible, Hacc.
Qed.

(** X25.  [Add] leaves the earlier sections as they are and appends one
    section with the date of the day.  Its amounts and its values have
    the same keys, and every key is a counter position: an account that
    the out-filter matches and the in-filter does not, in a commodity
    that both filters match. *)
Theorem Add_appends_counter_positions r (d : @Day Transaction) :
  exists s,
    sections (Add MatchAccount MatchCommodity Credit Debit Commodity
                Amount Value Postings r d)
    = sections r ++ [s]
    /\ date s = Date d
    /\ dom (amounts s) = dom (values s)
    /\ forall ca, is_Some (amounts s !! ca) \/ is_Some (values s !! ca) ->
         counterPosition MatchAccount MatchCommodity r ca.
Proof.
  destruct (dayPositions_admissible r d) as [Hdom Hkeys].
  eexists. split; [reflexivity|]. cbn [date amounts values].
  split; [reflexivity|]. split; [exact Hdom|].
  intros ca [Hsome|Hsome]; apply Hkeys.
  - apply elem_of_dom, Hsome.
  - rewrite Hdom. apply elem_of_dom, Hsome.
Qed.

End Register.

End register_facts.
